(** * TSCNS: a nanosecond clock read from the CPU cycle counter

    A shallow embedding of [src/tscns.h] (class [TSCNS]) and the properties
    its specification states about it.

    - [uint64_t] values are integers of [Z] in the range [0, 2^64), every
      unsigned operation is followed by [wrap64];
    - [(int64_t)x] on an unsigned value is [signed64];
    - [double] is IEEE 754 binary64, round to nearest even, as specified by
      [SpecFloat] of the standard library ([prec = 53], [emax = 1024]); this
      is the arithmetic of the x86-64 targets the header is written for;
    - [(int64_t)d] on a double truncates toward zero and has no defined
      result when the truncated value is outside [int64_t] (or [d] is an
      infinity or a NaN): it returns an [option], and so do the operations
      that perform it;
    - the two hardware primitives, [rdtscp] and [clock_gettime], are read
      from a [World] that hands out successive samples.

    The file has three parts: the definitions (the code first, then what the
    statements need), the lemmas (arithmetic modulo 2^64, the probe, the
    cast, rounding to binary64), and one section per claim. *)

From Stdlib Require Import ZArith List Bool Lia QArith Qround Qabs.
From Stdlib Require Import SpecFloat.
Import ListNotations.

Local Open Scope Z_scope.

(** ** 64-bit integers *)

Definition two64 : Z := 2 ^ 64.
Definition two63 : Z := 2 ^ 63.
Definition two62 : Z := 2 ^ 62.
Definition two53 : Z := 2 ^ 53.

(** Conversion to [uint64_t]. *)
Definition wrap64 (z : Z) : Z := z mod two64.

(** [(int64_t)u] for [u] a [uint64_t]. *)
Definition signed64 (u : Z) : Z :=
  if wrap64 u <? two63 then wrap64 u else wrap64 u - two64.

Definition is_u64 (z : Z) : Prop := 0 <= z < two64.
Definition is_i64 (z : Z) : Prop := - two63 <= z < two63.

(** ** Doubles *)

Definition prec : Z := 53.
Definition emax : Z := 1024.

Definition double : Type := spec_float.

Definition fmul : double -> double -> double := SFmul prec emax.
Definition fdiv : double -> double -> double := SFdiv prec emax.
Definition fleb : double -> double -> bool := SFleb.

(** The literals [0.0] and [1.0]. *)
Definition d_zero : double := S754_zero false.
Definition d_one : double := S754_finite false 4503599627370496 (-52).

(** [(double)i] for [i] an [int64_t]: the nearest double. *)
Definition of_int64 (i : Z) : double := binary_normalize prec emax i 0 false.

(** The integer part of a finite double, toward zero. *)
Definition trunc_double (d : double) : option Z :=
  match d with
  | S754_zero _ => Some 0
  | S754_finite s m e => Some (cond_Zopp s (Z.shiftl (Zpos m) e))
  | S754_infinity _ | S754_nan => None
  end.

(** [(int64_t)d]: defined only when the integer part fits. *)
Definition to_int64 (d : double) : option Z :=
  match trunc_double d with
  | Some z => if (- two63 <=? z) && (z <? two63) then Some z else None
  | None => None
  end.

(** The rational a finite double stands for (0 for the others). *)
Definition SF2Q (d : double) : Q :=
  match d with
  | S754_finite s m e =>
      if 0 <=? e then inject_Z (cond_Zopp s (Zpos m * 2 ^ e))
      else Qmake (cond_Zopp s (Zpos m)) (Z.to_pos (2 ^ (- e)))
  | _ => 0%Q
  end.

Definition is_finite (d : double) : bool :=
  match d with
  | S754_zero _ | S754_finite _ _ _ => true
  | _ => false
  end.

(** Truncation of a rational toward zero, and rounding to the nearest
    integer (halves away from zero). *)
Definition Qtrunc (q : Q) : Z := Z.quot (Qnum q) (Zpos (Qden q)).
Definition Qnearest (q : Q) : Z :=
  if Qle_bool 0 q then Qfloor (q + (1 # 2)) else Qceiling (q - (1 # 2)).

(** ** The host platform *)

Record timespec : Type := { tv_sec : Z; tv_nsec : Z }.

(** Successive samples of the cycle counter and of [CLOCK_REALTIME], and
    how many of each have been consumed. *)
Record World : Type := {
  tsc_src : nat -> Z;
  tsc_pos : nat;
  clk_src : nat -> timespec;
  clk_pos : nat
}.

(** [rdtsc()]: the next counter sample. *)
Definition rdtsc (w : World) : Z * World :=
  (wrap64 (tsc_src w (tsc_pos w)),
   {| tsc_src := tsc_src w; tsc_pos := S (tsc_pos w);
      clk_src := clk_src w; clk_pos := clk_pos w |}).

(** [rdsysns()]: the next [timespec], as nanoseconds in a [uint64_t]. *)
Definition rdsysns (w : World) : Z * World :=
  let ts := clk_src w (clk_pos w) in
  (wrap64 (tv_sec ts * 1000000000 + tv_nsec ts),
   {| tsc_src := tsc_src w; tsc_pos := tsc_pos w;
      clk_src := clk_src w; clk_pos := S (clk_pos w) |}).

(** ** The clock object *)

Record TSCNS : Type := {
  tsc_ghz_inv : double;
  ns_offset : Z;
  base_tsc : Z;
  base_ns : Z
}.

(** The member initialisers. *)
Definition fresh : TSCNS :=
  {| tsc_ghz_inv := d_one; ns_offset := 0; base_tsc := 0; base_ns := 0 |}.

(** The integer members hold [uint64_t] values. *)
Definition wf (t : TSCNS) : Prop :=
  is_u64 (ns_offset t) /\ is_u64 (base_tsc t) /\ is_u64 (base_ns t).

(** *** syncTime *)

Definition N : nat := 10.

(** The sampling loop, [n] rounds to go: [tscs] and [nses] are the arrays
    filled so far. *)
Fixpoint sample_rounds (n : nat) (tscs nses : list Z) (w : World)
  : list Z * list Z * World :=
  match n with
  | O => (tscs, nses, w)
  | S n' =>
      let '(ns, w1) := rdsysns w in
      let '(t, w2) := rdtsc w1 in
      sample_rounds n' (tscs ++ [t]) (nses ++ [ns]) w2
  end.

(** [tscs[i] - tscs[i - 1]], a [uint64_t]. *)
Definition tsc_diff (tscs : list Z) (i : nat) : Z :=
  wrap64 (nth i tscs 0 - nth (i - 1) tscs 0).

(** The selection loop at index [i], [n] iterations to go. *)
Fixpoint select_best (tscs : list Z) (i n best : nat) : nat :=
  match n with
  | O => best
  | S n' =>
      select_best tscs (S i) n'
        (if tsc_diff tscs i <? tsc_diff tscs best then i else best)
  end.

(** The arrays [syncTime] fills; slot 0 of [nses] is never written nor
    read. *)
Definition sync_samples (w : World) : list Z * list Z * World :=
  let '(t0, w0) := rdtsc w in
  sample_rounds N [t0] [0] w0.

Definition syncTime (w : World) : Z * Z * World :=
  let '(tscs, nses, w1) := sync_samples w in
  let best := select_best tscs 2 (N - 1) 1 in
  (Z.shiftr (wrap64 (nth best tscs 0 + nth (best - 1) tscs 0)) 1,
   nth best nses 0, w1).

(** *** adjustOffset, init, calibrate *)

(** [(int64_t)((int64_t)tsc * tsc_ghz_inv)] *)
Definition scaled (inv : double) (tsc : Z) : option Z :=
  to_int64 (fmul (of_int64 (signed64 tsc)) inv).

Definition adjustOffset (t : TSCNS) : option TSCNS :=
  match scaled (tsc_ghz_inv t) (base_tsc t) with
  | Some x =>
      Some {| tsc_ghz_inv := tsc_ghz_inv t;
              ns_offset := wrap64 (base_ns t - x);
              base_tsc := base_tsc t; base_ns := base_ns t |}
  | None => None
  end.

Definition set_base (t : TSCNS) (tsc ns : Z) : TSCNS :=
  {| tsc_ghz_inv := tsc_ghz_inv t; ns_offset := ns_offset t;
     base_tsc := tsc; base_ns := ns |}.

Definition set_inv (t : TSCNS) (inv : double) : TSCNS :=
  {| tsc_ghz_inv := inv; ns_offset := ns_offset t;
     base_tsc := base_tsc t; base_ns := base_ns t |}.

Definition init (tsc_ghz : double) (w : World) (t : TSCNS)
  : option (TSCNS * World) :=
  let '(tsc, ns, w1) := syncTime w in
  let t1 := set_base t tsc ns in
  if fleb tsc_ghz d_zero then Some (t1, w1)
  else
    match adjustOffset (set_inv t1 (fdiv d_one tsc_ghz)) with
    | Some t2 => Some (t2, w1)
    | None => None
    end.

(** The scale [calibrate] derives from the base pair and a second probe. *)
Definition derived_inv (t : TSCNS) (delayed_tsc delayed_ns : Z) : double :=
  fdiv (of_int64 (signed64 (wrap64 (delayed_ns - base_ns t))))
       (of_int64 (signed64 (wrap64 (delayed_tsc - base_tsc t)))).

Definition calibrate (w : World) (t : TSCNS)
  : option (double * TSCNS * World) :=
  let '(delayed_tsc, delayed_ns, w1) := syncTime w in
  match adjustOffset (set_inv t (derived_inv t delayed_tsc delayed_ns)) with
  | Some t1 => Some (fdiv d_one (tsc_ghz_inv t1), t1, w1)
  | None => None
  end.

(** *** tsc2ns, rdns, rdoffset *)

Definition tsc2ns (t : TSCNS) (tsc : Z) : option Z :=
  match scaled (tsc_ghz_inv t) tsc with
  | Some x => Some (wrap64 (ns_offset t + x))
  | None => None
  end.

Definition rdns (w : World) (t : TSCNS) : option Z * World :=
  let '(tsc, w1) := rdtsc w in (tsc2ns t tsc, w1).

Definition rdoffset (t : TSCNS) : Z := ns_offset t.

(** ** Sample worlds *)

(** A counter that starts at [t0] and advances by [dt] per read, a wall
    clock that starts at [n0] nanoseconds and advances by [dn] per read. *)
Definition linear_world (t0 dt n0 dn : Z) : World :=
  {| tsc_src := fun k => t0 + dt * Z.of_nat k; tsc_pos := 0;
     clk_src := fun k => {| tv_sec := 0; tv_nsec := n0 + dn * Z.of_nat k |};
     clk_pos := 0 |}.

Definition two_probe_world (t0 t1 n0 n1 : Z) : World :=
  {| tsc_src := fun k =>
       if (k <? 11)%nat then t0 + 30 * Z.of_nat k
       else t1 + 30 * Z.of_nat (k - 11);
     tsc_pos := 0;
     clk_src := fun k =>
       {| tv_sec := 0;
          tv_nsec := if (k <? 10)%nat then n0 + 10 * Z.of_nat k
                     else n1 + 10 * Z.of_nat (k - 10) |};
     clk_pos := 0 |}.

(** ** Reading the model *)

(** The [k]-th counter value and the [k]-th wall-clock value still to be
    read from a world. *)
Definition tsc_at (w : World) (k : nat) : Z :=
  wrap64 (tsc_src w (tsc_pos w + k)).

Definition ns_at (w : World) (k : nat) : Z :=
  let ts := clk_src w (clk_pos w + k) in
  wrap64 (tv_sec ts * 1000000000 + tv_nsec ts).

(** The world after [i] counter reads and [j] wall-clock reads. *)
Definition skip (w : World) (i j : nat) : World :=
  {| tsc_src := tsc_src w; tsc_pos := tsc_pos w + i;
     clk_src := clk_src w; clk_pos := clk_pos w + j |}.

(** The next [n] counter readings are strictly increasing and below 2^62. *)
Definition counter_increasing (w : World) (n : nat) : Prop :=
  forall i j, (i < j < n)%nat ->
    0 <= tsc_src w (tsc_pos w + i) < tsc_src w (tsc_pos w + j) /\
    tsc_src w (tsc_pos w + j) < two62.

(** The delta of round [j], as [syncTime] computes it. *)
Definition delta (w : World) (j : nat) : Z :=
  wrap64 (tsc_at w j - tsc_at w (j - 1)).

(** [best] is the first round among [1..n] with the least delta. *)
Definition is_best (w : World) (n best : nat) : Prop :=
  (1 <= best <= n)%nat /\
  (forall j, (1 <= j <= n)%nat -> delta w best <= delta w j) /\
  (forall j, (1 <= j < best)%nat -> delta w best < delta w j).

(** The round [syncTime] selects. *)
Definition best_round (w : World) : nat :=
  select_best (map (tsc_at w) (seq 0 (S N))) 2 (N - 1) 1.

(** The pair a probe returns and the world it leaves. *)
Definition probe_tsc (w : World) : Z := fst (fst (syncTime w)).
Definition probe_ns (w : World) : Z := snd (fst (syncTime w)).
Definition after_probe (w : World) : World := snd (syncTime w).

(** What [calibrate] divides: the elapsed nanoseconds and ticks. *)
Definition ns_elapsed (w : World) (t : TSCNS) : Z := probe_ns w - base_ns t.
Definition tsc_elapsed (w : World) (t : TSCNS) : Z := probe_tsc w - base_tsc t.
Definition ratio (dn dt : Z) : double := fdiv (of_int64 dn) (of_int64 dt).

(** The divisor as [calibrate] forms it: [(int64_t)(delayed_tsc - base_tsc)]. *)
Definition divisor (w : World) (t : TSCNS) : Z :=
  signed64 (wrap64 (probe_tsc w - base_tsc t)).

(** The double product [tsc2ns] and [adjustOffset] form. *)
Definition product (inv : double) (tsc : Z) : double :=
  fmul (of_int64 (signed64 tsc)) inv.

Definition d_three : double := of_int64 3.
Definition d_third : double := fdiv d_one d_three.

(** ** The claims as the specification words them *)

(** C1: the exact product rounded to the nearest integer. *)
Definition convert_nearest (t : TSCNS) (tsc : Z) : Z :=
  wrap64 (ns_offset t
          + Qnearest (inject_Z (signed64 tsc) * SF2Q (tsc_ghz_inv t))).

(** C2: the ticks returned are the arithmetic mean of the two readings
    around the selected round. *)
Definition sync_midpoint_exact (w : World) : Prop :=
  exists best,
    is_best w N best /\
    fst (fst (syncTime w)) = (tsc_at w best + tsc_at w (best - 1)) / 2 /\
    snd (fst (syncTime w)) = ns_at w (best - 1).

(** C9: whatever the object held, [init] with a scale that is zero or
    negative leaves [tsc_ghz_inv] at 1.0. *)
Definition init_nonpositive_resets : Prop :=
  forall (g : double) (w w' : World) (t t' : TSCNS),
    fleb g d_zero = true ->
    init g w t = Some (t', w') ->
    tsc_ghz_inv t' = d_one.

(** ** Round to nearest even, on integers *)

(** [rne m k]: the integer nearest to [m / 2^k], ties to even; what [shr]
    followed by [round_nearest_even] computes. *)
Definition rne (m k : Z) : Z :=
  let q := m / 2 ^ k in
  let r := m mod 2 ^ k in
  let h := 2 ^ (k - 1) in
  if r <? h then q
  else if h <? r then q + 1
  else if Z.even q then q else q + 1.

Definition digits (m : positive) : Z := Zpos (digits2_pos m).

(** A finite double, or an infinity when the exponent is too large. *)
Definition fin_or_inf (sx : bool) (m : Z) (e : Z) : double :=
  match m with
  | Z0 => S754_zero sx
  | Zpos p => if e <=? emax - prec then S754_finite sx p e
              else S754_infinity sx
  | Zneg _ => S754_nan
  end.

(** What [binary_round_aux] does on an exact input. *)
Definition round_exact (sx : bool) (m : positive) (e : Z) : double :=
  let E := fexp prec emax (digits m + e) in
  if E <=? e then fin_or_inf sx (Zpos m) e
  else
    let m1 := rne (Zpos m) (E - e) in
    if m1 =? two53 then fin_or_inf sx (2 ^ 52) (E + 1)
    else fin_or_inf sx m1 E.

(** [rn c n]: the double nearest to [n * 2^c], as a multiple of [2^c]. *)
Definition rn (c n : Z) : Z :=
  let E := fexp prec emax (Zdigits2 n + c) in
  if E <=? c then n else rne n (E - c) * 2 ^ (E - c).

(** The unit in which the product with a scale of exponent [es] is
    counted. *)
Definition unit_exp (es : Z) : Z := Z.min 0 (es - 52).

(** The double product of a tick count [a] in [0, 2^63) with a positive
    finite scale [ms * 2^es], in units of [2^c], and its integer part. *)
Definition scaled_units (ms : positive) (es c a : Z) : Z :=
  rn c (rn 0 a * Zpos ms * 2 ^ (es - c)).

Definition scaled_value (ms : positive) (es a : Z) : Z :=
  scaled_units ms es (unit_exp es) a / 2 ^ (- unit_exp es).

(** The exact product, in the same units. *)
Definition exact_units (ms : positive) (es a : Z) : Z :=
  a * Zpos ms * 2 ^ (es - unit_exp es).

(** ** Wall-clock samples *)

(** A [timespec] as [clock_gettime] fills it: seconds since the epoch that
    are not negative, [0 <= tv_nsec < 10^9], and early enough for the
    nanosecond count [tv_sec * 10^9 + tv_nsec], which [rdsysns] computes in
    signed 64-bit arithmetic, not to overflow. *)
Definition timespec_normal (ts : timespec) : Prop :=
  0 <= tv_sec ts /\ 0 <= tv_nsec ts < 1000000000 /\
  tv_sec ts * 1000000000 + tv_nsec ts < two63.

(** ** Rounding a quotient *)

(** What a [location] says of the remainder [f] of a division by [den]:
    nothing is left, less than half, exactly half, or more than half. *)
Definition loc_frac (l : location) (f den : Z) : Prop :=
  match l with
  | loc_Exact => f = 0
  | loc_Inexact Lt => 0 < 2 * f < den
  | loc_Inexact Eq => 2 * f = den
  | loc_Inexact Gt => den < 2 * f
  end.

(** A shift record that stands for [num / den]: its mantissa is the integer
    part and its two bits locate the remainder. *)
Definition shr_ok (mrs : shr_record) (num den : Z) : Prop :=
  0 <= shr_m mrs /\ 0 < den /\
  0 <= num - shr_m mrs * den < den /\
  loc_frac (loc_of_shr_record mrs) (num - shr_m mrs * den) den.

(** ** Scales within a floating-point tolerance *)

(** 2^-51: two units in the last place of a double, relatively. *)
Definition scale_tolerance : Q := 1 # 2251799813685248.

(** [s'] is a finite double whose value differs from that of [s] by no more
    than [scale_tolerance] times the magnitude of [s]. *)
Definition scales_close (s s' : double) : Prop :=
  is_finite s' = true /\
  (Qabs (SF2Q s' - SF2Q s) <= Qabs (SF2Q s) * scale_tolerance)%Q.

(** Closed goals over concrete numbers, by evaluation. *)
Ltac crunch :=
  vm_compute;
  repeat match goal with |- _ /\ _ => split end;
  first [reflexivity | discriminate].

(** ** Arithmetic modulo 2^64 *)

Lemma two64_pos : 0 < two64.
Proof. reflexivity. Qed.

Lemma two64_eq : two64 = 2 * two63.
Proof. reflexivity. Qed.

Lemma wrap64_range (z : Z) : is_u64 (wrap64 z).
Proof. unfold is_u64, wrap64. apply Z.mod_pos_bound, two64_pos. Qed.

Lemma wrap64_small (z : Z) : is_u64 z -> wrap64 z = z.
Proof. unfold is_u64, wrap64. intros H. now apply Z.mod_small. Qed.

Lemma wrap64_idem (z : Z) : wrap64 (wrap64 z) = wrap64 z.
Proof. apply wrap64_small, wrap64_range. Qed.

Lemma wrap64_add_l (a b : Z) : wrap64 (wrap64 a + b) = wrap64 (a + b).
Proof. unfold wrap64. apply Zplus_mod_idemp_l. Qed.

Lemma wrap64_sub_add (a x : Z) : wrap64 (wrap64 (a - x) + x) = wrap64 a.
Proof. rewrite wrap64_add_l. f_equal. lia. Qed.

Lemma signed64_range (u : Z) : is_i64 (signed64 u).
Proof.
  unfold is_i64, signed64. pose proof (wrap64_range u) as H.
  unfold is_u64 in H. rewrite two64_eq in *.
  destruct (Z.ltb_spec (wrap64 u) two63); lia.
Qed.

Lemma signed64_small (u : Z) : 0 <= u < two63 -> signed64 u = u.
Proof.
  intros H. unfold signed64. rewrite wrap64_small.
  - destruct (Z.ltb_spec u two63); lia.
  - unfold is_u64. rewrite two64_eq. lia.
Qed.

(** The signed reading of a wrapped difference is the difference itself
    whenever that fits [int64_t]. *)
Lemma signed64_diff (a b : Z) :
  is_i64 (a - b) -> signed64 (wrap64 (a - b)) = a - b.
Proof.
  unfold is_i64, signed64. intros H. rewrite wrap64_idem.
  unfold wrap64. rewrite two64_eq in *.
  destruct (Z.leb_spec 0 (a - b)).
  - rewrite Z.mod_small by lia. destruct (Z.ltb_spec (a - b) two63); lia.
  - replace ((a - b) mod (2 * two63)) with (a - b + 2 * two63).
    + destruct (Z.ltb_spec (a - b + 2 * two63) two63); lia.
    + apply Z.mod_unique with (q := -1); lia.
Qed.

Lemma signed64_wrap (x : Z) : is_i64 x -> signed64 (wrap64 x) = x.
Proof.
  intros H. replace x with (x - 0) by lia. apply signed64_diff.
  now replace (x - 0) with x by lia.
Qed.

(** ** syncTime *)

Lemma tsc_at_range (w : World) (k : nat) : is_u64 (tsc_at w k).
Proof. apply wrap64_range. Qed.

Lemma sample_rounds_spec (n : nat) :
  forall (tscs nses : list Z) (w : World),
    sample_rounds n tscs nses w =
    (tscs ++ map (tsc_at w) (seq 0 n), nses ++ map (ns_at w) (seq 0 n),
     skip w n n).
Proof.
  induction n as [|n IH]; intros tscs nses w.
  - cbn. rewrite !app_nil_r. unfold skip. rewrite !Nat.add_0_r.
    now destruct w.
  - cbn [sample_rounds rdsysns rdtsc]. rewrite IH.
    cbn [seq map]. rewrite <- !seq_shift, !map_map, <- !app_assoc.
    cbn [app]. unfold tsc_at, ns_at, skip. cbn.
    rewrite !Nat.add_0_r.
    f_equal; [f_equal|].
    + f_equal. f_equal. apply map_ext. intros k. now rewrite Nat.add_succ_r.
    + f_equal. f_equal. apply map_ext. intros k. now rewrite Nat.add_succ_r.
    + f_equal; lia.
Qed.

Lemma sync_samples_spec (w : World) :
  sync_samples w =
  (map (tsc_at w) (seq 0 (S N)), 0 :: map (ns_at w) (seq 0 N),
   skip w (S N) N).
Proof.
  unfold sync_samples. cbn [rdtsc]. rewrite sample_rounds_spec.
  unfold tsc_at, ns_at, skip, N. cbn.
  rewrite !Nat.add_succ_r, !Nat.add_0_r. reflexivity.
Qed.

Lemma nth_tscs (w : World) (n i : nat) :
  (i < n)%nat -> nth i (map (tsc_at w) (seq 0 n)) 0 = tsc_at w i.
Proof.
  intros H. rewrite nth_indep with (d' := tsc_at w 0%nat)
    by now rewrite length_map, length_seq.
  rewrite map_nth with (f := tsc_at w) (d := 0%nat).
  now rewrite seq_nth.
Qed.

Lemma nth_nses (w : World) (n i : nat) :
  (1 <= i <= n)%nat ->
  nth i (0 :: map (ns_at w) (seq 0 n)) 0 = ns_at w (i - 1).
Proof.
  intros H. destruct i as [|i]; [lia|]. cbn [nth].
  rewrite Nat.sub_succ, Nat.sub_0_r.
  rewrite nth_indep with (d' := ns_at w 0%nat)
    by (rewrite length_map, length_seq; lia).
  rewrite map_nth with (f := ns_at w) (d := 0%nat).
  rewrite seq_nth; [reflexivity|lia].
Qed.

Lemma tsc_diff_delta (w : World) (n i : nat) :
  (i < n)%nat -> tsc_diff (map (tsc_at w) (seq 0 n)) i = delta w i.
Proof.
  intros H. unfold tsc_diff, delta. rewrite !nth_tscs by lia. reflexivity.
Qed.

(** The invariant of the selection loop. *)
Lemma select_best_spec (w : World) (len : nat) :
  forall (n i best : nat),
    (2 <= i)%nat -> (i + n <= len)%nat ->
    is_best w (i - 1) best ->
    is_best w (i + n - 1)
      (select_best (map (tsc_at w) (seq 0 len)) i n best).
Proof.
  induction n as [|n IH]; intros i best Hi Hlen Hb.
  - cbn. now rewrite Nat.add_0_r.
  - cbn [select_best].
    replace (i + S n - 1)%nat with (S i + n - 1)%nat by lia.
    apply IH; [lia|lia|].
    destruct Hb as (Hr & Hmin & Hfirst).
    rewrite !tsc_diff_delta by lia.
    replace (S i - 1)%nat with i by lia.
    destruct (Z.ltb_spec (delta w i) (delta w best)) as [Hlt|Hge].
    + repeat split; try lia.
      * intros j Hj. destruct (Nat.eq_dec j i) as [->|Hne]; [lia|].
        specialize (Hmin j ltac:(lia)). lia.
      * intros j Hj. specialize (Hmin j ltac:(lia)). lia.
    + repeat split; try lia.
      * intros j Hj. destruct (Nat.eq_dec j i) as [->|Hne]; [lia|].
        apply Hmin. lia.
      * intros j Hj. apply Hfirst. lia.
Qed.

Lemma is_best_1 (w : World) : is_best w 1 1.
Proof.
  repeat split; try lia.
  intros j Hj. replace j with 1%nat by lia. lia.
Qed.

Lemma best_round_is_best (w : World) : is_best w N (best_round w).
Proof.
  unfold best_round.
  replace N with (2 + (N - 1) - 1)%nat at 1 by reflexivity.
  apply select_best_spec; [lia|unfold N; lia|apply is_best_1].
Qed.

Lemma syncTime_eq (w : World) :
  syncTime w =
  (Z.shiftr (wrap64 (tsc_at w (best_round w) + tsc_at w (best_round w - 1))) 1,
   ns_at w (best_round w - 1), skip w (S N) N).
Proof.
  unfold syncTime. rewrite sync_samples_spec. fold (best_round w).
  pose proof (best_round_is_best w) as (Hr & _).
  rewrite !nth_tscs by (unfold N in *; lia).
  rewrite nth_nses by lia. reflexivity.
Qed.

(** From here on [syncTime] is used through [syncTime_eq]. *)
Opaque syncTime.

Lemma is_best_unique (w : World) (n b1 b2 : nat) :
  is_best w n b1 -> is_best w n b2 -> b1 = b2.
Proof.
  intros (R1 & M1 & F1) (R2 & M2 & F2).
  destruct (Nat.lt_trichotomy b1 b2) as [H|[H|H]]; [|assumption|].
  - specialize (F2 b1 ltac:(lia)). specialize (M1 b2 ltac:(lia)). lia.
  - specialize (F1 b2 ltac:(lia)). specialize (M2 b1 ltac:(lia)). lia.
Qed.

(** ** The double-to-integer cast and the operations *)

Lemma syncTime_probe (w : World) :
  syncTime w = (probe_tsc w, probe_ns w, after_probe w).
Proof.
  unfold probe_tsc, probe_ns, after_probe.
  now destruct (syncTime w) as [[a b] c].
Qed.

Lemma to_int64_range (d : double) (x : Z) : to_int64 d = Some x -> is_i64 x.
Proof.
  unfold to_int64, is_i64. destruct (trunc_double d) as [z|]; [|discriminate].
  destruct (Z.leb_spec (- two63) z), (Z.ltb_spec z two63);
    cbn [andb]; intros E; inversion E; subst; lia.
Qed.

Lemma to_int64_trunc (d : double) (z : Z) :
  trunc_double d = Some z -> is_i64 z -> to_int64 d = Some z.
Proof.
  unfold to_int64, is_i64. intros -> H.
  destruct (Z.leb_spec (- two63) z), (Z.ltb_spec z two63);
    cbn [andb]; try lia.
  reflexivity.
Qed.

Lemma pow2_pos (e : Z) : 0 <= e -> 0 < 2 ^ e.
Proof. intros H. apply Z.pow_pos_nonneg; lia. Qed.

(** The cast is the truncation toward zero of the rational value. *)
Lemma trunc_double_Qtrunc (d : double) :
  is_finite d = true -> trunc_double d = Some (Qtrunc (SF2Q d)).
Proof.
  destruct d as [s|s| |s m e]; cbn [is_finite]; try discriminate; intros _.
  - reflexivity.
  - cbn [trunc_double SF2Q]. f_equal. unfold Qtrunc.
    destruct (Z.leb_spec 0 e) as [He|He].
    + cbn [inject_Z Qnum Qden]. rewrite Z.quot_1_r, Z.shiftl_mul_pow2 by lia.
      reflexivity.
    + cbn [Qnum Qden].
      pose proof (pow2_pos (- e) ltac:(lia)) as Hp.
      rewrite Z2Pos.id by lia.
      rewrite Z.shiftl_div_pow2 by lia.
      destruct s; cbn [cond_Zopp].
      * rewrite Z.quot_opp_l by lia. f_equal.
        symmetry. apply Z.quot_div_nonneg; lia.
      * symmetry. apply Z.quot_div_nonneg; lia.
Qed.

Lemma scaled_range (inv : double) (tsc x : Z) :
  scaled inv tsc = Some x -> is_i64 x.
Proof. apply to_int64_range. Qed.

(** ** adjustOffset, init, calibrate, tsc2ns *)

Lemma adjustOffset_eq (t : TSCNS) (x : Z) :
  scaled (tsc_ghz_inv t) (base_tsc t) = Some x ->
  adjustOffset t =
  Some {| tsc_ghz_inv := tsc_ghz_inv t; ns_offset := wrap64 (base_ns t - x);
          base_tsc := base_tsc t; base_ns := base_ns t |}.
Proof. unfold adjustOffset. now intros ->. Qed.

Lemma calibrate_eq (w : World) (t : TSCNS) (x : Z) :
  scaled (derived_inv t (probe_tsc w) (probe_ns w)) (base_tsc t) = Some x ->
  calibrate w t =
  Some (fdiv d_one (derived_inv t (probe_tsc w) (probe_ns w)),
        {| tsc_ghz_inv := derived_inv t (probe_tsc w) (probe_ns w);
           ns_offset := wrap64 (base_ns t - x);
           base_tsc := base_tsc t; base_ns := base_ns t |},
        after_probe w).
Proof.
  intros H. unfold calibrate. rewrite syncTime_probe.
  erewrite adjustOffset_eq by exact H. reflexivity.
Qed.

Lemma init_positive_eq (g : double) (w : World) (t : TSCNS) (x : Z) :
  fleb g d_zero = false ->
  scaled (fdiv d_one g) (probe_tsc w) = Some x ->
  init g w t =
  Some ({| tsc_ghz_inv := fdiv d_one g;
           ns_offset := wrap64 (probe_ns w - x);
           base_tsc := probe_tsc w; base_ns := probe_ns w |},
        after_probe w).
Proof.
  intros Hg H. unfold init. rewrite syncTime_probe, Hg.
  erewrite adjustOffset_eq by exact H. reflexivity.
Qed.

Lemma init_nonpositive_eq (g : double) (w : World) (t : TSCNS) :
  fleb g d_zero = true ->
  init g w t = Some (set_base t (probe_tsc w) (probe_ns w), after_probe w).
Proof. intros Hg. unfold init. now rewrite syncTime_probe, Hg. Qed.

Lemma probe_tsc_range (w : World) : 0 <= probe_tsc w < two63.
Proof.
  unfold probe_tsc. rewrite syncTime_eq. cbn [fst].
  rewrite Z.shiftr_div_pow2 by lia. change (2 ^ 1) with 2.
  pose proof (wrap64_range (tsc_at w (best_round w)
                            + tsc_at w (best_round w - 1))) as H.
  unfold is_u64 in H. rewrite two64_eq in H.
  split; [apply Z.div_pos; lia|apply Z.div_lt_upper_bound; lia].
Qed.

Lemma probe_ns_range (w : World) : is_u64 (probe_ns w).
Proof. unfold probe_ns. rewrite syncTime_eq. apply wrap64_range. Qed.

(** The operations keep the integer members within [uint64_t]. *)
Lemma adjustOffset_wf (t t' : TSCNS) :
  wf t -> adjustOffset t = Some t' -> wf t'.
Proof.
  intros (_ & Ht & Hn). unfold adjustOffset.
  destruct (scaled _ _) as [x|]; [|discriminate].
  intros E. injection E as <-. unfold wf.
  cbn [ns_offset base_tsc base_ns]. split; [apply wrap64_range|].
  split; assumption.
Qed.

Lemma probe_wf (t : TSCNS) (w : World) :
  wf t -> wf (set_base t (probe_tsc w) (probe_ns w)).
Proof.
  intros (Ho & _ & _). split; [exact Ho|]. cbn [set_base base_tsc base_ns].
  pose proof (probe_tsc_range w) as H. split; [|apply probe_ns_range].
  unfold is_u64. rewrite two64_eq. lia.
Qed.

(** * Binary64 rounding *)

(** ** Round to nearest even on integer mantissas *)

Lemma iter_pos_nat {A : Type} (f : A -> A) (p : positive) :
  forall x, iter_pos f p x = Nat.iter (Pos.to_nat p) f x.
Proof.
  induction p as [p IH|p IH|]; intros x; cbn [iter_pos].
  - rewrite !IH, Pos2Nat.inj_xI.
    replace (S (2 * Pos.to_nat p))%nat
      with (Pos.to_nat p + (Pos.to_nat p + 1))%nat by lia.
    rewrite !Nat.iter_add. reflexivity.
  - rewrite !IH, Pos2Nat.inj_xO.
    replace (2 * Pos.to_nat p)%nat with (Pos.to_nat p + Pos.to_nat p)%nat
      by lia.
    now rewrite Nat.iter_add.
  - reflexivity.
Qed.

Lemma shr_1_nonneg (m : Z) (r s : bool) :
  0 <= m ->
  shr_1 {| shr_m := m; shr_r := r; shr_s := s |}
  = {| shr_m := m / 2; shr_r := Z.odd m; shr_s := r || s |}.
Proof.
  intros Hm. destruct m as [|p|p]; [reflexivity| |lia].
  destruct p as [p|p|]; cbn [shr_1 Z.odd].
  - f_equal. rewrite Pos2Z.inj_xI. rewrite Z.mul_comm, Z.div_add_l by lia.
    reflexivity.
  - f_equal. rewrite Pos2Z.inj_xO. rewrite Z.mul_comm, Z.div_mul by lia.
    reflexivity.
  - reflexivity.
Qed.

Lemma mod_pow2_succ (m j : Z) :
  0 <= j -> m mod 2 ^ (j + 1) = m mod 2 ^ j + 2 ^ j * ((m / 2 ^ j) mod 2).
Proof.
  intros Hj. rewrite Z.pow_add_r, Z.pow_1_r by lia.
  apply Z.rem_mul_r; [|lia]. apply Z.pow_nonzero; lia.
Qed.

Lemma odd_mod2 (q : Z) : q mod 2 = if Z.odd q then 1 else 0.
Proof. rewrite Zmod_odd. reflexivity. Qed.

Lemma shr_iter (m : Z) (j : nat) :
  0 <= m ->
  Nat.iter (S j) shr_1 {| shr_m := m; shr_r := false; shr_s := false |}
  = {| shr_m := m / 2 ^ (Z.of_nat j + 1);
       shr_r := Z.odd (m / 2 ^ Z.of_nat j);
       shr_s := negb (m mod 2 ^ Z.of_nat j =? 0) |}.
Proof.
  intros Hm. induction j as [|j IH].
  - cbn [Nat.iter]. rewrite shr_1_nonneg by assumption.
    change (Z.of_nat 0) with 0.
    cbn [Z.add Z.pow Z.pow_pos Pos.iter Z.mul Pos.mul orb].
    rewrite Z.div_1_r, Z.mod_1_r. reflexivity.
  - rewrite Nat.iter_succ, IH.
    assert (0 < 2 ^ Z.of_nat j) as Hp by (apply Z.pow_pos_nonneg; lia).
    assert (0 < 2 ^ (Z.of_nat j + 1)) as Hp' by (apply Z.pow_pos_nonneg; lia).
    rewrite shr_1_nonneg by (apply Z.div_pos; lia).
    replace (Z.of_nat (S j)) with (Z.of_nat j + 1) by lia.
    f_equal.
    + rewrite Z.div_div by lia. f_equal.
      rewrite (Z.pow_add_r 2 (Z.of_nat j + 1) 1) by lia. reflexivity.
    + rewrite (mod_pow2_succ m (Z.of_nat j)) by lia.
      rewrite odd_mod2.
      pose proof (Z.mod_pos_bound m (2 ^ Z.of_nat j) Hp) as Hb.
      destruct (Z.odd (m / 2 ^ Z.of_nat j)); cbn [orb].
      * symmetry. apply negb_true_iff, Z.eqb_neq. lia.
      * f_equal. f_equal. lia.
Qed.

Lemma shr_rne (m : Z) (p : positive) :
  0 <= m ->
  shr_m (iter_pos shr_1 p {| shr_m := m; shr_r := false; shr_s := false |})
  = m / 2 ^ Zpos p /\
  round_nearest_even
    (shr_m (iter_pos shr_1 p
              {| shr_m := m; shr_r := false; shr_s := false |}))
    (loc_of_shr_record
       (iter_pos shr_1 p {| shr_m := m; shr_r := false; shr_s := false |}))
  = rne m (Zpos p).
Proof.
  intros Hm. rewrite iter_pos_nat.
  destruct (Pos2Nat.is_succ p) as [j Hj]. rewrite Hj, shr_iter by assumption.
  assert (Zpos p = Z.of_nat j + 1) as Hk by lia.
  rewrite <- Hk. cbn [shr_m]. split; [reflexivity|].
  unfold rne. replace (Zpos p - 1) with (Z.of_nat j) by lia.
  assert (m mod 2 ^ Zpos p
          = m mod 2 ^ Z.of_nat j
            + 2 ^ Z.of_nat j * (if Z.odd (m / 2 ^ Z.of_nat j) then 1 else 0))
    as -> by (rewrite Hk, mod_pow2_succ, odd_mod2 by lia; reflexivity).
  assert (0 < 2 ^ Z.of_nat j) as Hp by (apply Z.pow_pos_nonneg; lia).
  pose proof (Z.mod_pos_bound m (2 ^ Z.of_nat j) Hp) as Hb.
  set (h := 2 ^ Z.of_nat j) in *. set (low := m mod h) in *.
  destruct (Z.odd (m / h)); destruct (Z.eqb_spec low 0) as [E|E];
    cbn [negb loc_of_shr_record round_nearest_even].
  - destruct (Z.ltb_spec (low + h * 1) h); [lia|].
    destruct (Z.ltb_spec h (low + h * 1)); [lia|]. reflexivity.
  - destruct (Z.ltb_spec (low + h * 1) h); [lia|].
    destruct (Z.ltb_spec h (low + h * 1)); [|lia]. reflexivity.
  - destruct (Z.ltb_spec (low + h * 0) h); [|lia]. reflexivity.
  - destruct (Z.ltb_spec (low + h * 0) h); [|lia]. reflexivity.
Qed.

(** *** Properties of [rne] *)

Lemma rne_pow (k : Z) :
  0 < k -> 2 ^ k = 2 * 2 ^ (k - 1) /\ 0 < 2 ^ (k - 1).
Proof.
  intros Hk. split.
  - replace k with (1 + (k - 1)) at 1 by lia.
    rewrite Z.pow_add_r by lia. reflexivity.
  - apply Z.pow_pos_nonneg; lia.
Qed.

Lemma rne_bounds (k m : Z) : m / 2 ^ k <= rne m k <= m / 2 ^ k + 1.
Proof.
  unfold rne.
  destruct (m mod 2 ^ k <? 2 ^ (k - 1)); [lia|].
  destruct (2 ^ (k - 1) <? m mod 2 ^ k); [lia|].
  destruct (Z.even (m / 2 ^ k)); lia.
Qed.

(** The rounded mantissa is within half a unit of [m / 2^k]. *)
Lemma rne_err (k m : Z) :
  0 < k -> Z.abs (rne m k * 2 ^ k - m) <= 2 ^ (k - 1).
Proof.
  intros Hk. destruct (rne_pow k Hk) as [HP Hh].
  pose proof (Z.div_mod m (2 ^ k) ltac:(lia)) as Hdm.
  pose proof (Z.mod_pos_bound m (2 ^ k) ltac:(lia)) as Hb.
  unfold rne.
  set (P := 2 ^ k) in *. set (h := 2 ^ (k - 1)) in *.
  destruct (Z.ltb_spec (m mod P) h); [lia|].
  destruct (Z.ltb_spec h (m mod P)); [lia|].
  destruct (Z.even (m / P)); lia.
Qed.

Lemma rne_exact (k a : Z) : 0 < k -> rne (a * 2 ^ k) k = a.
Proof.
  intros Hk. destruct (rne_pow k Hk) as [HP Hh].
  unfold rne. rewrite Z.mod_mul, Z.div_mul by lia.
  destruct (Z.ltb_spec 0 (2 ^ (k - 1))); [reflexivity|lia].
Qed.

Lemma rne_mono (k m1 m2 : Z) : 0 < k -> m1 <= m2 -> rne m1 k <= rne m2 k.
Proof.
  intros Hk Hle. destruct (rne_pow k Hk) as [HP Hh].
  pose proof (Z.div_le_mono m1 m2 (2 ^ k) ltac:(lia) Hle) as Hq.
  pose proof (rne_bounds k m1) as B1. pose proof (rne_bounds k m2) as B2.
  destruct (Z.eq_dec (m1 / 2 ^ k) (m2 / 2 ^ k)) as [E|NE]; [|lia].
  pose proof (Z.div_mod m1 (2 ^ k) ltac:(lia)) as D1.
  pose proof (Z.div_mod m2 (2 ^ k) ltac:(lia)) as D2.
  assert (m1 mod 2 ^ k <= m2 mod 2 ^ k) as Hr by lia.
  unfold rne. rewrite E.
  set (P := 2 ^ k) in *. set (h := 2 ^ (k - 1)) in *.
  destruct (Z.ltb_spec (m1 mod P) h), (Z.ltb_spec (m2 mod P) h); try lia;
    destruct (Z.ltb_spec h (m1 mod P)), (Z.ltb_spec h (m2 mod P)); try lia;
    destruct (Z.even (m2 / P)); lia.
Qed.

Lemma rne_le_grid (k m a : Z) : 0 < k -> m <= a * 2 ^ k -> rne m k <= a.
Proof. intros Hk H. rewrite <- (rne_exact k a Hk). now apply rne_mono. Qed.

Lemma rne_ge_grid (k m a : Z) : 0 < k -> a * 2 ^ k <= m -> a <= rne m k.
Proof. intros Hk H. rewrite <- (rne_exact k a Hk). now apply rne_mono. Qed.

Lemma rne_nonneg (k m : Z) : 0 < k -> 0 <= m -> 0 <= rne m k.
Proof. intros Hk H. apply rne_ge_grid; lia. Qed.

(** Rounding does not depend on how the dyadic is written. *)
Lemma rne_align (m k j : Z) :
  0 < k -> 0 <= j -> rne (m * 2 ^ j) (k + j) = rne m k.
Proof.
  intros Hk Hj. unfold rne.
  assert (0 < 2 ^ j) as Pj by (apply Z.pow_pos_nonneg; lia).
  assert (0 < 2 ^ k) as Pk by (apply Z.pow_pos_nonneg; lia).
  assert (0 < 2 ^ (k - 1)) as Ph by (apply Z.pow_pos_nonneg; lia).
  rewrite (Z.pow_add_r 2 k j) by lia.
  replace (k + j - 1) with (k - 1 + j) by lia.
  rewrite (Z.pow_add_r 2 (k - 1) j) by lia.
  rewrite Z.div_mul_cancel_r by lia.
  rewrite Zmult_mod_distr_r.
  assert (forall a b, (a * 2 ^ j <? b * 2 ^ j) = (a <? b)) as Hlt.
  { intros a b. destruct (Z.ltb_spec (a * 2 ^ j) (b * 2 ^ j)),
      (Z.ltb_spec a b); try reflexivity; nia. }
  rewrite !Hlt. reflexivity.
Qed.

(** ** Digits *)

Lemma digits_bounds (m : positive) :
  2 ^ (digits m - 1) <= Zpos m < 2 ^ digits m.
Proof.
  unfold digits. induction m as [m IH|m IH|]; cbn [digits2_pos].
  - rewrite Pos2Z.inj_succ, (Pos2Z.inj_xI m).
    replace (Z.succ (Zpos (digits2_pos m)) - 1)
      with (1 + (Zpos (digits2_pos m) - 1)) by lia.
    unfold Z.succ. rewrite (Z.add_comm _ 1), !Z.pow_add_r by lia.
    change (2 ^ 1) with 2. lia.
  - rewrite Pos2Z.inj_succ, (Pos2Z.inj_xO m).
    replace (Z.succ (Zpos (digits2_pos m)) - 1)
      with (1 + (Zpos (digits2_pos m) - 1)) by lia.
    unfold Z.succ. rewrite (Z.add_comm _ 1), !Z.pow_add_r by lia.
    change (2 ^ 1) with 2. lia.
  - cbn. lia.
Qed.

Lemma digits_pos (m : positive) : 0 < digits m.
Proof. unfold digits. lia. Qed.

Lemma pow2_le (a b : Z) : 0 <= a <= b -> 2 ^ a <= 2 ^ b.
Proof. intros H. apply Z.pow_le_mono_r; lia. Qed.

Lemma pow2_lt (a b : Z) : 0 <= a < b -> 2 ^ a < 2 ^ b.
Proof. intros H. apply Z.pow_lt_mono_r; lia. Qed.

Lemma pow2_split (a b : Z) : 0 <= b <= a -> 2 ^ a = 2 ^ (a - b) * 2 ^ b.
Proof. intros H. rewrite <- Z.pow_add_r by lia. f_equal. lia. Qed.

(** The number of digits is determined by the enclosing powers of two. *)
Lemma digits_unique (m : positive) (n : Z) :
  2 ^ (n - 1) <= Zpos m < 2 ^ n -> digits m = n.
Proof.
  intros H. pose proof (digits_bounds m) as B. pose proof (digits_pos m) as P.
  assert (0 < n) as Hn.
  { destruct (Z.ltb_spec 0 n) as [|Hn]; [assumption|exfalso].
    destruct (Z.eq_dec n 0) as [->|]; [cbn in H; lia|].
    rewrite (Z.pow_neg_r 2 n) in H by lia. lia. }
  destruct (Z.lt_trichotomy (digits m) n) as [L|[E|G]]; [|assumption|].
  - pose proof (pow2_le (digits m) (n - 1) ltac:(lia)). lia.
  - pose proof (pow2_le n (digits m - 1) ltac:(lia)). lia.
Qed.

Lemma digits_mono (m1 m2 : positive) :
  (m1 <= m2)%positive -> digits m1 <= digits m2.
Proof.
  intros H. pose proof (digits_bounds m1) as B1.
  pose proof (digits_bounds m2) as B2. pose proof (digits_pos m1).
  pose proof (digits_pos m2).
  destruct (Z.leb_spec (digits m1) (digits m2)) as [|G]; [assumption|].
  pose proof (pow2_le (digits m2) (digits m1 - 1) ltac:(lia)). lia.
Qed.

Lemma digits_shift (m : positive) (j : Z) (n : positive) :
  0 <= j -> Zpos n = Zpos m * 2 ^ j -> digits n = digits m + j.
Proof.
  intros Hj Hn. apply digits_unique. rewrite Hn.
  pose proof (digits_bounds m) as B. pose proof (digits_pos m) as P.
  replace (digits m + j - 1) with (digits m - 1 + j) by lia.
  rewrite !Z.pow_add_r by lia.
  pose proof (pow2_pos j Hj). nia.
Qed.

(** ** The format *)

Lemma fexp_eq (x : Z) : fexp prec emax x = Z.max (x - 53) (-1074).
Proof. reflexivity. Qed.

Lemma rne_lt_two53 (m : positive) (k : Z) :
  0 < k -> digits m - 53 <= k -> 0 <= rne (Zpos m) k <= two53.
Proof.
  intros Hk Hd. pose proof (digits_bounds m) as B.
  pose proof (digits_pos m) as P.
  split; [apply rne_nonneg; lia|].
  apply rne_le_grid; [assumption|].
  destruct (Z.leb_spec (digits m) 53) as [L|G].
  - pose proof (pow2_le (digits m) 53 ltac:(lia)).
    pose proof (pow2_pos k ltac:(lia)). unfold two53. nia.
  - pose proof (pow2_le (digits m) (53 + k) ltac:(lia)) as H.
    rewrite Z.pow_add_r in H by lia. unfold two53. lia.
Qed.

Lemma binary_round_aux_exact (sx : bool) (m : positive) (e : Z) :
  binary_round_aux prec emax sx (Zpos m) e loc_Exact = round_exact sx m e.
Proof.
  unfold binary_round_aux, round_exact, shr_fexp.
  cbn [Zdigits2 shr_record_of_loc]. fold (digits m).
  set (E := fexp prec emax (digits m + e)).
  assert (E = Z.max (digits m + e - 53) (-1074)) as HE by reflexivity.
  destruct (Z.leb_spec E e) as [Hle|Hgt].
  - (* no shift *)
    assert (shr {| shr_m := Zpos m; shr_r := false; shr_s := false |} e
              (E - e)
            = ({| shr_m := Zpos m; shr_r := false; shr_s := false |}, e))
      as -> by (unfold shr; destruct (E - e) eqn:K; try reflexivity; lia).
    cbn [shr_m loc_of_shr_record round_nearest_even Zdigits2
         shr_record_of_loc].
    fold (digits m). fold E.
    assert (shr {| shr_m := Zpos m; shr_r := false; shr_s := false |} e
              (E - e)
            = ({| shr_m := Zpos m; shr_r := false; shr_s := false |}, e))
      as -> by (unfold shr; destruct (E - e) eqn:K; try reflexivity; lia).
    reflexivity.
  - (* a shift by [E - e] *)
    destruct (E - e) as [|p|p] eqn:K; try lia.
    cbn [shr].
    destruct (shr_rne (Zpos m) p ltac:(lia)) as [_ Hr].
    rewrite Hr. replace (e + Zpos p) with E by lia.
    pose proof (rne_lt_two53 m (Zpos p) ltac:(lia) ltac:(lia)) as Hb.
    set (m1 := rne (Zpos m) (Zpos p)) in *.
    destruct (Z.eqb_spec m1 two53) as [E53|N53].
    + rewrite E53. 
      assert (fexp prec emax (Zdigits2 two53 + E) - E = 1) as ->
        by (rewrite fexp_eq; change (Zdigits2 two53) with 54; lia).
      cbn [shr shr_record_of_loc iter_pos]. 
      change (shr_m (shr_1 {| shr_m := two53; shr_r := false;
                              shr_s := false |}))
        with (2 ^ 52). reflexivity.
    + destruct m1 as [|q|q] eqn:M1; [| |lia].
      * assert (fexp prec emax (Zdigits2 0 + E) - E <= 0) as Hk
          by (rewrite fexp_eq; cbn [Zdigits2]; lia).
        unfold shr. destruct (fexp prec emax (Zdigits2 0 + E) - E); 
          try reflexivity; lia.
      * assert (digits q <= 53) as Hq.
        { destruct (Z.leb_spec (digits q) 53) as [|G]; [assumption|exfalso].
          pose proof (digits_bounds q) as Bq.
          pose proof (pow2_le 53 (digits q - 1) ltac:(lia)).
          unfold two53 in *. lia. }
        assert (fexp prec emax (Zdigits2 (Zpos q) + E) - E <= 0) as Hk
          by (rewrite fexp_eq; cbn [Zdigits2]; fold (digits q); lia).
        unfold shr. 
        destruct (fexp prec emax (Zdigits2 (Zpos q) + E) - E);
          try reflexivity; lia.
Qed.

(** ** Rounding a dyadic to a double *)

Lemma rn_pos_eq (c : Z) (p : positive) :
  rn c (Zpos p) =
  if Z.max (digits p + c - 53) (-1074) <=? c then Zpos p
  else rne (Zpos p) (Z.max (digits p + c - 53) (-1074) - c)
       * 2 ^ (Z.max (digits p + c - 53) (-1074) - c).
Proof. reflexivity. Qed.

Lemma rne_0 (k : Z) : 0 < k -> rne 0 k = 0.
Proof.
  intros Hk. apply Z.le_antisymm; [apply rne_le_grid|apply rne_ge_grid]; lia.
Qed.

Lemma rn_0 (c : Z) : rn c 0 = 0.
Proof.
  unfold rn.
  destruct (Z.leb_spec (fexp prec emax (Zdigits2 0 + c)) c); [reflexivity|].
  rewrite rne_0 by lia. reflexivity.
Qed.

Lemma Zpos_mul_pow2 (m : positive) (j : Z) :
  0 <= j -> exists n, Zpos n = Zpos m * 2 ^ j.
Proof.
  intros Hj. pose proof (pow2_pos j Hj) as P.
  exists (Z.to_pos (Zpos m * 2 ^ j)). rewrite Z2Pos.id; lia.
Qed.

Lemma rn_nonneg (c n : Z) : 0 <= n -> 0 <= rn c n.
Proof.
  intros Hn. unfold rn.
  destruct (Z.leb_spec (fexp prec emax (Zdigits2 n + c)) c); [assumption|].
  apply Z.mul_nonneg_nonneg.
  - apply rne_nonneg; lia.
  - apply Z.pow_nonneg. lia.
Qed.

(** The result of [binary_round_aux], before the overflow test, has the
    value [rn] gives. *)
Lemma round_exact_rn (sx : bool) (m : positive) (e c : Z) :
  c <= e ->
  exists M Ex,
    round_exact sx m e = fin_or_inf sx M Ex /\
    0 <= M /\ c <= Ex /\
    M * 2 ^ (Ex - c) = rn c (Zpos m * 2 ^ (e - c)).
Proof.
  intros Hc. destruct (Zpos_mul_pow2 m (e - c) ltac:(lia)) as [n Hn].
  rewrite <- Hn, rn_pos_eq.
  rewrite (digits_shift m (e - c) n ltac:(lia) Hn).
  replace (digits m + (e - c) + c) with (digits m + e) by lia.
  unfold round_exact. rewrite fexp_eq.
  set (E := Z.max (digits m + e - 53) (-1074)).
  destruct (Z.leb_spec E e) as [Hle|Hgt].
  - exists (Zpos m), e. split; [reflexivity|]. split; [lia|]. split; [lia|].
    destruct (Z.leb_spec E c) as [Hlc|Hgc]; [lia|].
    rewrite Hn, (pow2_split (e - c) (E - c)) by lia.
    replace (e - c - (E - c)) with (e - E) by lia.
    rewrite Z.mul_assoc, rne_exact by lia. reflexivity.
  - destruct (Z.leb_spec E c) as [Hlc|Hgc]; [lia|].
    assert (rne (Zpos n) (E - c) = rne (Zpos m) (E - e)) as Hr.
    { rewrite Hn. replace (E - c) with (E - e + (e - c)) by lia.
      apply rne_align; lia. }
    rewrite Hr.
    pose proof (rne_lt_two53 m (E - e) ltac:(lia) ltac:(lia)) as Hb.
    destruct (Z.eqb_spec (rne (Zpos m) (E - e)) two53) as [E53|N53].
    + exists (2 ^ 52), (E + 1). split; [reflexivity|]. split; [lia|].
      split; [lia|]. rewrite E53. unfold two53.
      replace (E + 1 - c) with (1 + (E - c)) by lia.
      rewrite (Z.pow_add_r 2 1 (E - c)) by lia.
      change (2 ^ 53) with (2 ^ 52 * 2 ^ 1). lia.
    + exists (rne (Zpos m) (E - e)), E. split; [reflexivity|].
      split; [lia|]. split; [lia|]. reflexivity.
Qed.

(** *** Monotonicity *)

Lemma Zdigits2_pos_eq (p : positive) : Zdigits2 (Zpos p) = digits p.
Proof. reflexivity. Qed.

Lemma rn_mono_pos (c : Z) (p1 p2 : positive) :
  (p1 <= p2)%positive -> rn c (Zpos p1) <= rn c (Zpos p2).
Proof.
  intros Hle. rewrite !rn_pos_eq.
  pose proof (digits_mono p1 p2 Hle) as Hd.
  pose proof (digits_bounds p1) as B1. pose proof (digits_bounds p2) as B2.
  pose proof (digits_pos p1) as D1. pose proof (digits_pos p2) as D2.
  set (E1 := Z.max (digits p1 + c - 53) (-1074)).
  set (E2 := Z.max (digits p2 + c - 53) (-1074)).
  assert (E1 <= E2) as HE by lia.
  destruct (Z.leb_spec E2 c) as [H2|H2].
  - destruct (Z.leb_spec E1 c); lia.
  - destruct (Z.eq_dec E1 E2) as [Heq|Hne].
    + destruct (Z.leb_spec E1 c); [lia|]. rewrite Heq.
      apply Z.mul_le_mono_nonneg_r; [apply Z.pow_nonneg; lia|].
      apply rne_mono; lia.
    + (* the grids differ: 2^(digits p2 - 1) lies on both *)
      assert (E2 = digits p2 + c - 53) as HE2 by lia.
      assert (digits p1 < digits p2) as Hlt by lia.
      pose proof (pow2_le (digits p1) (digits p2 - 1) ltac:(lia)) as HB.
      set (B := 2 ^ (digits p2 - 1)) in *.
      assert (B = 2 ^ (digits p2 - 1 - (E2 - c)) * 2 ^ (E2 - c)) as HB2
        by (apply pow2_split; lia).
      assert (B <= rne (Zpos p2) (E2 - c) * 2 ^ (E2 - c)) as Hhi.
      { rewrite HB2 at 1.
        apply Z.mul_le_mono_nonneg_r; [apply Z.pow_nonneg; lia|].
        apply rne_ge_grid; lia. }
      destruct (Z.leb_spec E1 c) as [H1|H1]; [lia|].
      assert (B = 2 ^ (digits p2 - 1 - (E1 - c)) * 2 ^ (E1 - c)) as HB1
        by (apply pow2_split; lia).
      assert (rne (Zpos p1) (E1 - c) * 2 ^ (E1 - c) <= B) as Hlo.
      { rewrite HB1.
        apply Z.mul_le_mono_nonneg_r; [apply Z.pow_nonneg; lia|].
        apply rne_le_grid; lia. }
      lia.
Qed.

Lemma rn_mono (c n1 n2 : Z) : 0 <= n1 <= n2 -> rn c n1 <= rn c n2.
Proof.
  intros [H0 Hle].
  destruct n1 as [|p1|p1]; [|destruct n2 as [|p2|p2]|]; try lia.
  - rewrite rn_0. apply rn_nonneg. lia.
  - apply rn_mono_pos. lia.
Qed.

Lemma rn_align (c c' : Z) (p : positive) :
  c' <= c ->
  rn c' (Zpos p * 2 ^ (c - c')) = rn c (Zpos p) * 2 ^ (c - c').
Proof.
  intros Hc. destruct (Zpos_mul_pow2 p (c - c') ltac:(lia)) as [n Hn].
  rewrite <- Hn, !rn_pos_eq.
  rewrite (digits_shift p (c - c') n ltac:(lia) Hn).
  replace (digits p + (c - c') + c') with (digits p + c) by lia.
  set (E := Z.max (digits p + c - 53) (-1074)).
  destruct (Z.leb_spec E c') as [H1|H1], (Z.leb_spec E c) as [H2|H2];
    try lia.
  - rewrite Hn, (pow2_split (c - c') (E - c')) by lia.
    replace (c - c' - (E - c')) with (c - E) by lia.
    rewrite Z.mul_assoc, rne_exact by lia. reflexivity.
  - rewrite Hn. replace (E - c') with (E - c + (c - c')) by lia.
    rewrite rne_align by lia.
    rewrite (Z.pow_add_r 2 (E - c) (c - c')) by lia. lia.
Qed.

(** ** The cast of a rounded result *)

Lemma shiftl_scaled (M Ex c : Z) :
  0 <= M -> c <= Ex -> c <= 0 ->
  Z.shiftl M Ex = M * 2 ^ (Ex - c) / 2 ^ (- c).
Proof.
  intros HM Hc H0. pose proof (pow2_pos (- c) ltac:(lia)) as Pc.
  destruct (Z.leb_spec 0 Ex) as [He|He].
  - rewrite Z.shiftl_mul_pow2 by lia.
    replace (Ex - c) with (Ex + - c) by lia.
    rewrite Z.pow_add_r, Z.mul_assoc, Z.div_mul by lia. reflexivity.
  - rewrite Z.shiftl_div_pow2 by lia.
    rewrite (pow2_split (- c) (Ex - c)) by lia.
    replace (- c - (Ex - c)) with (- Ex) by lia.
    pose proof (pow2_pos (Ex - c) ltac:(lia)).
    pose proof (pow2_pos (- Ex) ltac:(lia)).
    rewrite Z.div_mul_cancel_r by lia. reflexivity.
Qed.

Lemma to_int64_fin_or_inf (M Ex c : Z) :
  0 <= M -> c <= Ex -> c <= 0 ->
  to_int64 (fin_or_inf false M Ex)
  = if M * 2 ^ (Ex - c) / 2 ^ (- c) <? two63
    then Some (M * 2 ^ (Ex - c) / 2 ^ (- c)) else None.
Proof.
  intros HM Hc H0. rewrite <- (shiftl_scaled M Ex c) by assumption.
  destruct M as [|q|q]; [| |lia].
  - rewrite Z.shiftl_0_l. reflexivity.
  - cbn [fin_or_inf]. change (emax - prec) with 971.
    assert (0 < Z.shiftl (Zpos q) Ex \/ Z.shiftl (Zpos q) Ex = 0) as Hs.
    { pose proof (Z.shiftl_nonneg (Zpos q) Ex). lia. }
    destruct (Z.leb_spec Ex 971) as [Hf|Hi].
    + unfold to_int64. cbn [trunc_double cond_Zopp].
      destruct (Z.leb_spec (- two63) (Z.shiftl (Zpos q) Ex)) as [|L];
        [reflexivity|].
      unfold two63 in L. lia.
    + unfold to_int64. cbn [trunc_double].
      rewrite Z.shiftl_mul_pow2 by lia.
      pose proof (pow2_le 63 Ex ltac:(lia)) as Hp. fold two63 in Hp.
      destruct (Z.ltb_spec (Zpos q * 2 ^ Ex) two63); [nia|reflexivity].
Qed.

(** ** [(double)i] *)

Lemma Pos_iter_xO (m d : positive) :
  Zpos (Pos.iter xO m d) = Zpos m * 2 ^ Zpos d.
Proof.
  revert m. induction d as [|d IH] using Pos.peano_ind; intros m.
  - cbn [Pos.iter]. lia.
  - rewrite Pos.iter_succ, Pos2Z.inj_xO, IH, Pos2Z.inj_succ.
    unfold Z.succ. rewrite Z.pow_add_r by lia. lia.
Qed.

Lemma rn_0_two64 : rn 0 two64 = two64.
Proof. reflexivity. Qed.

Lemma of_int64_pos (p : positive) :
  Zpos p <= two64 ->
  exists mx ex,
    of_int64 (Zpos p) = S754_finite false mx ex /\
    -52 <= ex /\
    Zpos mx * 2 ^ (ex + 52) = rn 0 (Zpos p) * 2 ^ 52.
Proof.
  intros Hp. unfold of_int64, binary_normalize, binary_round.
  fold (digits p). rewrite fexp_eq.
  pose proof (digits_pos p) as Dp. pose proof (digits_bounds p) as Bp.
  assert (exists mz ez,
            shl_align p 0 (Z.max (digits p + 0 - 53) (-1074)) = (mz, ez) /\
            -52 <= ez /\ Zpos mz * 2 ^ (ez + 52) = Zpos p * 2 ^ 52)
    as (mz & ez & -> & Hez & Hmz).
  { unfold shl_align.
    destruct (Z.max (digits p + 0 - 53) (-1074) - 0) as [|d|d] eqn:K.
    - exists p, 0. repeat split; lia.
    - exists p, 0. repeat split; lia.
    - eexists. eexists. split; [reflexivity|]. split; [lia|].
      rewrite Pos_iter_xO, <- Z.mul_assoc, <- Z.pow_add_r by lia.
      f_equal. f_equal. lia. }
  rewrite binary_round_aux_exact.
  destruct (round_exact_rn false mz ez (-52) Hez)
    as (M & Ex & -> & HM & HEx & HV).
  replace (ez - -52) with (ez + 52) in HV by lia.
  replace (Ex - -52) with (Ex + 52) in HV by lia.
  rewrite Hmz in HV.
  pose proof (rn_align 0 (-52) p ltac:(lia)) as HA.
  replace (0 - -52) with 52 in HA by lia. rewrite HA in HV.
  pose proof (rn_mono 0 (Zpos p) two64 ltac:(lia)) as Hub.
  rewrite rn_0_two64 in Hub.
  pose proof (rn_mono 0 1 (Zpos p) ltac:(lia)) as Hlb.
  change (rn 0 1) with 1 in Hlb.
  pose proof (pow2_pos (Ex + 52) ltac:(lia)) as PE.
  destruct M as [|q|q]; [nia| |lia].
  assert (Ex <= 64) as HE64.
  { destruct (Z.leb_spec Ex 64) as [|G]; [assumption|exfalso].
    pose proof (pow2_le (65 + 52) (Ex + 52) ltac:(lia)) as HP.
    change (2 ^ (65 + 52)) with (2 * two64 * 2 ^ 52) in HP.
    unfold two64 in *. nia. }
  exists q, Ex. cbn [fin_or_inf]. change (emax - prec) with 971.
  destruct (Z.leb_spec Ex 971); [|lia].
  repeat split; assumption.
Qed.

(** ** The scaled tick count *)

Lemma fmul_pos (mx ms : positive) (ex es : Z) :
  fmul (S754_finite false mx ex) (S754_finite false ms es)
  = round_exact false (mx * ms) (ex + es).
Proof. unfold fmul. cbn [SFmul xorb]. apply binary_round_aux_exact. Qed.

Lemma scaled_spec (ms : positive) (es a : Z) :
  0 <= a < two63 ->
  scaled (S754_finite false ms es) a
  = if scaled_value ms es a <? two63 then Some (scaled_value ms es a)
    else None.
Proof.
  intros Ha. unfold scaled, scaled_value, scaled_units.
  rewrite signed64_small by assumption.
  assert (unit_exp es <= 0 /\ unit_exp es <= es - 52) as [Hc0 Hce]
    by (unfold unit_exp; lia).
  set (c := unit_exp es) in *.
  destruct a as [|p|p]; [| |lia].
  - change (of_int64 0) with (S754_zero false).
    rewrite (rn_0 0). cbn [Z.mul]. rewrite rn_0.
    rewrite Z.div_0_l by (apply Z.pow_nonzero; lia). reflexivity.
  - destruct (of_int64_pos p) as (mx & ex & -> & Hex & Hv).
    { unfold two64, two63 in *. lia. }
    rewrite fmul_pos.
    destruct (round_exact_rn false (mx * ms) (ex + es) c ltac:(lia))
      as (M & Ex & -> & HM & HEx & HV).
    rewrite (to_int64_fin_or_inf M Ex c) by lia.
    assert (Zpos (mx * ms) * 2 ^ (ex + es - c)
            = rn 0 (Zpos p) * Zpos ms * 2 ^ (es - c)) as Hn.
    { rewrite Pos2Z.inj_mul.
      replace (ex + es - c) with (ex + 52 + (es - 52 - c)) by lia.
      rewrite Z.pow_add_r by lia.
      replace (es - c) with (52 + (es - 52 - c)) by lia.
      rewrite (Z.pow_add_r 2 52) by lia. nia. }
    rewrite <- Hn, <- HV. reflexivity.
Qed.

Lemma scaled_units_mono (ms : positive) (es c a b : Z) :
  c <= es -> 0 <= a <= b ->
  0 <= scaled_units ms es c a <= scaled_units ms es c b.
Proof.
  intros Hc Hab. unfold scaled_units.
  pose proof (rn_mono 0 a b Hab) as H1.
  pose proof (rn_nonneg 0 a ltac:(lia)) as H0.
  pose proof (pow2_pos (es - c) ltac:(lia)) as P.
  split.
  - apply rn_nonneg. apply Z.mul_nonneg_nonneg; [|lia]. 
    apply Z.mul_nonneg_nonneg; lia.
  - apply rn_mono. split.
    + apply Z.mul_nonneg_nonneg; [|lia]. apply Z.mul_nonneg_nonneg; lia.
    + apply Z.mul_le_mono_nonneg_r; [lia|].
      apply Z.mul_le_mono_nonneg_r; lia.
Qed.

Lemma scaled_value_mono (ms : positive) (es a b : Z) :
  0 <= a <= b -> 0 <= scaled_value ms es a <= scaled_value ms es b.
Proof.
  intros Hab. unfold scaled_value.
  assert (unit_exp es <= 0 /\ unit_exp es <= es) as [Hc0 Hce]
    by (unfold unit_exp; lia).
  pose proof (scaled_units_mono ms es (unit_exp es) a b Hce Hab) as H.
  pose proof (pow2_pos (- unit_exp es) ltac:(lia)) as P.
  split; [apply Z.div_pos; lia|apply Z.div_le_mono; lia].
Qed.

(** For a positive finite scale the scaled tick count is monotone, and
    defined below any tick count for which it is defined. *)
Lemma scaled_mono (ms : positive) (es a b xb : Z) :
  0 <= a <= b -> b < two63 ->
  scaled (S754_finite false ms es) b = Some xb ->
  exists xa, scaled (S754_finite false ms es) a = Some xa /\ 0 <= xa <= xb.
Proof.
  intros Hab Hb. rewrite !scaled_spec by lia.
  pose proof (scaled_value_mono ms es a b Hab) as Hm.
  destruct (Z.ltb_spec (scaled_value ms es b) two63) as [Lb|Lb];
    [|discriminate].
  intros E. inversion E; subst xb; clear E.
  exists (scaled_value ms es a).
  destruct (Z.ltb_spec (scaled_value ms es a) two63) as [La|La]; [|lia].
  split; [reflexivity|lia].
Qed.

(** ** Rounding error *)

Lemma digits_le (p : positive) (n : Z) : Zpos p < 2 ^ n -> digits p <= n.
Proof.
  intros H. pose proof (digits_bounds p) as B. pose proof (digits_pos p).
  destruct (Z.leb_spec (digits p) n) as [|G]; [assumption|exfalso].
  destruct (Z.leb_spec 0 n) as [Hn|Hn].
  - pose proof (pow2_le n (digits p - 1) ltac:(lia)). lia.
  - rewrite Z.pow_neg_r in H by lia. lia.
Qed.

(** Integers below 2^53 are doubles. *)
Lemma rn_small (a : Z) : 0 <= a < two53 -> rn 0 a = a.
Proof.
  intros Ha. destruct a as [|p|p]; [reflexivity| |lia].
  rewrite rn_pos_eq. pose proof (digits_le p 53 (proj2 Ha)).
  destruct (Z.leb_spec (Z.max (digits p + 0 - 53) (-1074)) 0);
    [reflexivity|lia].
Qed.

(** Below 2^53 a double is within half a unit of what it rounds. *)
Lemma rn_err (c n : Z) :
  c <= 0 -> 0 <= n < two53 * 2 ^ (- c) ->
  2 * Z.abs (rn c n - n) <= 2 ^ (- c).
Proof.
  intros Hc Hn. pose proof (pow2_pos (- c) ltac:(lia)) as Pc.
  destruct n as [|p|p]; [rewrite rn_0; cbn; lia| |lia].
  rewrite rn_pos_eq.
  assert (digits p <= 53 - c) as Hd.
  { apply digits_le. replace (53 - c) with (53 + - c) by lia.
    rewrite Z.pow_add_r by lia. exact (proj2 Hn). }
  set (E := Z.max (digits p + c - 53) (-1074)).
  destruct (Z.leb_spec E c) as [H|H].
  - rewrite Z.sub_diag. cbn. lia.
  - pose proof (rne_err (E - c) (Zpos p) ltac:(lia)) as He.
    pose proof (pow2_le (E - c) (- c) ltac:(lia)) as Hle.
    replace (2 ^ (E - c)) with (2 * 2 ^ (E - c - 1)) in *
      by (rewrite (pow2_split (E - c) (E - c - 1)) by lia;
          replace (E - c - (E - c - 1)) with 1 by lia; lia).
    lia.
Qed.

Lemma rn_two53 (c : Z) : c <= 0 -> rn c (two53 * 2 ^ (- c)) = two53 * 2 ^ (- c).
Proof.
  intros Hc.
  pose proof (rn_align 0 c (Z.to_pos two53) Hc) as H.
  replace (0 - c) with (- c) in H by lia.
  change (Zpos (Z.to_pos two53)) with two53 in H. rewrite H.
  f_equal.
Qed.

Lemma scaled_value_err (ms : positive) (es a : Z) :
  0 <= a < two53 -> scaled_value ms es a < two53 ->
  - 3 * 2 ^ (- unit_exp es)
  < 2 * (scaled_value ms es a * 2 ^ (- unit_exp es) - exact_units ms es a)
  <= 2 ^ (- unit_exp es).
Proof.
  intros Ha Hx. unfold scaled_value, scaled_units in *.
  rewrite rn_small in * by assumption. fold (exact_units ms es a) in *.
  assert (unit_exp es <= 0 /\ unit_exp es <= es) as [Hc0 Hce]
    by (unfold unit_exp; lia).
  set (c := unit_exp es) in *. set (U := 2 ^ (- c)) in *.
  assert (0 < U) as PU by (apply pow2_pos; lia).
  assert (0 <= exact_units ms es a) as Hn.
  { unfold exact_units. fold c. pose proof (pow2_pos (es - c) ltac:(lia)).
    apply Z.mul_nonneg_nonneg; [|lia]. apply Z.mul_nonneg_nonneg; lia. }
  assert (exact_units ms es a < two53 * U) as Hlt.
  { destruct (Z.ltb_spec (exact_units ms es a) (two53 * U)) as [|G];
      [assumption|exfalso].
    pose proof (rn_mono c (two53 * U) (exact_units ms es a)) as Hm.
    unfold U in Hm at 2. rewrite rn_two53 in Hm by lia.
    fold U in Hm.
    assert (0 <= two53 * U) by (unfold two53; lia).
    specialize (Hm ltac:(lia)).
    pose proof (Z.div_le_mono _ _ U PU Hm) as Hd.
    rewrite Z.div_mul in Hd by lia. lia. }
  pose proof (rn_err c (exact_units ms es a) Hc0 ltac:(fold U; lia)) as He.
  fold U in He.
  pose proof (Z.div_mod (rn c (exact_units ms es a)) U ltac:(lia)) as Hdm.
  pose proof (Z.mod_pos_bound (rn c (exact_units ms es a)) U PU) as Hb.
  lia.
Qed.

(** ** Linearity of the scaled tick count *)

(** The distance between an integer and a rational. *)
Lemma Qabs_lt_2 (D num : Z) (den : positive) :
  Z.abs (D * Zpos den - num) < 2 * Zpos den ->
  (Qabs (inject_Z D - (num # den)) < 2)%Q.
Proof.
  intros H. apply Qabs_Qlt_condition.
  unfold Qlt, Qminus, Qplus, Qopp, inject_Z. cbn [Qnum Qden].
  split; lia.
Qed.

Lemma scaled_linear (ms : positive) (es a b xb : Z) :
  0 <= a <= b -> b < two53 ->
  scaled (S754_finite false ms es) b = Some xb -> xb < two53 ->
  exists xa,
    scaled (S754_finite false ms es) a = Some xa /\
    0 <= xa <= xb /\
    (Qabs (inject_Z (xb - xa)
           - inject_Z (b - a) * SF2Q (S754_finite false ms es)) < 2)%Q.
Proof.
  intros Hab Hb Hsb Hxb.
  assert (two53 < two63) as H5363 by reflexivity.
  destruct (scaled_mono ms es a b xb Hab ltac:(lia) Hsb) as (xa & Hsa & Hxa).
  exists xa. split; [assumption|]. split; [assumption|].
  rewrite scaled_spec in Hsa, Hsb by lia.
  destruct (scaled_value ms es a <? two63); [|discriminate].
  destruct (scaled_value ms es b <? two63); [|discriminate].
  inversion Hsa as [Ea]. inversion Hsb as [Eb]. clear Hsa Hsb.
  pose proof (scaled_value_err ms es a ltac:(lia) ltac:(lia)) as Ha.
  pose proof (scaled_value_err ms es b ltac:(lia) ltac:(lia)) as Hbb.
  rewrite Ea, Eb in *. unfold exact_units, unit_exp in Ha, Hbb.
  set (c := Z.min 0 (es - 52)) in *.
  assert (0 < 2 ^ (- c)) as PU by (apply pow2_pos; unfold c; lia).
  cbn [SF2Q cond_Zopp].
  destruct (Z.leb_spec 0 es) as [He|He].
  - (* an integer scale *)
    assert (inject_Z (b - a) * inject_Z (Zpos ms * 2 ^ es)
            == ((b - a) * (Zpos ms * 2 ^ es)) # 1)%Q as ->
      by (unfold Qeq, Qmult, inject_Z; cbn [Qnum Qden]; lia).
    apply Qabs_lt_2.
    replace (es - c) with (es + - c) in * by lia.
    rewrite Z.pow_add_r in * by lia.
    set (U := 2 ^ (- c)) in *. set (S := 2 ^ es) in *.
    assert (Z.abs ((xb - xa) * U - (b - a) * Zpos ms * S * U) < 2 * U)
      as HU by lia.
    replace ((xb - xa) * U - (b - a) * Zpos ms * S * U)
      with (((xb - xa) * 1 - (b - a) * (Zpos ms * S)) * U) in HU by lia.
    rewrite Z.abs_mul, (Z.abs_eq U) in HU by lia. nia.
  - (* a fractional scale *)
    assert (0 < 2 ^ (- es)) as PE by (apply pow2_pos; lia).
    assert (inject_Z (b - a) * (Zpos ms # Z.to_pos (2 ^ (- es)))
            == ((b - a) * Zpos ms) # Z.to_pos (2 ^ (- es)))%Q as ->
      by (unfold Qeq, Qmult, inject_Z; cbn [Qnum Qden]; lia).
    apply Qabs_lt_2. rewrite Z2Pos.id by lia.
    assert (c = es - 52) as Hc by (unfold c; lia).
    replace (es - c) with 52 in * by lia.
    replace (- c) with (- es + 52) in * by lia.
    rewrite Z.pow_add_r in * by lia.
    set (V := 2 ^ (- es)) in *. set (W := 2 ^ 52) in *.
    assert (0 < W) by reflexivity.
    assert (Z.abs ((xb - xa) * (V * W) - (b - a) * Zpos ms * W) < 2 * (V * W))
      as HU by lia.
    replace ((xb - xa) * (V * W) - (b - a) * Zpos ms * W)
      with (((xb - xa) * V - (b - a) * Zpos ms) * W) in HU by lia.
    rewrite Z.abs_mul, (Z.abs_eq W) in HU by lia. nia.
Qed.

(** ** Successive probes of an increasing counter *)

Lemma tsc_at_increasing (w : World) (n i j : nat) :
  counter_increasing w n -> (i < j < n)%nat ->
  0 <= tsc_at w i < tsc_at w j /\ tsc_at w j < two62.
Proof.
  intros H Hij. destruct (H i j Hij) as [[H0 H1] H2].
  unfold tsc_at. rewrite !wrap64_small; [lia| |];
    unfold is_u64, two64, two62 in *; lia.
Qed.

Lemma tsc_at_skip (w : World) (i j k : nat) :
  tsc_at (skip w i j) k = tsc_at w (i + k).
Proof. unfold tsc_at, skip. cbn. f_equal. f_equal. lia. Qed.

Lemma after_probe_eq (w : World) : after_probe w = skip w (S N) N.
Proof. unfold after_probe. now rewrite syncTime_eq. Qed.

Lemma probe_tsc_eq (w : World) :
  probe_tsc w
  = wrap64 (tsc_at w (best_round w) + tsc_at w (best_round w - 1)) / 2.
Proof.
  unfold probe_tsc. rewrite syncTime_eq. cbn [fst].
  now rewrite Z.shiftr_div_pow2 by lia.
Qed.

(** With an increasing counter a probe lies between its first and its last
    reading. *)
Lemma probe_tsc_between (w : World) :
  counter_increasing w (S N) ->
  tsc_at w 0 <= probe_tsc w <= tsc_at w N.
Proof.
  intros H. rewrite probe_tsc_eq.
  pose proof (best_round_is_best w) as ((Hb1 & Hb2) & _).
  set (b := best_round w) in *.
  assert (0 <= tsc_at w (b - 1) < tsc_at w b /\ tsc_at w b < two62) as Hm
    by (apply (tsc_at_increasing w (S N)); [assumption|unfold N in *; lia]).
  assert (tsc_at w 0 <= tsc_at w (b - 1)) as Hlo.
  { destruct (Nat.eq_dec (b - 1) 0) as [->|Hne]; [lia|].
    pose proof (tsc_at_increasing w (S N) 0 (b - 1) H
                  ltac:(unfold N in *; lia)). lia. }
  assert (tsc_at w b <= tsc_at w N) as Hhi.
  { destruct (Nat.eq_dec b N) as [->|Hne]; [lia|].
    pose proof (tsc_at_increasing w (S N) b N H
                  ltac:(unfold N in *; lia)). lia. }
  rewrite wrap64_small by (unfold is_u64, two64, two62 in *; lia).
  split.
  - apply Z.div_le_lower_bound; lia.
  - apply Z.div_le_upper_bound; lia.
Qed.

Lemma counter_increasing_skip (w : World) (n i j : nat) :
  counter_increasing w (i + n) -> counter_increasing (skip w i j) n.
Proof.
  intros H a b Hab. unfold skip. cbn [tsc_src tsc_pos].
  rewrite <- !Nat.add_assoc. apply H. lia.
Qed.

Lemma counter_increasing_le (w : World) (n m : nat) :
  (m <= n)%nat -> counter_increasing w n -> counter_increasing w m.
Proof. intros Hle H i j Hij. apply H. lia. Qed.

(** Two successive probes of an increasing counter. *)
Lemma probes_increasing (w : World) :
  counter_increasing w (2 * S N) ->
  0 <= probe_tsc w < probe_tsc (after_probe w) /\
  probe_tsc (after_probe w) < two62.
Proof.
  intros H.
  pose proof (probe_tsc_between w
                (counter_increasing_le w (2 * S N) (S N) ltac:(lia) H)) as H1.
  rewrite after_probe_eq.
  pose proof (probe_tsc_between (skip w (S N) N)
                (counter_increasing_skip w (S N) (S N) N
                   ltac:(replace (S N + S N)%nat with (2 * S N)%nat by lia;
                         exact H))) as H2.
  rewrite !tsc_at_skip in H2.
  pose proof (tsc_at_increasing w (2 * S N) N (S N + 0) H
                ltac:(unfold N; lia)) as H3.
  pose proof (tsc_at_increasing w (2 * S N) (S N + 0) (S N + N) H
                ltac:(unfold N; lia)) as H4.
  pose proof (tsc_at_range w 0) as H5. unfold is_u64 in H5.
  destruct (Nat.eq_dec N 0) as [E|_]; [discriminate E|].
  lia.
Qed.

Lemma Some_pair_inj {A B : Type} (a a' : A) (b b' : B) :
  Some (a, b) = Some (a', b') -> a = a' /\ b = b'.
Proof. intros H. injection H as -> ->. now split. Qed.

Lemma init_base (g : double) (w w1 : World) (t t1 : TSCNS) :
  init g w t = Some (t1, w1) ->
  base_tsc t1 = probe_tsc w /\ base_ns t1 = probe_ns w /\
  w1 = after_probe w.
Proof.
  unfold init. rewrite syncTime_probe.
  destruct (fleb g d_zero).
  - intros E. destruct (Some_pair_inj _ _ _ _ E) as [<- <-].
    cbn [set_base base_tsc base_ns]. repeat split; reflexivity.
  - unfold adjustOffset. cbn [tsc_ghz_inv set_inv set_base base_tsc base_ns].
    destruct (scaled _ _); [|discriminate].
    intros E. destruct (Some_pair_inj _ _ _ _ E) as [<- <-].
    cbn [base_tsc base_ns]. repeat split; reflexivity.
Qed.

(** [(double)i] is a finite non-zero double for [i] positive. *)
Lemma of_int64_positive (z : Z) :
  0 < z <= two64 -> exists m e, of_int64 z = S754_finite false m e.
Proof.
  intros Hz. destruct z as [|p|p]; try lia.
  destruct (of_int64_pos p ltac:(lia)) as (m & e & H & _).
  now exists m, e.
Qed.

(** ** Division *)

Lemma shr_1_m (mrs : shr_record) :
  0 <= shr_m mrs -> shr_m (shr_1 mrs) = shr_m mrs / 2.
Proof.
  destruct mrs as [m r s]. cbn [shr_m]. intros Hm.
  rewrite shr_1_nonneg by assumption. reflexivity.
Qed.

Lemma shr_m_iter (mrs : shr_record) (j : nat) :
  0 <= shr_m mrs ->
  shr_m (Nat.iter j shr_1 mrs) = shr_m mrs / 2 ^ Z.of_nat j.
Proof.
  intros Hm. induction j as [|j IH].
  - cbn [Nat.iter]. change (2 ^ Z.of_nat 0) with 1. now rewrite Z.div_1_r.
  - rewrite Nat.iter_succ.
    assert (0 < 2 ^ Z.of_nat j) as Hp by (apply pow2_pos; lia).
    rewrite shr_1_m by (rewrite IH; apply Z.div_pos; lia).
    rewrite IH, Z.div_div by lia.
    replace (Z.of_nat (S j)) with (Z.of_nat j + 1) by lia.
    rewrite Z.pow_add_r by lia. reflexivity.
Qed.

Lemma shr_m_shift (mrs : shr_record) (p : positive) :
  0 <= shr_m mrs ->
  shr_m (iter_pos shr_1 p mrs) = shr_m mrs / 2 ^ Zpos p.
Proof.
  intros Hm. rewrite iter_pos_nat, shr_m_iter by assumption.
  now rewrite positive_nat_Z.
Qed.

Lemma round_nearest_even_bounds (m : Z) (l : location) :
  m <= round_nearest_even m l <= m + 1.
Proof.
  destruct l as [|[| |]]; cbn [round_nearest_even]; try lia.
  destruct (Z.even m); lia.
Qed.

Lemma shr_m_record_of_loc (m : Z) (l : location) :
  shr_m (shr_record_of_loc m l) = m.
Proof. destruct l as [|[| |]]; reflexivity. Qed.

Lemma Zdigits2_le (n e : Z) :
  0 <= n -> 0 <= e -> n <= 2 ^ e -> Zdigits2 n <= e + 1.
Proof.
  intros Hn He Hle. destruct n as [|p|p]; [cbn; lia| |lia].
  change (Zdigits2 (Zpos p)) with (digits p).
  apply digits_le. rewrite Z.pow_add_r by lia. pose proof (pow2_pos e He). lia.
Qed.

(** A quotient that does not exceed one rounds to a double that does not
    exceed one.  [q] is the integer part of the quotient in units of
    [2^e], [l] where the quotient lies above [q]. *)
Lemma binary_round_aux_le_one (q e : Z) (l : location) :
  0 <= q -> e <= 0 ->
  q < 2 ^ (- e) \/ (l = loc_Exact /\ q = 2 ^ (- e)) ->
  binary_round_aux prec emax false q e l = S754_zero false \/
  exists m e',
    binary_round_aux prec emax false q e l = S754_finite false m e' /\
    e' <= 0 /\ Zpos m <= 2 ^ (- e').
Proof.
  intros Hq He Hle.
  (* first pass: the rounded mantissa [m1] at exponent [e1] *)
  assert (exists m1 e1,
            (let '(mrs, e1') := shr_fexp prec emax q e l in
             (round_nearest_even (shr_m mrs) (loc_of_shr_record mrs), e1'))
            = (m1, e1) /\
            0 <= m1 <= 2 ^ (- e1) /\ e1 <= 0) as (m1 & e1 & H1 & Hm1 & He1).
  { unfold shr_fexp. rewrite fexp_eq.
    assert (Zdigits2 q <= - e + 1) as Hd
      by (apply Zdigits2_le; [lia|lia|destruct Hle as [|[_ ->]]; lia]).
    set (E := Z.max (Zdigits2 q + e - 53) (-1074)) in *.
    pose proof (pow2_pos (- e) ltac:(lia)) as Pe.
    destruct (E - e) as [|p|p] eqn:K.
    - (* no shift *)
      cbn [shr]. eexists. eexists. split; [reflexivity|].
      rewrite shr_m_record_of_loc.
      destruct Hle as [Hlt|[-> ->]].
      + pose proof (round_nearest_even_bounds q
                      (loc_of_shr_record (shr_record_of_loc q l))). lia.
      + cbn [shr_record_of_loc loc_of_shr_record round_nearest_even]. lia.
    - (* a shift by [p] *)
      cbn [shr]. eexists. eexists. split; [reflexivity|].
      assert (e + Zpos p = E) as -> by lia.
      assert (E <= 0) as HE0 by lia.
      pose proof (pow2_pos (- E) ltac:(lia)) as PE.
      pose proof (pow2_pos (Zpos p) ltac:(lia)) as Pp.
      assert (2 ^ (- e) = 2 ^ (- E) * 2 ^ Zpos p) as Hsplit.
      { rewrite <- Z.pow_add_r by lia. f_equal. lia. }
      split; [|assumption].
      destruct Hle as [Hlt|[-> Heq]].
      + rewrite shr_m_shift by (rewrite shr_m_record_of_loc; assumption).
        rewrite shr_m_record_of_loc.
        pose proof (round_nearest_even_bounds (q / 2 ^ Zpos p)
                      (loc_of_shr_record
                         (iter_pos shr_1 p (shr_record_of_loc q l)))) as Hb.
        assert (0 <= q / 2 ^ Zpos p < 2 ^ (- E)).
        { split; [apply Z.div_pos; lia|].
          apply Z.div_lt_upper_bound; lia. }
        lia.
      + cbn [shr_record_of_loc].
        destruct (shr_rne q p Hq) as [_ ->].
        rewrite Heq, Hsplit, rne_exact by lia. lia.
    - cbn [shr]. eexists. eexists. split; [reflexivity|].
      rewrite shr_m_record_of_loc.
      destruct Hle as [Hlt|[-> ->]].
      + pose proof (round_nearest_even_bounds q
                      (loc_of_shr_record (shr_record_of_loc q l))). lia.
      + cbn [shr_record_of_loc loc_of_shr_record round_nearest_even]. lia. }
  unfold binary_round_aux.
  destruct (shr_fexp prec emax q e l) as [mrs e1'].
  injection H1 as -> ->.
  (* second pass *)
  unfold shr_fexp. cbn [shr_record_of_loc]. rewrite fexp_eq.
  assert (Zdigits2 m1 <= - e1 + 1) as Hd by (apply Zdigits2_le; lia).
  set (E := Z.max (Zdigits2 m1 + e1 - 53) (-1074)) in *.
  pose proof (pow2_pos (- e1) ltac:(lia)) as Pe.
  assert (exists m2 e2,
            shr {| shr_m := m1; shr_r := false; shr_s := false |} e1 (E - e1)
            = (m2, e2) /\ 0 <= shr_m m2 <= 2 ^ (- e2) /\ e2 <= 0)
    as (m2 & e2 & -> & Hm2 & He2).
  { destruct (E - e1) as [|p|p] eqn:K; cbn [shr].
    - eexists. eexists. split; [reflexivity|]. cbn [shr_m]. lia.
    - eexists. eexists. split; [reflexivity|].
      rewrite shr_m_shift by (cbn [shr_m]; lia). cbn [shr_m].
      assert (e1 + Zpos p = E) as -> by lia.
      assert (E <= 0) as HE0 by lia.
      pose proof (pow2_pos (- E) ltac:(lia)) as PE.
      pose proof (pow2_pos (Zpos p) ltac:(lia)) as Pp.
      assert (2 ^ (- e1) = 2 ^ (- E) * 2 ^ Zpos p) as Hsplit.
      { rewrite <- Z.pow_add_r by lia. f_equal. lia. }
      split; [|assumption]. split; [apply Z.div_pos; lia|].
      apply Z.div_le_upper_bound; lia.
    - eexists. eexists. split; [reflexivity|]. cbn [shr_m]. lia. }
  destruct (shr_m m2) as [|m|m] eqn:Hm; [left; reflexivity| |lia].
  right. exists m, e2. change (emax - prec) with 971.
  destruct (Z.leb_spec e2 971); [|lia]. repeat split; lia.
Qed.

Lemma new_location_0 (n : Z) : new_location n 0 = loc_Exact.
Proof.
  unfold new_location, new_location_even, new_location_odd.
  destruct (Z.even n); reflexivity.
Qed.

(** The quotient of two positive finite doubles, the first no larger than
    the second, is [+0] or a positive finite double no larger than one. *)
Lemma fdiv_le_one (mx my : positive) (ex ey c : Z) :
  c <= ex -> c <= ey ->
  Zpos mx * 2 ^ (ex - c) <= Zpos my * 2 ^ (ey - c) ->
  fdiv (S754_finite false mx ex) (S754_finite false my ey) = S754_zero false
  \/ exists m e,
       fdiv (S754_finite false mx ex) (S754_finite false my ey)
       = S754_finite false m e /\
       e <= 0 /\ Zpos m <= 2 ^ (- e).
Proof.
  intros Hcx Hcy Hle. unfold fdiv. cbn [SFdiv xorb].
  unfold SFdiv_core_binary. cbn [Zdigits2]. fold (digits mx) (digits my).
  rewrite fexp_eq.
  pose proof (digits_bounds mx) as Bx. pose proof (digits_bounds my) as By.
  pose proof (digits_pos mx) as Dx. pose proof (digits_pos my) as Dy.
  pose proof (pow2_pos (ex - c) ltac:(lia)) as PA.
  pose proof (pow2_pos (ey - c) ltac:(lia)) as PB.
  (* the first magnitude does not exceed the second *)
  assert (digits mx + ex <= digits my + ey) as HD.
  { destruct (Z.leb_spec (digits mx + ex) (digits my + ey)) as [|G];
      [assumption|exfalso].
    pose proof (pow2_le (digits my + ey - c) (digits mx - 1 + ex - c)
                  ltac:(lia)) as HP.
    replace (digits my + ey - c) with (digits my + (ey - c)) in HP by lia.
    replace (digits mx - 1 + ex - c) with (digits mx - 1 + (ex - c)) in HP
      by lia.
    rewrite !Z.pow_add_r in HP by lia. nia. }
  set (e' := Z.min (Z.max (digits mx + ex - (digits my + ey) - 53) (-1074))
                   (ex - ey)).
  assert (e' <= 0) as He0 by lia.
  assert (0 <= ex - ey - e') as Hs by lia.
  pose proof (pow2_pos (- e') ltac:(lia)) as PE.
  pose proof (pow2_pos (ex - ey - e') Hs) as PS.
  (* the shifted dividend *)
  assert (match ex - ey - e' with
          | Z0 => Zpos mx
          | Zpos _ => Z.shiftl (Zpos mx) (ex - ey - e')
          | Zneg _ => 0
          end = Zpos mx * 2 ^ (ex - ey - e')) as ->.
  { destruct (ex - ey - e') as [|s|s] eqn:K; [cbn; lia| |lia].
    rewrite Z.shiftl_mul_pow2 by lia. reflexivity. }
  set (n := Zpos mx * 2 ^ (ex - ey - e')).
  assert (n <= Zpos my * 2 ^ (- e')) as Hn.
  { unfold n.
    assert (2 ^ (ex - c) * 2 ^ (- e') = 2 ^ (ex - ey - e') * 2 ^ (ey - c))
      as Hp by (rewrite <- !Z.pow_add_r by lia; f_equal; lia).
    nia. }
  assert (0 <= n) as Hn0 by (unfold n; lia).
  pose proof (Z_div_mod_full n (Zpos my) ltac:(lia)) as Hdm.
  unfold Z.div, Z.modulo in *.
  destruct (Z.div_eucl n (Zpos my)) as [q r].
  destruct Hdm as [Hdm Hr]. unfold Remainder in Hr.
  destruct Hr as [Hr|Hr]; [|lia].
  assert (0 <= q) as Hq.
  { destruct (Z.leb_spec 0 q) as [|G]; [assumption|exfalso].
    assert (Zpos my * q <= Zpos my * (-1)) as H
      by (apply Z.mul_le_mono_nonneg_l; lia).
    lia. }
  apply binary_round_aux_le_one; [assumption|assumption|].
  destruct (Z.eq_dec n (Zpos my * 2 ^ (- e'))) as [Heq|Hne].
  - assert (q = 2 ^ (- e') /\ r = 0) as [-> ->].
    { rewrite Heq in Hdm.
      assert (Zpos my * (2 ^ (- e') - q) = r) as Hd by lia.
      destruct (Z.eq_dec q (2 ^ (- e'))) as [->|Hq']; [lia|exfalso].
      destruct (Z.ltb_spec q (2 ^ (- e'))) as [L|L].
      - assert (Zpos my * 1 <= Zpos my * (2 ^ (- e') - q)) as H
          by (apply Z.mul_le_mono_nonneg_l; lia).
        lia.
      - assert (Zpos my * (2 ^ (- e') - q) <= Zpos my * (-1)) as H
          by (apply Z.mul_le_mono_nonneg_l; lia).
        lia. }
    right. split; [apply new_location_0|reflexivity].
  - left. destruct (Z.ltb_spec q (2 ^ (- e'))) as [|G]; [assumption|exfalso].
    assert (Zpos my * 2 ^ (- e') <= Zpos my * q) as H
      by (apply Z.mul_le_mono_nonneg_l; lia).
    lia.
Qed.

Lemma rn_0_two62 : rn 0 two62 = two62.
Proof. reflexivity. Qed.

(** With a scale of at most one the cast is defined up to 2^62 ticks. *)
Lemma scaled_le_one (ms : positive) (es a : Z) :
  es <= 0 -> Zpos ms <= 2 ^ (- es) -> 0 <= a <= two62 ->
  exists x, scaled (S754_finite false ms es) a = Some x /\ 0 <= x <= two62.
Proof.
  intros Hes Hms Ha.
  assert (two62 < two63) as H6263 by reflexivity.
  rewrite scaled_spec by lia.
  pose proof (scaled_value_mono ms es 0 a ltac:(lia)) as [_ H0].
  assert (scaled_value ms es a <= two62) as Hle.
  { unfold scaled_value, scaled_units.
    assert (unit_exp es = es - 52) as -> by (unfold unit_exp; lia).
    replace (es - (es - 52)) with 52 by lia.
    pose proof (pow2_pos (- (es - 52)) ltac:(lia)) as PU.
    pose proof (pow2_pos (- es) ltac:(lia)) as PE.
    assert (2 ^ (- (es - 52)) = 2 ^ (- es) * 2 ^ 52) as HU
      by (rewrite <- Z.pow_add_r by lia; f_equal; lia).
    pose proof (rn_mono 0 a two62 ltac:(lia)) as Hr.
    rewrite rn_0_two62 in Hr.
    pose proof (rn_nonneg 0 a ltac:(lia)) as Hr0.
    assert (0 <= rn 0 a * Zpos ms * 2 ^ 52 <= two62 * 2 ^ (- (es - 52))) as Hn.
    { rewrite HU. split; [lia|].
      assert (rn 0 a * Zpos ms <= two62 * 2 ^ (- es)) as H
        by (apply Z.mul_le_mono_nonneg; lia).
      nia. }
    pose proof (rn_mono (es - 52) _ _ Hn) as Hm.
    pose proof (rn_align 0 (es - 52) (Z.to_pos two62) ltac:(lia)) as HA.
    change (Zpos (Z.to_pos two62)) with two62 in HA.
    replace (0 - (es - 52)) with (- (es - 52)) in HA by lia.
    rewrite HA, rn_0_two62 in Hm.
    apply Z.div_le_upper_bound; lia. }
  destruct (Z.ltb_spec (scaled_value ms es a) two63); [|lia].
  eexists. split; [reflexivity|]. 
  pose proof (scaled_value_mono ms es a a ltac:(lia)). lia.
Qed.

Lemma of_int64_nonneg_finite (a : Z) :
  0 <= a <= two64 ->
  of_int64 a = S754_zero false \/
  exists m e, of_int64 a = S754_finite false m e.
Proof.
  intros Ha. destruct (Z.eq_dec a 0) as [->|Hne]; [left; reflexivity|].
  right. apply of_int64_positive. lia.
Qed.

Lemma scaled_zero (a : Z) :
  0 <= a < two63 -> scaled (S754_zero false) a = Some 0.
Proof.
  intros Ha. unfold scaled. rewrite signed64_small by assumption.
  destruct (of_int64_nonneg_finite a) as [->|(m & e & ->)];
    [unfold two63, two64 in *; lia|reflexivity|reflexivity].
Qed.

(** The scale of a calibration over [dt] ticks and [0 <= dn <= dt]
    nanoseconds is [+0] or a positive finite double of at most one. *)
Lemma ratio_le_one (dn dt : Z) :
  0 <= dn <= dt -> 0 < dt < two63 ->
  ratio dn dt = S754_zero false \/
  exists m e, ratio dn dt = S754_finite false m e /\
              e <= 0 /\ Zpos m <= 2 ^ (- e).
Proof.
  intros Hn Ht. unfold ratio.
  assert (two63 < two64) as H6364 by reflexivity.
  destruct dt as [|pt|pt]; try lia.
  destruct (of_int64_pos pt ltac:(lia)) as (my & ey & -> & Hey & Hvy).
  destruct dn as [|pn|pn]; [left; reflexivity| |lia].
  destruct (of_int64_pos pn ltac:(lia)) as (mx & ex & -> & Hex & Hvx).
  apply (fdiv_le_one mx my ex ey (-52)); [lia|lia|].
  replace (ex - -52) with (ex + 52) by lia.
  replace (ey - -52) with (ey + 52) by lia.
  rewrite Hvx, Hvy.
  pose proof (rn_mono 0 (Zpos pn) (Zpos pt) ltac:(lia)). lia.
Qed.

(** * Signs, quotients and reciprocals *)

(** ** Signs *)

Lemma binary_round_aux_opp (m e : Z) (l : location) :
  binary_round_aux prec emax true m e l
  = SFopp (binary_round_aux prec emax false m e l).
Proof.
  unfold binary_round_aux.
  destruct (shr_fexp prec emax m e l) as [mrs e1].
  destruct (shr_fexp prec emax _ e1 loc_Exact) as [mrs2 e2].
  destruct (shr_m mrs2); [reflexivity| |reflexivity].
  destruct (e2 <=? emax - prec); reflexivity.
Qed.

Lemma SFopp_involutive (d : double) : SFopp (SFopp d) = d.
Proof. destruct d as [s|s| |s m e]; cbn; now rewrite ?negb_involutive. Qed.

Lemma of_int64_opp (z : Z) : z <> 0 -> of_int64 (- z) = SFopp (of_int64 z).
Proof.
  intros Hz. unfold of_int64, binary_normalize, binary_round.
  destruct z as [|p|p]; [contradiction| |]; cbn [Z.opp];
    destruct (shl_align p 0 _) as [mz ez].
  - apply binary_round_aux_opp.
  - now rewrite binary_round_aux_opp, SFopp_involutive.
Qed.

Lemma fmul_opp_l (x y : double) : fmul (SFopp x) y = SFopp (fmul x y).
Proof.
  unfold fmul.
  destruct x as [sx|sx| |sx mx ex], y as [sy|sy| |sy my ey];
    cbn [SFopp SFmul]; try reflexivity;
    try (destruct sx, sy; reflexivity).
  destruct sx, sy; cbn [negb xorb];
    rewrite binary_round_aux_opp; now rewrite ?SFopp_involutive.
Qed.

Lemma trunc_double_opp (d : double) :
  trunc_double (SFopp d) = option_map Z.opp (trunc_double d).
Proof.
  destruct d as [s|s| |s m e]; cbn; try reflexivity.
  f_equal. destruct s; cbn; lia.
Qed.

Lemma to_int64_opp (d : double) (x : Z) :
  to_int64 d = Some x -> - two63 < x -> to_int64 (SFopp d) = Some (- x).
Proof.
  unfold to_int64. rewrite trunc_double_opp.
  destruct (trunc_double d) as [z|]; [|discriminate]. cbn [option_map].
  destruct (Z.leb_spec (- two63) z), (Z.ltb_spec z two63);
    cbn [andb]; try discriminate.
  intros E Hx. injection E as <-.
  destruct (Z.leb_spec (- two63) (- z)), (Z.ltb_spec (- z) two63);
    cbn [andb]; try lia. reflexivity.
Qed.

(** [(double)i] is [+0] or a finite double, for every [i] of 64 bits. *)
Lemma of_int64_finite (z : Z) :
  - two64 <= z <= two64 ->
  (z = 0 /\ of_int64 z = S754_zero false) \/
  exists s m e, of_int64 z = S754_finite s m e.
Proof.
  intros Hz. destruct (Z.eq_dec z 0) as [->|Hne]; [left; now split|right].
  destruct (Z.ltb_spec 0 z) as [Hp|Hn].
  - destruct (of_int64_positive z ltac:(lia)) as (m & e & H).
    now exists false, m, e.
  - destruct (of_int64_positive (- z) ltac:(lia)) as (m & e & H).
    exists true, m, e. replace z with (- - z) by lia.
    rewrite of_int64_opp, H by lia. reflexivity.
Qed.

Lemma signed64_bounds (u : Z) : - two64 <= signed64 u <= two64.
Proof.
  pose proof (signed64_range u) as H. unfold is_i64 in H.
  rewrite two64_eq. lia.
Qed.

Lemma signed64_zero (u : Z) : signed64 u = 0 -> wrap64 u = 0.
Proof.
  unfold signed64. pose proof (wrap64_range u) as H. unfold is_u64 in H.
  destruct (wrap64 u <? two63); lia.
Qed.

Lemma wrap64_diff_zero (a b : Z) :
  is_u64 a -> is_u64 b -> wrap64 (a - b) = 0 -> a = b.
Proof.
  unfold is_u64. intros Ha Hb H.
  destruct (Z.le_gt_cases b a) as [Hle|Hgt].
  - rewrite wrap64_small in H by (unfold is_u64; lia). lia.
  - assert (wrap64 (a - b) = a - b + two64) as E.
    { unfold wrap64. symmetry. apply Z.mod_unique with (q := -1); lia. }
    lia.
Qed.

(** The divisor of [calibrate] is zero only when the two tick values are
    equal. *)
Lemma divisor_nonzero (a b : Z) :
  is_u64 a -> is_u64 b -> a <> b -> signed64 (wrap64 (a - b)) <> 0.
Proof.
  intros Ha Hb Hne H. apply signed64_zero in H.
  rewrite wrap64_idem in H. now apply Hne, wrap64_diff_zero.
Qed.

(** ** Scales that are zero, one, or not finite *)

(** A scale that is an infinity or a NaN leaves no tick count with a
    defined cast. *)
Lemma scaled_not_finite (inv : double) (tsc : Z) :
  is_finite inv = false -> scaled inv tsc = None.
Proof.
  intros Hf. unfold scaled.
  destruct (of_int64_finite (signed64 tsc) (signed64_bounds tsc))
    as [[_ ->]|(s & m & e & ->)];
    destruct inv as [si|si| |si mi ei]; try discriminate Hf; reflexivity.
Qed.

(** A zero scale sends every tick count to 0. *)
Lemma scaled_zero_scale (s : bool) (tsc : Z) :
  scaled (S754_zero s) tsc = Some 0.
Proof.
  unfold scaled.
  destruct (of_int64_finite (signed64 tsc) (signed64_bounds tsc))
    as [[_ ->]|(s' & m & e & ->)]; reflexivity.
Qed.

(** With the scale 1.0 a tick count below 2^53 is its own product. *)
Lemma scaled_one (a : Z) : 0 <= a < two53 -> scaled d_one a = Some a.
Proof.
  intros Ha. assert (two53 < two63) as H5363 by reflexivity.
  unfold d_one. rewrite scaled_spec by lia.
  assert (scaled_value 4503599627370496 (-52) a = a) as ->.
  { unfold scaled_value, scaled_units.
    change (unit_exp (-52)) with (-104).
    rewrite rn_small by exact Ha.
    change (- -104) with 104. change (-52 - -104) with 52.
    destruct a as [|p|p]; [reflexivity| |lia].
    replace (Zpos p * 4503599627370496 * 2 ^ 52)
      with (Zpos p * 2 ^ (0 - -104)) by (change (0 - -104) with 104; lia).
    rewrite rn_align by lia. rewrite rn_small by exact Ha.
    change (0 - -104) with 104. apply Z.div_mul. lia. }
  destruct (Z.ltb_spec a two63); [reflexivity|lia].
Qed.

Lemma div_eucl_mul (a b : Z) : 0 < a -> Z.div_eucl (a * b) a = (b, 0).
Proof.
  intros Ha. rewrite (surjective_pairing (Z.div_eucl (a * b) a)).
  change (fst (Z.div_eucl (a * b) a)) with (a * b / a).
  change (snd (Z.div_eucl (a * b) a)) with ((a * b) mod a).
  rewrite Z.mul_comm, Z.div_mul, Z.mod_mul by lia. reflexivity.
Qed.

(** A positive finite double divided by itself is exactly 1.0. *)
Lemma fdiv_self (m : positive) (e : Z) :
  fdiv (S754_finite false m e) (S754_finite false m e) = d_one.
Proof.
  unfold fdiv. cbn [SFdiv xorb]. unfold SFdiv_core_binary.
  cbn [Zdigits2]. fold (digits m). rewrite fexp_eq.
  replace (digits m + e - (digits m + e)) with 0 by lia.
  replace (e - e) with 0 by lia.
  change (Z.min (Z.max (0 - 53) (-1074)) 0) with (-53).
  change (0 - -53) with 53. cbv iota.
  rewrite Z.shiftl_mul_pow2, div_eucl_mul, new_location_0 by lia.
  reflexivity.
Qed.

Lemma of_int64_div_self (d : Z) :
  0 < d < two63 -> fdiv (of_int64 d) (of_int64 d) = d_one.
Proof.
  intros Hd. assert (two63 < two64) as H by reflexivity.
  destruct (of_int64_positive d ltac:(lia)) as (m & e & ->).
  apply fdiv_self.
Qed.

(** Equal elapsed nanoseconds and ticks give the scale 1.0. *)
Lemma derived_inv_unit (t : TSCNS) (ptsc pns : Z) :
  0 <= base_tsc t < ptsc -> ptsc < two63 ->
  wrap64 (pns - base_ns t) = ptsc - base_tsc t ->
  derived_inv t ptsc pns = d_one.
Proof.
  intros Hb Hp Hns. unfold derived_inv. rewrite Hns.
  rewrite signed64_diff by (unfold is_i64; lia).
  rewrite signed64_small by lia.
  apply of_int64_div_self. lia.
Qed.

(** ** The two outcomes of [init] with a positive argument *)

Lemma init_undefined_eq (g : double) (w : World) (t : TSCNS) :
  fleb g d_zero = false ->
  scaled (fdiv d_one g) (probe_tsc w) = None ->
  init g w t = None.
Proof.
  intros Hg Hx. unfold init. rewrite syncTime_probe, Hg.
  unfold adjustOffset. cbn [set_inv set_base tsc_ghz_inv base_tsc].
  now rewrite Hx.
Qed.

Lemma init_positive_cases (g : double) (w w' : World) (t t' : TSCNS) :
  fleb g d_zero = false ->
  init g w t = Some (t', w') ->
  exists x : Z,
    scaled (fdiv d_one g) (probe_tsc w) = Some x /\
    t' = {| tsc_ghz_inv := fdiv d_one g;
            ns_offset := wrap64 (probe_ns w - x);
            base_tsc := probe_tsc w; base_ns := probe_ns w |} /\
    w' = after_probe w.
Proof.
  intros Hg H.
  destruct (scaled (fdiv d_one g) (probe_tsc w)) as [x|] eqn:Hx.
  - rewrite (init_positive_eq g w t x Hg Hx) in H.
    apply Some_pair_inj in H as [<- <-]. exists x.
    split; [reflexivity|]. split; reflexivity.
  - rewrite (init_undefined_eq g w t Hg Hx) in H. discriminate H.
Qed.

(** ** Rounding of quotients *)

Lemma loc_of_shr_record_of_loc (m : Z) (l : location) :
  loc_of_shr_record (shr_record_of_loc m l) = l.
Proof. destruct l as [|[| |]]; reflexivity. Qed.

Lemma shr_record_of_loc_ok (m : Z) (l : location) (num den : Z) :
  0 <= m -> 0 < den -> 0 <= num - m * den < den ->
  loc_frac l (num - m * den) den ->
  shr_ok (shr_record_of_loc m l) num den.
Proof.
  intros Hm Hd Hf Hl. unfold shr_ok.
  rewrite shr_m_record_of_loc, loc_of_shr_record_of_loc. tauto.
Qed.

Lemma shr_1_ok (mrs : shr_record) (num den : Z) :
  shr_ok mrs num den -> shr_ok (shr_1 mrs) num (2 * den).
Proof.
  destruct mrs as [m r s]. unfold shr_ok. cbn [shr_m].
  intros (Hm & Hd & Hf & Hl). rewrite shr_1_nonneg by assumption.
  cbn [shr_m]. pose proof (Z.div_mod m 2 ltac:(lia)) as Hdm.
  rewrite odd_mod2 in Hdm.
  assert (0 <= m / 2) as Hk by (apply Z.div_pos; lia).
  set (k := m / 2) in *. clearbody k.
  destruct (Z.odd m); subst m;
    destruct r, s; cbn [loc_of_shr_record loc_frac orb] in *;
    (split; [assumption|split; [lia|split; lia]]).
Qed.

Lemma shr_iter_ok (mrs : shr_record) (num den : Z) (j : nat) :
  shr_ok mrs num den ->
  shr_ok (Nat.iter j shr_1 mrs) num (2 ^ Z.of_nat j * den).
Proof.
  intros H. induction j as [|j IH].
  - cbn [Nat.iter]. change (2 ^ Z.of_nat 0) with 1. now rewrite Z.mul_1_l.
  - rewrite Nat.iter_succ.
    replace (2 ^ Z.of_nat (S j) * den) with (2 * (2 ^ Z.of_nat j * den)).
    + now apply shr_1_ok.
    + replace (Z.of_nat (S j)) with (1 + Z.of_nat j) by lia.
      rewrite Z.pow_add_r by lia. change (2 ^ 1) with 2. lia.
Qed.

Lemma shr_pos_ok (mrs : shr_record) (num den : Z) (p : positive) :
  shr_ok mrs num den ->
  shr_ok (iter_pos shr_1 p mrs) num (2 ^ Zpos p * den).
Proof.
  intros H. rewrite iter_pos_nat, <- (positive_nat_Z p).
  now apply shr_iter_ok.
Qed.

Lemma round_nearest_even_ok (mrs : shr_record) (num den : Z) :
  shr_ok mrs num den ->
  shr_m mrs <= round_nearest_even (shr_m mrs) (loc_of_shr_record mrs)
            <= shr_m mrs + 1 /\
  2 * Z.abs (round_nearest_even (shr_m mrs) (loc_of_shr_record mrs) * den
             - num) <= den.
Proof.
  intros (Hm & Hd & Hf & Hl).
  destruct (loc_of_shr_record mrs) as [|[| |]];
    cbn [loc_frac round_nearest_even] in *; try (split; lia).
  destruct (Z.even (shr_m mrs)); split; lia.
Qed.

Lemma new_location_ok (d r : Z) :
  0 < d -> 0 <= r < d -> loc_frac (new_location d r) r d.
Proof.
  intros Hd Hr. unfold new_location, new_location_even, new_location_odd.
  destruct (Z.even d) eqn:Ev.
  - destruct (Z.eqb_spec r 0) as [->|Hne]; [reflexivity|].
    destruct (Z.compare_spec (2 * r) d); cbn [loc_frac]; lia.
  - destruct (Z.eqb_spec r 0) as [->|Hne]; [reflexivity|].
    pose proof (Z.div_mod d 2 ltac:(lia)) as Hdm.
    rewrite Zmod_even, Ev in Hdm.
    destruct (Z.compare_spec (2 * r + 1) d); cbn [loc_frac]; lia.
Qed.

Lemma lt_pow2_digits (q k : Z) :
  0 <= q -> 0 <= k -> Zdigits2 q <= k -> q < 2 ^ k.
Proof.
  intros Hq Hk Hd. destruct q as [|p|p]; [apply pow2_pos; lia| |lia].
  change (Zdigits2 (Zpos p)) with (digits p) in Hd.
  pose proof (digits_bounds p) as B. pose proof (digits_pos p) as P.
  pose proof (pow2_le (digits p) k ltac:(lia)). lia.
Qed.

Lemma Zdigits2_nonneg (q : Z) : 0 <= q -> 0 <= Zdigits2 q.
Proof.
  intros Hq. destruct q as [|p|p]; [cbn; lia| |lia].
  change (Zdigits2 (Zpos p)) with (digits p). pose proof (digits_pos p). lia.
Qed.

(** The second pass of [binary_round_aux]: a rounded mantissa of at most
    2^53 is kept, 2^53 itself becoming 2^52 at the next exponent. *)
Lemma round_second_pass (sx : bool) (M1 E1 : Z) :
  0 <= M1 <= two53 -> -1074 <= E1 ->
  (let '(mrs, e2) := shr_fexp prec emax M1 E1 loc_Exact in
   match shr_m mrs with
   | Z0 => S754_zero sx
   | Zpos m => if e2 <=? emax - prec then S754_finite sx m e2
               else S754_infinity sx
   | Zneg _ => S754_nan
   end)
  = if M1 =? two53 then fin_or_inf sx (2 ^ 52) (E1 + 1)
    else fin_or_inf sx M1 E1.
Proof.
  intros HM HE. unfold shr_fexp. cbn [shr_record_of_loc].
  destruct (Z.eqb_spec M1 two53) as [E53|N53].
  - rewrite E53.
    assert (fexp prec emax (Zdigits2 two53 + E1) - E1 = 1) as ->
      by (rewrite fexp_eq; change (Zdigits2 two53) with 54; lia).
    cbn [shr shr_record_of_loc iter_pos].
    change (shr_m (shr_1 {| shr_m := two53; shr_r := false;
                            shr_s := false |}))
      with (2 ^ 52). reflexivity.
  - assert (fexp prec emax (Zdigits2 M1 + E1) - E1 <= 0) as Hk.
    { rewrite fexp_eq.
      assert (Zdigits2 M1 <= 53); [|lia].
      destruct M1 as [|q|q]; [cbn; lia| |lia].
      change (Zdigits2 (Zpos q)) with (digits q).
      destruct (Z.leb_spec (digits q) 53) as [|G]; [assumption|exfalso].
      pose proof (digits_bounds q) as Bq.
      pose proof (pow2_le 53 (digits q - 1) ltac:(lia)).
      unfold two53 in *. lia. }
    unfold shr.
    destruct (fexp prec emax (Zdigits2 M1 + E1) - E1); try lia;
      cbn [shr_m]; destruct M1; reflexivity.
Qed.

(** [binary_round_aux] on a quotient: [q] is the integer part of
    [num / den] and [l] tells where the remainder lies; the result is the
    multiple of [2^E1] nearest to [num / den * 2^e]. *)
Lemma binary_round_aux_near (q e : Z) (l : location) (num den : Z) :
  0 <= q -> 0 < den -> 0 <= num - q * den < den ->
  loc_frac l (num - q * den) den ->
  exists M1 E1,
    binary_round_aux prec emax false q e l
    = (if M1 =? two53 then fin_or_inf false (2 ^ 52) (E1 + 1)
       else fin_or_inf false M1 E1) /\
    E1 = Z.max e (Z.max (Zdigits2 q + e - 53) (-1074)) /\
    0 <= M1 <= two53 /\
    2 * Z.abs (M1 * (2 ^ (E1 - e) * den) - num) <= 2 ^ (E1 - e) * den.
Proof.
  intros Hq Hd Hf Hl.
  pose proof (shr_record_of_loc_ok q l num den Hq Hd Hf Hl) as Hok.
  pose proof (Zdigits2_nonneg q Hq) as Hdg.
  unfold binary_round_aux.
  assert (exists M1 E1,
            (let '(mrs, e1) := shr_fexp prec emax q e l in
             (round_nearest_even (shr_m mrs) (loc_of_shr_record mrs), e1))
            = (M1, E1) /\
            E1 = Z.max e (Z.max (Zdigits2 q + e - 53) (-1074)) /\
            0 <= M1 <= two53 /\
            2 * Z.abs (M1 * (2 ^ (E1 - e) * den) - num)
            <= 2 ^ (E1 - e) * den) as (M1 & E1 & H1 & HE & HM & Herr).
  { unfold shr_fexp. rewrite fexp_eq.
    set (F := Z.max (Zdigits2 q + e - 53) (-1074)).
    destruct (F - e) as [|p|p] eqn:K; cbn [shr].
    - eexists. eexists. split; [reflexivity|].
      split; [lia|].
      destruct (round_nearest_even_ok _ _ _ Hok) as [Hb He].
      rewrite shr_m_record_of_loc in *.
      pose proof (lt_pow2_digits q 53 Hq ltac:(lia) ltac:(lia)).
      split; [unfold two53; lia|].
      replace (e - e) with 0 by lia. change (2 ^ 0) with 1.
      rewrite Z.mul_1_l. exact He.
    - pose proof (shr_pos_ok _ _ _ p Hok) as Hok'.
      eexists. eexists. split; [reflexivity|].
      split; [lia|].
      destruct (round_nearest_even_ok _ _ _ Hok') as [Hb He].
      rewrite shr_m_shift in * by (rewrite shr_m_record_of_loc; assumption).
      rewrite shr_m_record_of_loc in *.
      pose proof (pow2_pos (Zpos p) ltac:(lia)) as Pp.
      pose proof (lt_pow2_digits q (53 + Zpos p) Hq ltac:(lia) ltac:(lia))
        as Hlt.
      rewrite Z.pow_add_r in Hlt by lia.
      assert (0 <= q / 2 ^ Zpos p < 2 ^ 53).
      { split; [apply Z.div_pos; lia|].
        apply Z.div_lt_upper_bound; lia. }
      split; [unfold two53; lia|].
      replace (e + Zpos p - e) with (Zpos p) by lia. exact He.
    - eexists. eexists. split; [reflexivity|].
      split; [lia|].
      destruct (round_nearest_even_ok _ _ _ Hok) as [Hb He].
      rewrite shr_m_record_of_loc in *.
      pose proof (lt_pow2_digits q 53 Hq ltac:(lia) ltac:(lia)).
      split; [unfold two53; lia|].
      replace (e - e) with 0 by lia. change (2 ^ 0) with 1.
      rewrite Z.mul_1_l. exact He. }
  exists M1, E1.
  destruct (shr_fexp prec emax q e l) as [mrs e1].
  injection H1 as -> ->.
  split; [|repeat split; assumption || lia].
  apply round_second_pass; [assumption|lia].
Qed.

(** ** Division, to the nearest double *)

(** The quotient of two positive finite doubles is the multiple of [2^E1]
    nearest to the exact quotient. *)
Lemma fdiv_near (mx my : positive) (ex ey : Z) :
  exists q r M1 E1 : Z,
    Zpos mx * 2 ^ (ex - ey
                   - Z.min (Z.max (digits mx + ex - (digits my + ey) - 53)
                              (-1074)) (ex - ey))
    = Zpos my * q + r /\
    0 <= r < Zpos my /\ 0 <= q /\
    fdiv (S754_finite false mx ex) (S754_finite false my ey)
    = (if M1 =? two53 then fin_or_inf false (2 ^ 52) (E1 + 1)
       else fin_or_inf false M1 E1) /\
    E1 = Z.max (Z.min (Z.max (digits mx + ex - (digits my + ey) - 53)
                         (-1074)) (ex - ey))
           (Z.max (Zdigits2 q
                   + Z.min (Z.max (digits mx + ex - (digits my + ey) - 53)
                              (-1074)) (ex - ey) - 53) (-1074)) /\
    0 <= M1 <= two53 /\
    2 * Z.abs (M1 * (2 ^ (E1 - Z.min (Z.max (digits mx + ex
                                             - (digits my + ey) - 53)
                                        (-1074)) (ex - ey))
                     * Zpos my)
               - Zpos mx * 2 ^ (ex - ey
                   - Z.min (Z.max (digits mx + ex - (digits my + ey) - 53)
                              (-1074)) (ex - ey)))
    <= 2 ^ (E1 - Z.min (Z.max (digits mx + ex - (digits my + ey) - 53)
                          (-1074)) (ex - ey)) * Zpos my.
Proof.
  unfold fdiv. cbn [SFdiv xorb]. unfold SFdiv_core_binary.
  cbn [Zdigits2]. fold (digits mx) (digits my). rewrite fexp_eq.
  set (e' := Z.min (Z.max (digits mx + ex - (digits my + ey) - 53) (-1074))
                   (ex - ey)).
  assert (0 <= ex - ey - e') as Hs by lia.
  pose proof (pow2_pos (ex - ey - e') Hs) as PS.
  assert (match ex - ey - e' with
          | Z0 => Zpos mx
          | Zpos _ => Z.shiftl (Zpos mx) (ex - ey - e')
          | Zneg _ => 0
          end = Zpos mx * 2 ^ (ex - ey - e')) as ->.
  { destruct (ex - ey - e') as [|s|s] eqn:K; [cbn; lia| |lia].
    rewrite Z.shiftl_mul_pow2 by lia. reflexivity. }
  set (n := Zpos mx * 2 ^ (ex - ey - e')).
  assert (0 <= n) as Hn0 by (unfold n; lia).
  pose proof (Z_div_mod_full n (Zpos my) ltac:(lia)) as Hdm.
  destruct (Z.div_eucl n (Zpos my)) as [q r].
  destruct Hdm as [Hdm Hr]. unfold Remainder in Hr.
  destruct Hr as [Hr|Hr]; [|lia].
  assert (0 <= q) as Hq.
  { destruct (Z.leb_spec 0 q) as [|G]; [assumption|exfalso].
    assert (Zpos my * q <= Zpos my * (-1)) as H
      by (apply Z.mul_le_mono_nonneg_l; lia).
    lia. }
  assert (n - q * Zpos my = r) as Hrem by lia.
  destruct (binary_round_aux_near q e' (new_location (Zpos my) r) n (Zpos my)
              Hq ltac:(lia) ltac:(lia))
    as (M1 & E1 & HR & HE & HM & Herr).
  { rewrite Hrem. apply new_location_ok; lia. }
  exists q, r, M1, E1. repeat split; try assumption; lia.
Qed.

Lemma magnitude_le (mx my : positive) (ex ey c : Z) :
  c <= ex -> c <= ey ->
  Zpos mx * 2 ^ (ex - c) <= Zpos my * 2 ^ (ey - c) ->
  digits mx + ex <= digits my + ey.
Proof.
  intros Hcx Hcy Hle.
  pose proof (digits_bounds mx) as Bx. pose proof (digits_bounds my) as By.
  pose proof (digits_pos mx) as Dx. pose proof (digits_pos my) as Dy.
  pose proof (pow2_pos (ex - c) ltac:(lia)) as PA.
  pose proof (pow2_pos (ey - c) ltac:(lia)) as PB.
  destruct (Z.leb_spec (digits mx + ex) (digits my + ey)) as [|G];
    [assumption|exfalso].
  pose proof (pow2_le (digits my + ey - c) (digits mx - 1 + ex - c)
                ltac:(lia)) as HP.
  replace (digits my + ey - c) with (digits my + (ey - c)) in HP by lia.
  replace (digits mx - 1 + ex - c) with (digits mx - 1 + (ex - c)) in HP
    by lia.
  rewrite !Z.pow_add_r in HP by lia. nia.
Qed.

Lemma near_rescale (M1 P T B S mx my X Y : Z) :
  0 < P -> 0 < B ->
  S * B = X * (P * T) -> my * B = Y ->
  2 * Z.abs (M1 * (P * my) - mx * S) <= P * my ->
  2 * Z.abs (M1 * Y - mx * X * T) <= Y.
Proof.
  intros HP HB HS Hy Herr.
  assert ((M1 * (P * my) - mx * S) * B = P * (M1 * Y - mx * X * T)) as E.
  { replace ((M1 * (P * my) - mx * S) * B)
      with (M1 * P * (my * B) - mx * (S * B)) by ring.
    rewrite HS, Hy. ring. }
  assert (2 * Z.abs ((M1 * (P * my) - mx * S) * B) <= P * my * B) as H.
  { rewrite Z.abs_mul, (Z.abs_eq B) by lia.
    replace (2 * (Z.abs (M1 * (P * my) - mx * S) * B))
      with (2 * Z.abs (M1 * (P * my) - mx * S) * B) by ring.
    apply Z.mul_le_mono_nonneg_r; lia. }
  rewrite E, Z.abs_mul, (Z.abs_eq P) in H by lia.
  replace (P * my * B) with (P * (my * B)) in H by ring.
  rewrite Hy in H.
  apply (Z.mul_le_mono_pos_l _ _ P); [lia|]. lia.
Qed.

(** The quotient of two positive finite doubles, the first no larger than
    the second: [+0] or a positive finite double [M * 2^E] of at most one,
    with [E <= -52], within half a unit [2^E] of the exact quotient.  The
    two operands are counted in units of [2^c]. *)
Lemma fdiv_near_le_one (mx my : positive) (ex ey c : Z) :
  c <= ex -> c <= ey ->
  Zpos mx * 2 ^ (ex - c) <= Zpos my * 2 ^ (ey - c) ->
  exists M E : Z,
    fdiv (S754_finite false mx ex) (S754_finite false my ey)
    = fin_or_inf false M E /\
    E <= -52 /\ 0 <= M <= 2 ^ (- E) /\
    2 * Z.abs (M * (Zpos my * 2 ^ (ey - c))
               - Zpos mx * 2 ^ (ex - c) * 2 ^ (- E))
    <= Zpos my * 2 ^ (ey - c).
Proof.
  intros Hcx Hcy Hle.
  destruct (fdiv_near mx my ex ey)
    as (q & r & M1 & E1 & Hdm & Hr & Hq & -> & HE & HM & Herr).
  set (e' := Z.min (Z.max (digits mx + ex - (digits my + ey) - 53) (-1074))
                   (ex - ey)) in *.
  pose proof (pow2_pos (ex - c) ltac:(lia)) as PA.
  pose proof (pow2_pos (ey - c) ltac:(lia)) as PB.
  pose proof (magnitude_le mx my ex ey c Hcx Hcy Hle) as HD.
  assert (e' <= -53) as He' by lia.
  assert (0 <= ex - ey - e') as Hs by lia.
  pose proof (pow2_pos (- e') ltac:(lia)) as PE.
  pose proof (pow2_pos (ex - ey - e') Hs) as PS.
  assert (2 ^ (ex - ey - e') * 2 ^ (ey - c) = 2 ^ (ex - c) * 2 ^ (- e'))
    as HSB by (rewrite <- !Z.pow_add_r by lia; f_equal; lia).
  (* the quotient is at most one *)
  assert (q <= 2 ^ (- e')) as Hq1.
  { assert (Zpos mx * 2 ^ (ex - ey - e') <= Zpos my * 2 ^ (- e')) as Hn.
    { apply (Z.mul_le_mono_pos_r _ _ (2 ^ (ey - c))); [lia|].
      replace (Zpos mx * 2 ^ (ex - ey - e') * 2 ^ (ey - c))
        with (Zpos mx * (2 ^ (ex - ey - e') * 2 ^ (ey - c))) by ring.
      rewrite HSB.
      replace (Zpos mx * (2 ^ (ex - c) * 2 ^ (- e')))
        with (Zpos mx * 2 ^ (ex - c) * 2 ^ (- e')) by ring.
      replace (Zpos my * 2 ^ (- e') * 2 ^ (ey - c))
        with (Zpos my * 2 ^ (ey - c) * 2 ^ (- e')) by ring.
      apply Z.mul_le_mono_nonneg_r; lia. }
    destruct (Z.leb_spec q (2 ^ (- e'))) as [|G]; [assumption|exfalso].
    assert (Zpos my * (2 ^ (- e') + 1) <= Zpos my * q) as H
      by (apply Z.mul_le_mono_nonneg_l; lia).
    lia. }
  assert (Zdigits2 q <= - e' + 1) as Hdq by (apply Zdigits2_le; lia).
  assert (e' <= E1 <= -52) as HE1 by lia.
  pose proof (pow2_pos (E1 - e') ltac:(lia)) as PP.
  pose proof (pow2_pos (- E1) ltac:(lia)) as PT.
  assert (2 ^ (- e') = 2 ^ (E1 - e') * 2 ^ (- E1)) as Hsplit
    by (rewrite <- Z.pow_add_r by lia; f_equal; lia).
  (* the error, in units of [2^c] *)
  assert (2 * Z.abs (M1 * (Zpos my * 2 ^ (ey - c))
                     - Zpos mx * 2 ^ (ex - c) * 2 ^ (- E1))
          <= Zpos my * 2 ^ (ey - c)) as Hnear.
  { apply (near_rescale M1 (2 ^ (E1 - e')) (2 ^ (- E1)) (2 ^ (ey - c))
             (2 ^ (ex - ey - e')) (Zpos mx) (Zpos my) (2 ^ (ex - c)));
      first [lia | rewrite HSB, Hsplit; reflexivity | exact Herr]. }
  pose proof (pow2_le 52 (- E1) ltac:(lia)) as H52.
  set (X := Zpos mx * 2 ^ (ex - c)) in *.
  set (Y := Zpos my * 2 ^ (ey - c)) in *.
  assert (0 < X) as HX by (unfold X; lia).
  assert (0 < Y) as HY by (unfold Y; lia).
  clearbody X Y. unfold two53 in *.
  destruct (Z.eqb_spec M1 (2 ^ 53)) as [E53|N53].
  - (* the mantissa was rounded up to 2^53 *)
    assert (2 ^ 52 * X <= 2 ^ 52 * Y) as HXY
      by (apply Z.mul_le_mono_nonneg_l; lia).
    assert (E1 <= -53) as HE53.
    { destruct (Z.eq_dec E1 (-52)) as [->|]; [exfalso|lia].
      rewrite E53 in Hnear. change (2 ^ (- -52)) with (2 ^ 52) in Hnear.
      lia. }
    exists (2 ^ 52), (E1 + 1). split; [reflexivity|]. split; [lia|].
    pose proof (pow2_le 52 (- (E1 + 1)) ltac:(lia)) as H52'.
    split; [lia|].
    assert (2 ^ (- E1) = 2 * 2 ^ (- (E1 + 1))) as HT.
    { replace (- E1) with (1 + - (E1 + 1)) by lia.
      rewrite Z.pow_add_r by lia. reflexivity. }
    rewrite E53, HT in Hnear. lia.
  - exists M1, E1. split; [reflexivity|]. split; [lia|].
    split; [|exact Hnear]. split; [lia|].
    destruct (Z.leb_spec M1 (2 ^ (- E1))) as [|G]; [assumption|exfalso].
    assert ((2 ^ (- E1) + 1) * Y <= M1 * Y) as H1
      by (apply Z.mul_le_mono_nonneg_r; lia).
    assert (X * 2 ^ (- E1) <= Y * 2 ^ (- E1)) as H2
      by (apply Z.mul_le_mono_nonneg_r; lia).
    lia.
Qed.

(** The scale [calibrate] derives from [dn] nanoseconds over [dt] ticks,
    [0 < dn <= dt < 2^53]: a positive finite double [ms * 2^es] of at most
    one, within half a unit [2^es] of the exact quotient. *)
Lemma ratio_near (dn dt : Z) :
  0 < dn <= dt -> dt < two53 ->
  exists ms es,
    ratio dn dt = S754_finite false ms es /\
    es <= -52 /\ Zpos ms <= 2 ^ (- es) /\
    2 * Z.abs (Zpos ms * dt - dn * 2 ^ (- es)) <= dt.
Proof.
  intros Hn Ht. unfold ratio.
  assert (two53 < two64) as H5364 by reflexivity.
  destruct dt as [|pt|pt]; try lia. destruct dn as [|pn|pn]; try lia.
  destruct (of_int64_pos pt ltac:(lia)) as (my & ey & -> & Hey & Hvy).
  destruct (of_int64_pos pn ltac:(lia)) as (mx & ex & -> & Hex & Hvx).
  rewrite rn_small in Hvx, Hvy by lia.
  replace (ex + 52) with (ex - -52) in Hvx by lia.
  replace (ey + 52) with (ey - -52) in Hvy by lia.
  destruct (fdiv_near_le_one mx my ex ey (-52) ltac:(lia) ltac:(lia))
    as (M & E & -> & HE & HM & Hnear); [rewrite Hvx, Hvy; lia|].
  rewrite Hvx, Hvy in Hnear.
  pose proof (pow2_pos (- E) ltac:(lia)) as PT.
  pose proof (pow2_le 52 (- E) ltac:(lia)) as H52.
  assert (2 * Z.abs (M * Zpos pt - Zpos pn * 2 ^ (- E)) <= Zpos pt)
    as Hnear'.
  { replace (M * (Zpos pt * 2 ^ 52) - Zpos pn * 2 ^ 52 * 2 ^ (- E))
      with (2 ^ 52 * (M * Zpos pt - Zpos pn * 2 ^ (- E))) in Hnear by ring.
    rewrite Z.abs_mul, (Z.abs_eq (2 ^ 52)) in Hnear by lia. lia. }
  unfold two53 in *.
  destruct M as [|ms|ms]; [exfalso| |lia].
  - (* a zero quotient is too far from [dn / dt] *)
    lia.
  - exists ms, E.
    assert ((E <=? emax - prec) = true) as Hle
      by (apply Z.leb_le; unfold emax, prec; lia).
    split; [cbn [fin_or_inf]; now rewrite Hle|].
    split; [lia|]. split; [lia|exact Hnear'].
Qed.

(** ** Spans of ticks under a rounded scale *)

(** With a scale of at most one, a tick count below 2^53 scales to no more
    than itself. *)
Lemma scaled_value_le_ticks (ms : positive) (es a : Z) :
  es <= 0 -> Zpos ms <= 2 ^ (- es) -> 0 <= a < two53 ->
  0 <= scaled_value ms es a <= a.
Proof.
  intros Hes Hms Ha.
  pose proof (scaled_value_mono ms es 0 a ltac:(lia)) as [H0 H1].
  split; [lia|].
  destruct (Z.eq_dec a 0) as [->|Hne].
  { unfold scaled_value, scaled_units.
    rewrite (rn_0 0), !Z.mul_0_l, rn_0, Zdiv_0_l. lia. }
  unfold scaled_value, scaled_units.
  assert (unit_exp es = es - 52) as -> by (unfold unit_exp; lia).
  replace (es - (es - 52)) with 52 by lia.
  rewrite rn_small by exact Ha.
  pose proof (pow2_pos (- (es - 52)) ltac:(lia)) as PU.
  pose proof (pow2_pos (- es) ltac:(lia)) as PE.
  assert (2 ^ (- (es - 52)) = 2 ^ (- es) * 2 ^ 52) as HU
    by (rewrite <- Z.pow_add_r by lia; f_equal; lia).
  assert (0 <= a * Zpos ms * 2 ^ 52 <= a * 2 ^ (- (es - 52))) as Hn.
  { rewrite HU. split; [lia|].
    assert (a * Zpos ms <= a * 2 ^ (- es)) as H
      by (apply Z.mul_le_mono_nonneg_l; lia).
    replace (a * (2 ^ (- es) * 2 ^ 52)) with (a * 2 ^ (- es) * 2 ^ 52)
      by ring.
    apply Z.mul_le_mono_nonneg_r; lia. }
  pose proof (rn_mono (es - 52) _ _ Hn) as Hm.
  destruct a as [|p|p]; try lia.
  pose proof (rn_align 0 (es - 52) p ltac:(lia)) as HA.
  replace (0 - (es - 52)) with (- (es - 52)) in HA by lia.
  rewrite HA, rn_small in Hm by exact Ha.
  apply Z.div_le_upper_bound; lia.
Qed.

Lemma scaled_le_ticks (ms : positive) (es a : Z) :
  es <= 0 -> Zpos ms <= 2 ^ (- es) -> 0 <= a < two53 ->
  scaled (S754_finite false ms es) a = Some (scaled_value ms es a) /\
  0 <= scaled_value ms es a <= a.
Proof.
  intros Hes Hms Ha. assert (two53 < two63) as H by reflexivity.
  pose proof (scaled_value_le_ticks ms es a Hes Hms Ha) as Hv.
  split; [|exact Hv]. rewrite scaled_spec by lia.
  destruct (Z.ltb_spec (scaled_value ms es a) two63); [reflexivity|lia].
Qed.

(** A scale [ms * 2^es] within half a unit [2^es] of [X / Y] carries a span
    of [b - a] ticks to within three of [(b - a) * X / Y]. *)
Lemma scaled_span_near (ms : positive) (es a b X Y : Z) :
  es <= -52 -> Zpos ms <= 2 ^ (- es) ->
  0 <= a <= b -> b < two53 -> 0 < Y ->
  2 * Z.abs (Zpos ms * Y - X * 2 ^ (- es)) <= Y ->
  Z.abs ((scaled_value ms es b - scaled_value ms es a) * Y - (b - a) * X)
  < 3 * Y.
Proof.
  intros Hes Hms Hab Hb HY Hnear.
  pose proof (scaled_value_le_ticks ms es a ltac:(lia) Hms ltac:(lia)) as Ha'.
  pose proof (scaled_value_le_ticks ms es b ltac:(lia) Hms ltac:(lia)) as Hb'.
  pose proof (scaled_value_err ms es a ltac:(lia) ltac:(lia)) as Ea.
  pose proof (scaled_value_err ms es b ltac:(lia) ltac:(lia)) as Eb.
  unfold exact_units in Ea, Eb.
  assert (unit_exp es = es - 52) as Hu by (unfold unit_exp; lia).
  rewrite Hu in Ea, Eb.
  replace (es - (es - 52)) with 52 in Ea, Eb by lia.
  pose proof (pow2_pos (- es) ltac:(lia)) as PT.
  assert (2 ^ (- (es - 52)) = 2 ^ 52 * 2 ^ (- es)) as HU
    by (rewrite <- Z.pow_add_r by lia; f_equal; lia).
  rewrite HU in Ea, Eb.
  pose proof (pow2_le 52 (- es) ltac:(lia)) as H52.
  unfold two53 in *.
  remember (2 ^ (- es)) as T eqn:HT.
  remember (scaled_value ms es a) as xa eqn:Hxa.
  remember (scaled_value ms es b) as xb eqn:Hxb.
  remember ((xb - xa) * T - (b - a) * Zpos ms) as p eqn:Hp.
  remember (Zpos ms * Y - X * T) as q eqn:Hq.
  remember (b - a) as n eqn:Hn.
  assert (- 2 * T < p < 2 * T) as Bp by (subst p n; lia).
  assert (- Y <= 2 * q <= Y) as Bq by lia.
  assert (0 <= n < 2 ^ 53) as Bn by lia.
  assert (T * ((xb - xa) * Y - n * X) = p * Y + n * q) as Hid
    by (subst p q; ring).
  assert (- ((2 * T - 1) * Y) <= p * Y <= (2 * T - 1) * Y) as BpY.
  { split.
    - replace (- ((2 * T - 1) * Y)) with ((- (2 * T - 1)) * Y) by ring.
      apply Z.mul_le_mono_nonneg_r; lia.
    - apply Z.mul_le_mono_nonneg_r; lia. }
  assert (- (n * Y) <= n * (2 * q) <= n * Y) as Bnq.
  { split.
    - replace (- (n * Y)) with (n * (- Y)) by ring.
      apply Z.mul_le_mono_nonneg_l; lia.
    - apply Z.mul_le_mono_nonneg_l; lia. }
  assert (n * Y <= (2 * T - 1) * Y) as BnY
    by (apply Z.mul_le_mono_nonneg_r; lia).
  assert (0 < T * Y) as PTY by (apply Z.mul_pos_pos; lia).
  assert (- (3 * (T * Y)) < T * ((xb - xa) * Y - n * X) < 3 * (T * Y))
    as Hfin.
  { rewrite Hid.
    replace (n * (2 * q)) with (2 * (n * q)) in Bnq by ring.
    replace ((2 * T - 1) * Y) with (2 * (T * Y) - Y) in * by ring. lia. }
  remember ((xb - xa) * Y - n * X) as Zv eqn:HZv.
  apply Z.abs_lt. split.
  - destruct (Z.ltb_spec (- (3 * Y)) Zv) as [|G]; [lia|exfalso].
    assert (T * Zv <= T * (- (3 * Y))) as H
      by (apply Z.mul_le_mono_nonneg_l; lia).
    replace (T * (- (3 * Y))) with (- (3 * (T * Y))) in H by ring. lia.
  - destruct (Z.ltb_spec Zv (3 * Y)) as [|G]; [assumption|exfalso].
    assert (T * (3 * Y) <= T * Zv) as H
      by (apply Z.mul_le_mono_nonneg_l; lia).
    replace (T * (3 * Y)) with (3 * (T * Y)) in H by ring. lia.
Qed.

(** The same for two tick values in either order. *)
Lemma scaled_span_near_any (ms : positive) (es a b X Y : Z) :
  es <= -52 -> Zpos ms <= 2 ^ (- es) ->
  0 <= a < two53 -> 0 <= b < two53 -> 0 < Y ->
  2 * Z.abs (Zpos ms * Y - X * 2 ^ (- es)) <= Y ->
  Z.abs ((scaled_value ms es b - scaled_value ms es a) * Y - (b - a) * X)
  < 3 * Y.
Proof.
  intros Hes Hms Ha Hb HY Hnear.
  destruct (Z.le_gt_cases a b) as [Hle|Hgt].
  - apply scaled_span_near; try assumption; lia.
  - pose proof (scaled_span_near ms es b a X Y Hes Hms ltac:(lia) ltac:(lia)
                  HY Hnear) as H.
    rewrite <- Z.abs_opp.
    replace (- ((scaled_value ms es b - scaled_value ms es a) * Y
                - (b - a) * X))
      with ((scaled_value ms es a - scaled_value ms es b) * Y - (a - b) * X)
      by ring.
    exact H.
Qed.

(** The scale of a calibration over [0 < dn <= dt] with tick values below
    2^53, and the products it gives. *)
Lemma derived_inv_near (t : TSCNS) (ptsc pns : Z) :
  0 <= base_tsc t -> ptsc < two53 ->
  0 < pns - base_ns t <= ptsc - base_tsc t ->
  exists ms es,
    derived_inv t ptsc pns = S754_finite false ms es /\
    es <= -52 /\ Zpos ms <= 2 ^ (- es) /\
    2 * Z.abs (Zpos ms * (ptsc - base_tsc t)
               - (pns - base_ns t) * 2 ^ (- es))
    <= ptsc - base_tsc t /\
    forall c : Z, 0 <= c < two53 ->
      scaled (S754_finite false ms es) c = Some (scaled_value ms es c) /\
      Z.abs ((scaled_value ms es c - scaled_value ms es (base_tsc t))
             * (ptsc - base_tsc t)
             - (c - base_tsc t) * (pns - base_ns t))
      < 3 * (ptsc - base_tsc t).
Proof.
  intros Hb Hp Hd. assert (two53 < two63) as H5363 by reflexivity.
  unfold derived_inv.
  rewrite !signed64_diff by (unfold is_i64; lia).
  fold (ratio (pns - base_ns t) (ptsc - base_tsc t)).
  destruct (ratio_near (pns - base_ns t) (ptsc - base_tsc t) Hd ltac:(lia))
    as (ms & es & -> & Hes & Hms & Hnear).
  exists ms, es. split; [reflexivity|]. split; [exact Hes|].
  split; [exact Hms|]. split; [exact Hnear|]. intros c Hc.
  destruct (scaled_le_ticks ms es c ltac:(lia) Hms Hc) as [Hxc _].
  split; [exact Hxc|].
  apply scaled_span_near_any; try assumption; lia.
Qed.

(** At the tick value of the second probe the two products differ by the
    elapsed nanoseconds, within two. *)
Lemma derived_inv_second_anchor (t : TSCNS) (ptsc pns : Z) :
  0 <= base_tsc t -> ptsc < two53 ->
  0 < pns - base_ns t <= ptsc - base_tsc t ->
  exists ms es xa xb,
    derived_inv t ptsc pns = S754_finite false ms es /\
    scaled (S754_finite false ms es) (base_tsc t) = Some xa /\
    scaled (S754_finite false ms es) ptsc = Some xb /\
    -2 <= xb - xa - (pns - base_ns t) <= 2.
Proof.
  intros Hb Hp Hd.
  destruct (derived_inv_near t ptsc pns Hb Hp Hd)
    as (ms & es & Hinv & _ & _ & _ & Hall).
  destruct (Hall (base_tsc t) ltac:(lia)) as [Hxa _].
  destruct (Hall ptsc ltac:(lia)) as [Hxb Hbound].
  exists ms, es, (scaled_value ms es (base_tsc t)), (scaled_value ms es ptsc).
  split; [exact Hinv|]. split; [exact Hxa|]. split; [exact Hxb|].
  remember (scaled_value ms es ptsc - scaled_value ms es (base_tsc t))
    as D eqn:HD.
  remember (ptsc - base_tsc t) as dt eqn:Hdt.
  remember (pns - base_ns t) as dn eqn:Hdn.
  replace (D * dt - dt * dn) with ((D - dn) * dt) in Hbound by ring.
  apply Z.abs_lt in Hbound.
  split.
  - destruct (Z.leb_spec (-2) (D - dn)) as [|G]; [assumption|exfalso].
    assert ((D - dn) * dt <= (-3) * dt) as H
      by (apply Z.mul_le_mono_nonneg_r; lia).
    lia.
  - destruct (Z.leb_spec (D - dn) 2) as [|G]; [assumption|exfalso].
    assert (3 * dt <= (D - dn) * dt) as H
      by (apply Z.mul_le_mono_nonneg_r; lia).
    lia.
Qed.

(** Between and beyond the two probes the products follow the line through
    them, within three nanoseconds. *)
Lemma derived_inv_line (t : TSCNS) (ptsc pns c : Z) :
  0 <= base_tsc t -> ptsc < two53 ->
  0 < pns - base_ns t <= ptsc - base_tsc t ->
  0 <= c < two53 ->
  exists ms es xa xc,
    derived_inv t ptsc pns = S754_finite false ms es /\
    scaled (S754_finite false ms es) (base_tsc t) = Some xa /\
    scaled (S754_finite false ms es) c = Some xc /\
    Z.abs ((xc - xa) * (ptsc - base_tsc t)
           - (c - base_tsc t) * (pns - base_ns t))
    < 3 * (ptsc - base_tsc t).
Proof.
  intros Hb Hp Hd Hc.
  destruct (derived_inv_near t ptsc pns Hb Hp Hd)
    as (ms & es & Hinv & _ & _ & _ & Hall).
  destruct (Hall (base_tsc t) ltac:(lia)) as [Hxa _].
  destruct (Hall c Hc) as [Hxc Hbound].
  exists ms, es, (scaled_value ms es (base_tsc t)), (scaled_value ms es c).
  split; [exact Hinv|]. split; [exact Hxa|]. split; [exact Hxc|].
  exact Hbound.
Qed.

(** The reciprocal of a double [mg * 2^eg] of at least one: [+0] or a
    positive finite double [M * 2^E] of at most one, within half a unit
    [2^E] of the exact reciprocal. *)
Lemma recip_near (mg : positive) (eg : Z) :
  eg <= 0 -> 2 ^ (- eg) <= Zpos mg ->
  exists M E : Z,
    fdiv d_one (S754_finite false mg eg) = fin_or_inf false M E /\
    E <= -52 /\ 0 <= M <= 2 ^ (- E) /\
    2 * Z.abs (M * Zpos mg - 2 ^ (- eg) * 2 ^ (- E)) <= Zpos mg.
Proof.
  intros Heg Hg. unfold d_one.
  set (c := Z.min (-52) eg).
  pose proof (pow2_pos (- eg) ltac:(lia)) as PG.
  pose proof (pow2_pos (eg - c) ltac:(lia)) as PF.
  assert (Zpos 4503599627370496 * 2 ^ (-52 - c) = 2 ^ (- eg) * 2 ^ (eg - c))
    as HX.
  { change (Zpos 4503599627370496) with (2 ^ 52).
    rewrite <- !Z.pow_add_r by lia. f_equal. lia. }
  destruct (fdiv_near_le_one 4503599627370496 mg (-52) eg c
              ltac:(lia) ltac:(lia))
    as (M & E & HR & HE & HM & Hnear).
  { rewrite HX. apply Z.mul_le_mono_nonneg_r; lia. }
  exists M, E. split; [exact HR|]. split; [exact HE|]. split; [exact HM|].
  rewrite HX in Hnear.
  replace (M * (Zpos mg * 2 ^ (eg - c))
           - 2 ^ (- eg) * 2 ^ (eg - c) * 2 ^ (- E))
    with (2 ^ (eg - c) * (M * Zpos mg - 2 ^ (- eg) * 2 ^ (- E)))
    in Hnear by ring.
  rewrite Z.abs_mul, (Z.abs_eq (2 ^ (eg - c))) in Hnear by lia.
  apply (Z.mul_le_mono_pos_l _ _ (2 ^ (eg - c))); [lia|]. lia.
Qed.

(** The products formed with the reciprocal of [mg * 2^eg >= 1] follow the
    line of slope [1 / (mg * 2^eg)], within three nanoseconds. *)
Lemma recip_line (mg : positive) (eg a c : Z) :
  eg <= 0 -> 2 ^ (- eg) <= Zpos mg ->
  0 <= a < two53 -> 0 <= c < two53 ->
  exists xa xc : Z,
    scaled (fdiv d_one (S754_finite false mg eg)) a = Some xa /\
    scaled (fdiv d_one (S754_finite false mg eg)) c = Some xc /\
    Z.abs ((xc - xa) * Zpos mg - (c - a) * 2 ^ (- eg)) < 3 * Zpos mg.
Proof.
  intros Heg Hg Ha Hc. assert (two53 < two63) as H5363 by reflexivity.
  destruct (recip_near mg eg Heg Hg) as (M & E & -> & HE & HM & Hnear).
  pose proof (pow2_pos (- eg) ltac:(lia)) as PG.
  pose proof (pow2_pos (- E) ltac:(lia)) as PT.
  pose proof (pow2_le 52 (- E) ltac:(lia)) as H52.
  destruct M as [|ms|ms]; [| |lia].
  - (* the reciprocal underflows to zero *)
    exists 0, 0. cbn [fin_or_inf].
    split; [apply scaled_zero; lia|]. split; [apply scaled_zero; lia|].
    rewrite Z.mul_0_l, Z.sub_0_l, Z.abs_opp in Hnear.
    rewrite Z.abs_eq in Hnear by lia.
    replace ((0 - 0) * Zpos mg - (c - a) * 2 ^ (- eg))
      with (- ((c - a) * 2 ^ (- eg))) by ring.
    rewrite Z.abs_opp, Z.abs_mul, (Z.abs_eq (2 ^ (- eg))) by lia.
    unfold two53 in *.
    assert (Z.abs (c - a) * 2 ^ (- eg) <= 2 ^ 53 * 2 ^ (- eg)) as H1
      by (apply Z.mul_le_mono_nonneg_r; lia).
    assert (2 ^ (- eg) * 2 ^ 52 <= 2 ^ (- eg) * 2 ^ (- E)) as H2
      by (apply Z.mul_le_mono_nonneg_l; lia).
    lia.
  - assert ((E <=? emax - prec) = true) as Hle
      by (apply Z.leb_le; unfold emax, prec; lia).
    cbn [fin_or_inf]. rewrite Hle.
    destruct (scaled_le_ticks ms E a ltac:(lia) ltac:(lia) Ha) as [Hxa _].
    destruct (scaled_le_ticks ms E c ltac:(lia) ltac:(lia) Hc) as [Hxc _].
    exists (scaled_value ms E a), (scaled_value ms E c).
    split; [exact Hxa|]. split; [exact Hxc|].
    apply scaled_span_near_any; try assumption; lia.
Qed.

(** ** Division of normal doubles *)

Lemma ge_pow2_digits (q k : Z) :
  0 <= k -> 2 ^ k <= q -> k + 1 <= Zdigits2 q.
Proof.
  intros Hk Hq. pose proof (pow2_pos k Hk) as P.
  destruct q as [|p|p]; try lia.
  change (Zdigits2 (Zpos p)) with (digits p).
  pose proof (digits_bounds p) as B. pose proof (digits_pos p) as Dp.
  destruct (Z.leb_spec (k + 1) (digits p)) as [|G]; [assumption|exfalso].
  pose proof (pow2_le (digits p) k ltac:(lia)). lia.
Qed.

Lemma abs_scale_pow (A B C t : Z) :
  0 <= t ->
  (2 * Z.abs (A * 2 ^ t - B * 2 ^ t) <= C * 2 ^ t <-> 2 * Z.abs (A - B) <= C).
Proof.
  intros Ht. pose proof (pow2_pos t Ht) as P.
  replace (A * 2 ^ t - B * 2 ^ t) with ((A - B) * 2 ^ t) by ring.
  rewrite Z.abs_mul, (Z.abs_eq (2 ^ t)) by lia.
  replace (2 * (Z.abs (A - B) * 2 ^ t)) with (2 * Z.abs (A - B) * 2 ^ t)
    by ring.
  split; intros H.
  - apply (Z.mul_le_mono_pos_r _ _ (2 ^ t)); assumption.
  - apply Z.mul_le_mono_nonneg_r; lia.
Qed.

(** The quotient of two positive finite doubles whose magnitudes are not
    too far apart: a normalised double, within half a unit in the last
    place of the exact quotient.  [u] is any unit exponent in which both
    sides are integers. *)
Lemma fdiv_normal (mx my : positive) (ex ey : Z) :
  -1000 <= digits mx + ex - (digits my + ey) <= 1000 ->
  exists (M : positive) (E : Z),
    fdiv (S754_finite false mx ex) (S754_finite false my ey)
    = S754_finite false M E /\
    2 ^ 52 <= Zpos M < 2 ^ 53 /\
    digits mx + ex - (digits my + ey) - 53 <= E
    <= digits mx + ex - (digits my + ey) - 51 /\
    forall u : Z, u <= ex -> u <= E + ey ->
      2 * Z.abs (Zpos M * Zpos my * 2 ^ (E + ey - u) - Zpos mx * 2 ^ (ex - u))
      <= Zpos my * 2 ^ (E + ey - u).
Proof.
  intros HD.
  destruct (fdiv_near mx my ex ey)
    as (q & r & M1 & E1 & Hdm & Hr & Hq & -> & HE & HM & Herr).
  set (D := digits mx + ex - (digits my + ey)) in *.
  set (e' := Z.min (Z.max (D - 53) (-1074)) (ex - ey)) in *.
  pose proof (digits_bounds mx) as Bx. pose proof (digits_bounds my) as By.
  pose proof (digits_pos mx) as Dx. pose proof (digits_pos my) as Dy.
  assert (e' <= D - 53 /\ e' <= ex - ey) as [He1 He2] by lia.
  set (sft := ex - ey - e') in *.
  assert (0 <= sft) as Hs by lia.
  pose proof (pow2_pos sft Hs) as PS.
  set (L := digits mx + sft - digits my).
  assert (53 <= L) as HL by (unfold L, sft, D in *; lia).
  (* the size of the integer quotient *)
  assert (2 ^ (digits mx - 1 + sft) <= Zpos mx * 2 ^ sft
          < 2 ^ (digits mx + sft)) as Hn.
  { rewrite !Z.pow_add_r by lia. split.
    - apply Z.mul_le_mono_nonneg_r; lia.
    - apply Z.mul_lt_mono_pos_r; lia. }
  assert (2 ^ (L - 1) <= q) as Hqlo.
  { destruct (Z.leb_spec (2 ^ (L - 1)) q) as [|G]; [assumption|exfalso].
    assert (Zpos my * (q + 1) <= Zpos my * 2 ^ (L - 1)) as H1
      by (apply Z.mul_le_mono_nonneg_l; lia).
    pose proof (pow2_pos (L - 1) ltac:(lia)) as PL.
    assert (Zpos my * 2 ^ (L - 1) < 2 ^ digits my * 2 ^ (L - 1)) as H2
      by (apply Z.mul_lt_mono_pos_r; lia).
    rewrite <- Z.pow_add_r in H2 by lia.
    replace (digits my + (L - 1)) with (digits mx - 1 + sft) in H2
      by (unfold L; lia).
    lia. }
  assert (q < 2 ^ (L + 1)) as Hqhi.
  { destruct (Z.ltb_spec q (2 ^ (L + 1))) as [|G]; [assumption|exfalso].
    assert (2 ^ (digits my - 1) * 2 ^ (L + 1) <= Zpos my * q) as H1
      by (apply Z.mul_le_mono_nonneg; lia).
    rewrite <- Z.pow_add_r in H1 by lia.
    replace (digits my - 1 + (L + 1)) with (digits mx + sft) in H1
      by (unfold L; lia).
    lia. }
  assert (L <= Zdigits2 q <= L + 1) as Hdq.
  { split.
    - pose proof (ge_pow2_digits q (L - 1) ltac:(lia) Hqlo). lia.
    - pose proof (pow2_pos (L - 1) ltac:(lia)) as PL.
      destruct q as [|pq|pq]; try lia.
      change (Zdigits2 (Zpos pq)) with (digits pq).
      apply digits_le. exact Hqhi. }
  assert (L + e' = D) as HLD by (unfold L, sft, D; lia).
  assert (E1 = Zdigits2 q + e' - 53) as HE1 by lia.
  set (p := E1 - e') in *.
  assert (p = Zdigits2 q - 53) as Hp by (unfold p; lia).
  assert (0 <= p) as Hp0 by lia.
  pose proof (pow2_pos p Hp0) as PP.
  (* the rounded mantissa is normalised *)
  assert (2 ^ 52 * 2 ^ p <= q) as Hq52.
  { rewrite <- Z.pow_add_r by lia.
    destruct (Z.eq_dec (Zdigits2 q) L) as [E|NE].
    - replace (52 + p) with (L - 1) by lia. exact Hqlo.
    - assert (Zdigits2 q = L + 1) as E by lia.
      replace (52 + p) with L by lia.
      destruct (Z.leb_spec (2 ^ L) q) as [|G]; [assumption|exfalso].
      pose proof (pow2_pos (L - 1) ltac:(lia)) as PL.
      destruct q as [|pq|pq]; try lia.
      change (Zdigits2 (Zpos pq)) with (digits pq) in *.
      pose proof (digits_le pq L G). lia. }
  assert (2 ^ 52 <= M1) as HM52.
  { destruct (Z.leb_spec (2 ^ 52) M1) as [|G]; [assumption|exfalso].
    assert (Zpos my * (2 ^ 52 * 2 ^ p) <= Zpos my * q) as H1
      by (apply Z.mul_le_mono_nonneg_l; lia).
    assert (M1 * (2 ^ p * Zpos my) <= (2 ^ 52 - 1) * (2 ^ p * Zpos my))
      as H2 by (apply Z.mul_le_mono_nonneg_r; lia).
    assert (0 < 2 ^ p * Zpos my) as H3 by lia.
    change (Zpos mx * 2 ^ (ex - ey - e')) with (Zpos mx * 2 ^ sft) in *.
    lia. }
  unfold two53 in *.
  assert (forall (M E : Z),
            M * 2 ^ (E - E1) = M1 -> E1 <= E ->
            forall u : Z, u <= ex -> u <= E + ey ->
            2 * Z.abs (M * Zpos my * 2 ^ (E + ey - u) - Zpos mx * 2 ^ (ex - u))
            <= Zpos my * 2 ^ (E + ey - u)) as Hgen.
  { intros M E HME HEE u Hu1 Hu2.
    pose proof (pow2_pos (E - E1) ltac:(lia)) as PEE.
    (* at the unit [e' + ey] *)
    assert (2 * Z.abs (M * Zpos my * 2 ^ (E - E1) * 2 ^ p - Zpos mx * 2 ^ sft)
            <= Zpos my * 2 ^ (E - E1) * 2 ^ p) as H0.
    { replace (M * Zpos my * 2 ^ (E - E1) * 2 ^ p)
        with (M * 2 ^ (E - E1) * (2 ^ p * Zpos my)) by ring.
      rewrite HME.
      assert (2 ^ p * Zpos my <= Zpos my * 2 ^ (E - E1) * 2 ^ p) as H1.
      { replace (Zpos my * 2 ^ (E - E1) * 2 ^ p)
          with (2 ^ p * Zpos my * 2 ^ (E - E1)) by ring.
        replace (2 ^ p * Zpos my) with (2 ^ p * Zpos my * 1) at 1 by ring.
        apply Z.mul_le_mono_nonneg_l; lia. }
      change (Zpos mx * 2 ^ (ex - ey - e')) with (Zpos mx * 2 ^ sft) in Herr.
      lia. }
    set (u' := e' + ey).
    assert (2 ^ (E - E1) * 2 ^ p = 2 ^ (E + ey - u')) as HP1
      by (rewrite <- Z.pow_add_r by lia; f_equal; unfold u', p; lia).
    assert (sft = ex - u') as HP2 by (unfold sft, u'; lia).
    replace (M * Zpos my * 2 ^ (E - E1) * 2 ^ p)
      with (M * Zpos my * (2 ^ (E - E1) * 2 ^ p)) in H0 by ring.
    replace (Zpos my * 2 ^ (E - E1) * 2 ^ p)
      with (Zpos my * (2 ^ (E - E1) * 2 ^ p)) in H0 by ring.
    rewrite HP1, HP2 in H0.
    destruct (Z.le_gt_cases u u') as [Hle|Hgt].
    - (* a finer unit: multiply *)
      assert (2 ^ (E + ey - u) = 2 ^ (E + ey - u') * 2 ^ (u' - u)) as E1'
        by (rewrite <- Z.pow_add_r by (unfold u' in *; lia); f_equal; lia).
      assert (2 ^ (ex - u) = 2 ^ (ex - u') * 2 ^ (u' - u)) as E2'
        by (rewrite <- Z.pow_add_r by (unfold u' in *; lia); f_equal; lia).
      rewrite E1', E2'.
      replace (M * Zpos my * (2 ^ (E + ey - u') * 2 ^ (u' - u)))
        with (M * Zpos my * 2 ^ (E + ey - u') * 2 ^ (u' - u)) by ring.
      replace (Zpos mx * (2 ^ (ex - u') * 2 ^ (u' - u)))
        with (Zpos mx * 2 ^ (ex - u') * 2 ^ (u' - u)) by ring.
      replace (Zpos my * (2 ^ (E + ey - u') * 2 ^ (u' - u)))
        with (Zpos my * 2 ^ (E + ey - u') * 2 ^ (u' - u)) by ring.
      apply abs_scale_pow; [lia|exact H0].
    - (* a coarser unit: cancel *)
      assert (2 ^ (E + ey - u') = 2 ^ (E + ey - u) * 2 ^ (u - u')) as E1'
        by (rewrite <- Z.pow_add_r by lia; f_equal; lia).
      assert (2 ^ (ex - u') = 2 ^ (ex - u) * 2 ^ (u - u')) as E2'
        by (rewrite <- Z.pow_add_r by lia; f_equal; lia).
      rewrite E1', E2' in H0.
      replace (M * Zpos my * (2 ^ (E + ey - u) * 2 ^ (u - u')))
        with (M * Zpos my * 2 ^ (E + ey - u) * 2 ^ (u - u')) in H0 by ring.
      replace (Zpos mx * (2 ^ (ex - u) * 2 ^ (u - u')))
        with (Zpos mx * 2 ^ (ex - u) * 2 ^ (u - u')) in H0 by ring.
      replace (Zpos my * (2 ^ (E + ey - u) * 2 ^ (u - u')))
        with (Zpos my * 2 ^ (E + ey - u) * 2 ^ (u - u')) in H0 by ring.
      apply abs_scale_pow in H0; [exact H0|lia]. }
  destruct (Z.eqb_spec M1 (2 ^ 53)) as [E53|N53].
  - exists (Z.to_pos (2 ^ 52)), (E1 + 1).
    assert ((E1 + 1 <=? emax - prec) = true) as Hle
      by (apply Z.leb_le; unfold emax, prec; lia).
    split.
    { change (2 ^ 52) with (Zpos (Z.to_pos (2 ^ 52))) at 1.
      cbn [fin_or_inf]. now rewrite Hle. }
    change (Zpos (Z.to_pos (2 ^ 52))) with (2 ^ 52).
    split; [lia|]. split; [lia|].
    apply Hgen; [|lia]. replace (E1 + 1 - E1) with 1 by lia.
    rewrite E53. reflexivity.
  - destruct M1 as [|M|M]; try lia.
    exists M, E1.
    assert ((E1 <=? emax - prec) = true) as Hle
      by (apply Z.leb_le; unfold emax, prec; lia).
    split; [cbn [fin_or_inf]; now rewrite Hle|].
    split; [lia|]. split; [lia|].
    apply Hgen; [|lia]. replace (E1 - E1) with 0 by lia.
    change (2 ^ 0) with 1. lia.
Qed.

(** ** Signs of quotients, magnitudes of converted integers *)

Lemma fdiv_finite_signs (sx sy : bool) (mx my : positive) (ex ey : Z) :
  fdiv (S754_finite sx mx ex) (S754_finite sy my ey)
  = if xorb sx sy
    then SFopp (fdiv (S754_finite false mx ex) (S754_finite false my ey))
    else fdiv (S754_finite false mx ex) (S754_finite false my ey).
Proof.
  unfold fdiv. cbn [SFdiv].
  destruct (SFdiv_core_binary prec emax (Zpos mx) ex (Zpos my) ey)
    as [[mz ez] lz].
  destruct sx, sy; cbn [xorb]; rewrite ?binary_round_aux_opp; reflexivity.
Qed.

(** [(double)i] for [i] not zero: the sign of [i] and a magnitude between
    2^0 and 2^64. *)
Lemma of_int64_magnitude (z : Z) :
  z <> 0 -> - two64 <= z <= two64 ->
  exists m e,
    of_int64 z = S754_finite (z <? 0) m e /\ 1 <= digits m + e <= 65.
Proof.
  assert (forall p : positive, Zpos p <= two64 ->
            exists m e, of_int64 (Zpos p) = S754_finite false m e /\
                        1 <= digits m + e <= 65) as Hpos.
  { intros p Hp.
    destruct (of_int64_pos p Hp) as (m & e & Hm & He & Hv).
    exists m, e. split; [exact Hm|].
    pose proof (rn_mono 0 1 (Zpos p) ltac:(lia)) as H1.
    rewrite (rn_small 1) in H1 by (unfold two53; lia).
    pose proof (rn_mono 0 (Zpos p) two64 ltac:(lia)) as H2.
    rewrite rn_0_two64 in H2.
    destruct (rn 0 (Zpos p)) as [|r|r] eqn:Hr; try lia.
    destruct (Zpos_mul_pow2 m (e + 52) ltac:(lia)) as [n Hn].
    pose proof (digits_shift m (e + 52) n ltac:(lia) Hn) as D1.
    assert (Zpos n = Zpos r * 2 ^ 52) as Hn' by lia.
    pose proof (digits_shift r 52 n ltac:(lia) Hn') as D2.
    pose proof (digits_pos r) as Pr.
    assert (digits r <= 65) as Dr
      by (apply digits_le; unfold two64 in H2; lia).
    lia. }
  intros Hz Hr. destruct z as [|p|p]; [contradiction| |].
  - apply Hpos. lia.
  - destruct (Hpos p ltac:(lia)) as (m & e & Hm & Hd).
    exists m, e. split; [|exact Hd].
    change (Zneg p) with (- Zpos p). rewrite of_int64_opp, Hm by lia.
    reflexivity.
Qed.

(** ** Reciprocals *)

(** The reciprocal of a positive finite double of moderate magnitude. *)
Lemma recip_normal (m : positive) (e : Z) :
  -900 <= digits m + e <= 900 ->
  exists (M : positive) (E : Z),
    fdiv d_one (S754_finite false m e) = S754_finite false M E /\
    2 ^ 52 <= Zpos M < 2 ^ 53 /\
    - (digits m + e) - 52 <= E <= - (digits m + e) - 50 /\
    E + e <= -52 /\
    2 * Z.abs (Zpos M * Zpos m - 2 ^ (- (E + e))) <= Zpos m.
Proof.
  intros Hd. unfold d_one.
  change (digits m + e) with (digits m + e) in Hd.
  destruct (fdiv_normal 4503599627370496 m (-52) e)
    as (M & E & HR & HM & HE & Herr).
  { change (digits 4503599627370496) with 53. lia. }
  change (digits 4503599627370496) with 53 in HE.
  pose proof (digits_pos m) as Dm.
  exists M, E. split; [exact HR|]. split; [exact HM|]. split; [lia|].
  assert (E + e <= -52) as Hle.
  { destruct (Z.leb_spec (E + e) (-52)) as [|G]; [assumption|exfalso].
    assert (E + e = -51) as E51 by lia.
    pose proof (Herr (-52) ltac:(lia) ltac:(lia)) as H.
    replace (E + e - -52) with 1 in H by lia.
    replace (-52 - -52) with 0 in H by lia.
    change (2 ^ 1) with 2 in H. change (2 ^ 0) with 1 in H.
    change (Zpos 4503599627370496) with (2 ^ 52) in H.
    assert (2 ^ 52 * Zpos m <= Zpos M * Zpos m) as H1
      by (apply Z.mul_le_mono_nonneg_r; lia).
    lia. }
  split; [exact Hle|].
  pose proof (Herr (E + e) ltac:(lia) ltac:(lia)) as H.
  replace (E + e - (E + e)) with 0 in H by lia.
  change (2 ^ 0) with 1 in H.
  change (Zpos 4503599627370496) with (2 ^ 52) in H.
  rewrite <- Z.pow_add_r in H by lia.
  replace (52 + (-52 - (E + e))) with (- (E + e)) in H by lia.
  rewrite !Z.mul_1_r in H. exact H.
Qed.

(** Taking the reciprocal twice, with a rounding each time, comes back to
    within 2^-51 of the start, relatively. *)
Lemma recip_recip_close (m M M' : positive) (h h' : Z) :
  0 <= h -> 0 <= h' ->
  2 ^ 52 <= Zpos M < 2 ^ 53 -> 2 ^ 52 <= Zpos M' < 2 ^ 53 ->
  2 * Z.abs (Zpos M * Zpos m - 2 ^ h) <= Zpos m ->
  2 * Z.abs (Zpos M' * Zpos M - 2 ^ h') <= Zpos M ->
  Z.abs (Zpos M' * 2 ^ h - Zpos m * 2 ^ h') * 2 ^ 51 <= Zpos m * 2 ^ h'.
Proof.
  intros Hh Hh' HM HM' H1 H2.
  pose proof (pow2_pos h Hh) as PP. pose proof (pow2_pos h' Hh') as PP'.
  remember (2 ^ h) as P eqn:HP. remember (2 ^ h') as P' eqn:HP'.
  remember (Zpos M * Zpos m - P) as d1 eqn:Hd1.
  remember (Zpos M' * Zpos M - P') as d2 eqn:Hd2.
  remember (Zpos M' * P - Zpos m * P') as Zv eqn:HZv.
  assert (Zpos M * Zv = P * d2 - P' * d1) as Hid by (subst; ring).
  (* 2^h' is at least 2^104 *)
  assert (2 ^ 104 <= P') as HP104.
  { destruct (Z.leb_spec 104 h') as [L|G].
    - subst P'. apply pow2_le. lia.
    - exfalso. assert (P' <= 2 ^ 103) as HB
        by (subst P'; apply pow2_le; lia).
      assert (2 ^ 52 * 2 ^ 52 <= Zpos M' * Zpos M) as HMM
        by (apply Z.mul_le_mono_nonneg; lia).
      lia. }
  (* 2^h is below m * 2^53 *)
  assert (Zpos M * Zpos m <= (2 ^ 53 - 1) * Zpos m) as HMm
    by (apply Z.mul_le_mono_nonneg_r; lia).
  assert (2 * P < Zpos m * 2 ^ 54) as HPm by lia.
  assert (- (P * Zpos M) <= P * (2 * d2) <= P * Zpos M) as B2.
  { split.
    - replace (- (P * Zpos M)) with (P * (- Zpos M)) by ring.
      apply Z.mul_le_mono_nonneg_l; lia.
    - apply Z.mul_le_mono_nonneg_l; lia. }
  assert (- (P' * Zpos m) <= P' * (2 * d1) <= P' * Zpos m) as B1.
  { split.
    - replace (- (P' * Zpos m)) with (P' * (- Zpos m)) by ring.
      apply Z.mul_le_mono_nonneg_l; lia.
    - apply Z.mul_le_mono_nonneg_l; lia. }
  assert (2 * (P * Zpos M) < Zpos m * 2 ^ 54 * Zpos M) as Ha.
  { replace (2 * (P * Zpos M)) with (2 * P * Zpos M) by ring.
    apply Z.mul_lt_mono_pos_r; lia. }
  assert (2 ^ 104 * (Zpos m * Zpos M) <= P' * (Zpos m * Zpos M)) as Hb
    by (apply Z.mul_le_mono_nonneg_r; lia).
  assert (2 ^ 52 * (P' * Zpos m) <= Zpos M * (P' * Zpos m)) as Hc
    by (apply Z.mul_le_mono_nonneg_r; lia).
  assert (- (P * Zpos M + P' * Zpos m) <= 2 * (Zpos M * Zv)
          <= P * Zpos M + P' * Zpos m) as HB.
  { rewrite Hid.
    replace (P * (2 * d2)) with (2 * (P * d2)) in B2 by ring.
    replace (P' * (2 * d1)) with (2 * (P' * d1)) in B1 by ring. lia. }
  destruct (Z.leb_spec (Z.abs Zv * 2 ^ 51) (Zpos m * P')) as [|G];
    [assumption|exfalso].
  assert (Zpos M * (Zpos m * P' + 1) <= Zpos M * (Z.abs Zv * 2 ^ 51)) as HG
    by (apply Z.mul_le_mono_nonneg_l; lia).
  assert (2 * (Zpos M * Z.abs Zv) <= P * Zpos M + P' * Zpos m) as HBabs.
  { destruct (Z.abs_spec Zv) as [[_ ->]|[_ ->]].
    - lia.
    - replace (Zpos M * - Zv) with (- (Zpos M * Zv)) by ring. lia. }
  replace (Zpos M * (Z.abs Zv * 2 ^ 51))
    with (2 ^ 51 * (Zpos M * Z.abs Zv)) in HG by ring.
  replace (Zpos m * 2 ^ 54 * Zpos M) with (2 ^ 54 * (Zpos m * Zpos M))
    in Ha by ring.
  replace (Zpos M * (Zpos m * P' + 1))
    with (P' * (Zpos m * Zpos M) + Zpos M) in HG by ring.
  replace (Zpos M * (P' * Zpos m)) with (P' * (Zpos m * Zpos M)) in Hc
    by ring.
  lia.
Qed.

(** ** Scales that differ by a rounding or two *)

Lemma scales_close_refl (s : double) :
  is_finite s = true -> scales_close s s.
Proof.
  intros Hf. split; [exact Hf|].
  assert (SF2Q s - SF2Q s == 0)%Q as -> by ring.
  change (Qabs 0) with 0%Q.
  apply Qmult_le_0_compat; [apply Qabs_nonneg|discriminate].
Qed.

Lemma SF2Q_units (m : positive) (e c : Z) :
  c <= e -> c <= 0 ->
  (SF2Q (S754_finite false m e)
   == (Zpos m * 2 ^ (e - c)) # (Z.to_pos (2 ^ (- c))))%Q.
Proof.
  intros Hce Hc0. pose proof (pow2_pos (- c) ltac:(lia)) as PC.
  pose proof (pow2_pos (e - c) ltac:(lia)) as PEC.
  unfold SF2Q, Qeq. destruct (Z.leb_spec 0 e) as [He|He];
    cbn [cond_Zopp inject_Z Qnum Qden].
  - rewrite Z2Pos.id by lia.
    assert (2 ^ (e - c) = 2 ^ e * 2 ^ (- c)) as ->
      by (rewrite <- Z.pow_add_r by lia; f_equal; lia).
    lia.
  - pose proof (pow2_pos (- e) ltac:(lia)) as PE.
    rewrite !Z2Pos.id by lia.
    assert (2 ^ (- c) = 2 ^ (e - c) * 2 ^ (- e)) as ->
      by (rewrite <- Z.pow_add_r by lia; f_equal; lia).
    lia.
Qed.

Lemma Q_close_units (A B : Z) (P : positive) :
  0 <= B -> Z.abs (A - B) * 2 ^ 51 <= B ->
  (Qabs ((A # P) - (B # P)) <= Qabs (B # P) * scale_tolerance)%Q.
Proof.
  intros HB H. unfold scale_tolerance, Qle, Qabs, Qminus, Qplus, Qopp, Qmult.
  cbn [Qnum Qden]. rewrite (Z.abs_eq B) by lia.
  rewrite !Pos2Z.inj_mul.
  replace (A * Zpos P + - B * Zpos P) with ((A - B) * Zpos P) by ring.
  rewrite Z.abs_mul, (Z.abs_eq (Zpos P)) by lia.
  change (Zpos 2251799813685248) with (2 ^ 51).
  replace (Z.abs (A - B) * Zpos P * (Zpos P * 2 ^ 51))
    with (Z.abs (A - B) * 2 ^ 51 * (Zpos P * Zpos P)) by ring.
  replace (B * 1 * (Zpos P * Zpos P)) with (B * (Zpos P * Zpos P)) by ring.
  apply Z.mul_le_mono_nonneg_r; lia.
Qed.

(** A positive normalised scale, its reciprocal and the reciprocal of
    that. *)
Lemma recip_recip_scales_close (m : positive) (e : Z) :
  -800 <= digits m + e <= 800 ->
  exists (Mg : positive) (Eg : Z),
    fdiv d_one (S754_finite false m e) = S754_finite false Mg Eg /\
    scales_close (S754_finite false m e)
      (fdiv d_one (S754_finite false Mg Eg)).
Proof.
  intros Hd.
  destruct (recip_normal m e ltac:(lia))
    as (Mg & Eg & Hg & HMg & HEg & Hge & H1).
  assert (digits Mg = 53) as DMg
    by (apply digits_unique; change (53 - 1) with 52; exact HMg).
  destruct (recip_normal Mg Eg ltac:(lia))
    as (M' & E' & Hs' & HM' & HE' & Hse & H2).
  exists Mg, Eg. split; [exact Hg|]. rewrite Hs'.
  split; [reflexivity|].
  pose proof (recip_recip_close m Mg M' (- (Eg + e)) (- (E' + Eg))
                ltac:(lia) ltac:(lia) HMg HM' H1 H2) as Hc.
  set (c := Z.min (Z.min e E') 0).
  rewrite (SF2Q_units M' E' c), (SF2Q_units m e c) by (unfold c; lia).
  pose proof (pow2_pos (e - c) ltac:(unfold c; lia)) as P1.
  pose proof (pow2_pos (E' - c) ltac:(unfold c; lia)) as P2.
  apply Q_close_units; [lia|].
  (* bring both mantissas to the unit [2^c] *)
  set (h := - (Eg + e)) in *. set (h' := - (E' + Eg)) in *.
  pose proof (pow2_pos h ltac:(unfold h; lia)) as Ph.
  pose proof (pow2_pos h' ltac:(unfold h'; lia)) as Ph'.
  assert (2 ^ (E' - c) * 2 ^ h' = 2 ^ (e - c) * 2 ^ h) as Hexp
    by (rewrite <- !Z.pow_add_r by (unfold h, h', c; lia);
        f_equal; unfold h, h'; lia).
  apply (Z.mul_le_mono_pos_r _ _ (2 ^ h')); [lia|].
  assert ((Zpos M' * 2 ^ (E' - c) - Zpos m * 2 ^ (e - c)) * 2 ^ h'
          = 2 ^ (e - c) * (Zpos M' * 2 ^ h - Zpos m * 2 ^ h')) as Hid.
  { replace ((Zpos M' * 2 ^ (E' - c) - Zpos m * 2 ^ (e - c)) * 2 ^ h')
      with (Zpos M' * (2 ^ (E' - c) * 2 ^ h')
            - Zpos m * 2 ^ (e - c) * 2 ^ h') by ring.
    rewrite Hexp. ring. }
  replace (Z.abs (Zpos M' * 2 ^ (E' - c) - Zpos m * 2 ^ (e - c))
           * 2 ^ 51 * 2 ^ h')
    with (Z.abs ((Zpos M' * 2 ^ (E' - c) - Zpos m * 2 ^ (e - c)) * 2 ^ h')
          * 2 ^ 51)
    by (rewrite Z.abs_mul, (Z.abs_eq (2 ^ h')) by lia; ring).
  rewrite Hid, Z.abs_mul, (Z.abs_eq (2 ^ (e - c))) by lia.
  replace (2 ^ (e - c) * Z.abs (Zpos M' * 2 ^ h - Zpos m * 2 ^ h') * 2 ^ 51)
    with (2 ^ (e - c)
          * (Z.abs (Zpos M' * 2 ^ h - Zpos m * 2 ^ h') * 2 ^ 51)) by ring.
  replace (Zpos m * 2 ^ (e - c) * 2 ^ h')
    with (2 ^ (e - c) * (Zpos m * 2 ^ h')) by ring.
  apply Z.mul_le_mono_nonneg_l; lia.
Qed.

(** The scale [calibrate] derives, when it is finite, and the scale [init]
    writes when given the frequency [calibrate] returns. *)
Lemma reinit_scale_close (a b : Z) :
  is_i64 a -> is_i64 b ->
  is_finite (fdiv (of_int64 a) (of_int64 b)) = true ->
  fleb (fdiv d_one (fdiv (of_int64 a) (of_int64 b))) d_zero = true \/
  (fleb (fdiv d_one (fdiv (of_int64 a) (of_int64 b))) d_zero = false /\
   scales_close (fdiv (of_int64 a) (of_int64 b))
     (fdiv d_one (fdiv d_one (fdiv (of_int64 a) (of_int64 b))))).
Proof.
  intros Ha Hb Hf. unfold is_i64 in *.
  assert (two63 < two64) as H6364 by reflexivity.
  destruct (Z.eq_dec b 0) as [->|Hb0].
  { (* a zero divisor gives no finite scale *)
    exfalso. change (of_int64 0) with (S754_zero false) in Hf.
    destruct (of_int64_finite a ltac:(lia)) as [[_ E]|(s & m & e & E)];
      rewrite E in Hf; discriminate Hf. }
  destruct (of_int64_magnitude b Hb0 ltac:(lia)) as (mb & eb & Eb & Db).
  destruct (Z.eq_dec a 0) as [->|Ha0].
  { (* a zero dividend: the scale is a zero, the frequency an infinity *)
    change (of_int64 0) with (S754_zero false). rewrite Eb.
    destruct (b <? 0); [left; reflexivity|right].
    split; [reflexivity|]. apply scales_close_refl. reflexivity. }
  destruct (of_int64_magnitude a Ha0 ltac:(lia)) as (ma & ea & Ea & Da).
  rewrite Ea, Eb, fdiv_finite_signs.
  destruct (fdiv_normal ma mb ea eb ltac:(lia))
    as (M & E & -> & HM & HE & _).
  assert (digits M = 53) as DM
    by (apply digits_unique; change (53 - 1) with 52; exact HM).
  destruct (recip_recip_scales_close M E ltac:(lia))
    as (Mg & Eg & Hg & Hclose).
  destruct (xorb (a <? 0) (b <? 0)).
  - (* a negative scale: [init] returns before writing it *)
    left. cbn [SFopp negb]. unfold d_one. rewrite fdiv_finite_signs.
    cbn [xorb]. fold d_one. rewrite Hg. reflexivity.
  - right. rewrite Hg. split; [reflexivity|exact Hclose].
Qed.

(** ** What [calibrate] has done when it returns *)

Lemma scaled_finite (inv : double) (tsc x : Z) :
  scaled inv tsc = Some x -> is_finite inv = true.
Proof.
  intros H. destruct (is_finite inv) eqn:Hf; [reflexivity|].
  rewrite scaled_not_finite in H by exact Hf. discriminate H.
Qed.

Lemma pair_inj {A B : Type} (a a' : A) (b b' : B) :
  (a, b) = (a', b') -> a = a' /\ b = b'.
Proof. intros H. now inversion H. Qed.

Lemma calibrate_undefined_eq (w : World) (t : TSCNS) :
  scaled (derived_inv t (probe_tsc w) (probe_ns w)) (base_tsc t) = None ->
  calibrate w t = None.
Proof.
  intros Hx. unfold calibrate. rewrite syncTime_probe.
  unfold adjustOffset. cbn [set_inv tsc_ghz_inv base_tsc].
  now rewrite Hx.
Qed.

(** What a call of [calibrate] that returns has done. *)
Lemma calibrate_cases (w w1 : World) (t t1 : TSCNS) (f : double) :
  calibrate w t = Some (f, t1, w1) ->
  exists x : Z,
    scaled (derived_inv t (probe_tsc w) (probe_ns w)) (base_tsc t) = Some x /\
    f = fdiv d_one (derived_inv t (probe_tsc w) (probe_ns w)) /\
    t1 = {| tsc_ghz_inv := derived_inv t (probe_tsc w) (probe_ns w);
            ns_offset := wrap64 (base_ns t - x);
            base_tsc := base_tsc t; base_ns := base_ns t |} /\
    w1 = after_probe w.
Proof.
  intros H.
  destruct (scaled (derived_inv t (probe_tsc w) (probe_ns w)) (base_tsc t))
    as [x|] eqn:Hx.
  - rewrite (calibrate_eq w t x Hx) in H.
    apply Some_pair_inj in H as [H <-].
    apply pair_inj in H as [<- <-]. exists x.
    split; [reflexivity|]. split; [reflexivity|]. split; reflexivity.
  - rewrite (calibrate_undefined_eq w t Hx) in H. discriminate H.
Qed.

Lemma derived_inv_reinit (t : TSCNS) (ptsc pns : Z) :
  is_finite (derived_inv t ptsc pns) = true ->
  fleb (fdiv d_one (derived_inv t ptsc pns)) d_zero = true \/
  (fleb (fdiv d_one (derived_inv t ptsc pns)) d_zero = false /\
   scales_close (derived_inv t ptsc pns)
     (fdiv d_one (fdiv d_one (derived_inv t ptsc pns)))).
Proof.
  unfold derived_inv. apply reinit_scale_close; apply signed64_range.
Qed.

(** ** Scales of at most a power of two *)

(** Rounding an integer commutes with a multiplication by a power of two. *)
Lemma rn_pow2_mul (j : Z) (p : positive) :
  0 <= j -> rn 0 (Zpos p * 2 ^ j) = rn 0 (Zpos p) * 2 ^ j.
Proof.
  intros Hj. pose proof (rn_align j 0 p Hj) as H.
  replace (j - 0) with j in H by lia. rewrite H. f_equal.
  rewrite !rn_pos_eq. pose proof (digits_pos p) as Dp.
  destruct (Z.leb_spec (Z.max (digits p + j - 53) (-1074)) j),
           (Z.leb_spec (Z.max (digits p + 0 - 53) (-1074)) 0);
    try lia; try reflexivity.
  replace (Z.max (digits p + j - 53) (-1074) - j) with (digits p - 53)
    by lia.
  replace (Z.max (digits p + 0 - 53) (-1074) - 0) with (digits p - 53)
    by lia.
  reflexivity.
Qed.

Lemma rn_0_pow2 (k : Z) : 0 <= k -> rn 0 (2 ^ k) = 2 ^ k.
Proof.
  intros Hk. pose proof (rn_pow2_mul k 1 Hk) as H.
  rewrite Z.mul_1_l in H. rewrite H.
  rewrite (rn_small 1) by (unfold two53; lia). lia.
Qed.

(** The scale of a calibration over [dt] ticks and [0 < dn <= 2^j * dt]
    nanoseconds: a normalised double of at most [2^j]. *)
Lemma ratio_le_pow (dn dt j : Z) :
  0 < dn <= two64 -> 0 < dt <= two64 -> 0 <= j <= 62 ->
  dn <= 2 ^ j * dt ->
  exists ms es,
    ratio dn dt = S754_finite false ms es /\
    2 ^ 52 <= Zpos ms < 2 ^ 53 /\
    es <= j - 52 /\ Zpos ms <= 2 ^ (j - es).
Proof.
  intros Hn Ht Hj Hle. unfold ratio.
  destruct dt as [|pt|pt]; try lia. destruct dn as [|pn|pn]; try lia.
  destruct (of_int64_pos pt ltac:(lia)) as (my & ey & Ey & Hey & Hvy).
  destruct (of_int64_pos pn ltac:(lia)) as (mx & ex & Ex & Hex & Hvx).
  destruct (of_int64_magnitude (Zpos pt) ltac:(lia) ltac:(unfold two64 in *; lia))
    as (my' & ey' & Ey' & Dy).
  destruct (of_int64_magnitude (Zpos pn) ltac:(lia) ltac:(unfold two64 in *; lia))
    as (mx' & ex' & Ex' & Dx).
  rewrite Ey in Ey'. rewrite Ex in Ex'.
  change (Zpos pt <? 0) with false in Ey'.
  change (Zpos pn <? 0) with false in Ex'.
  injection Ey' as <- <-. injection Ex' as <- <-.
  rewrite Ex, Ey.
  pose proof (pow2_pos j ltac:(lia)) as PJ.
  (* the rounded operands are in the same relation *)
  assert (rn 0 (Zpos pn) <= rn 0 (Zpos pt) * 2 ^ j) as HR.
  { rewrite <- rn_pow2_mul by lia. apply rn_mono. lia. }
  pose proof (pow2_pos (ex + 52) ltac:(lia)) as PA.
  pose proof (pow2_pos (ey + 52) ltac:(lia)) as PB.
  assert (Zpos mx * 2 ^ (ex + 52) <= Zpos my * 2 ^ (ey + 52) * 2 ^ j) as HXY.
  { rewrite Hvx, Hvy.
    replace (rn 0 (Zpos pt) * 2 ^ 52 * 2 ^ j)
      with (rn 0 (Zpos pt) * 2 ^ j * 2 ^ 52) by ring.
    apply Z.mul_le_mono_nonneg_r; lia. }
  assert (digits mx + ex <= digits my + (ey + j)) as HD.
  { apply (magnitude_le mx my ex (ey + j) (-52)); [lia|lia|].
    replace (ex - -52) with (ex + 52) by lia.
    replace (ey + j - -52) with (ey + 52 + j) by lia.
    rewrite (Z.pow_add_r 2 (ey + 52) j) by lia. lia. }
  destruct (fdiv_normal mx my ex ey ltac:(lia))
    as (M & E & -> & HM & HE & Herr).
  exists M, E. split; [reflexivity|]. split; [exact HM|].
  assert (0 <= j - E) as HjE by lia.
  pose proof (pow2_pos (j - E) HjE) as PJE.
  assert (Zpos M <= 2 ^ (j - E)) as HMle.
  { destruct (Z.leb_spec (Zpos M) (2 ^ (j - E))) as [|G];
      [assumption|exfalso].
    set (u := Z.min (-52) (E + ey)).
    pose proof (Herr u ltac:(unfold u; lia) ltac:(unfold u; lia)) as H.
    pose proof (pow2_pos (E + ey - u) ltac:(unfold u; lia)) as PT.
    pose proof (pow2_pos (-52 - u) ltac:(unfold u; lia)) as PU.
    assert (2 ^ (ex - u) = 2 ^ (ex + 52) * 2 ^ (-52 - u)) as E1
      by (rewrite <- Z.pow_add_r by (unfold u; lia); f_equal; lia).
    assert (2 ^ (E + ey - u) * 2 ^ (j - E)
            = 2 ^ (ey + 52) * 2 ^ j * 2 ^ (-52 - u)) as E2
      by (rewrite <- !Z.pow_add_r by (unfold u; lia); f_equal; lia).
    remember (Zpos my * 2 ^ (E + ey - u)) as T eqn:HT.
    assert (0 < T) as PTT by (subst T; lia).
    assert (Zpos mx * 2 ^ (ex - u) <= T * 2 ^ (j - E)) as HXT.
    { subst T. rewrite E1.
      replace (Zpos my * 2 ^ (E + ey - u) * 2 ^ (j - E))
        with (Zpos my * (2 ^ (E + ey - u) * 2 ^ (j - E))) by ring.
      rewrite E2.
      replace (Zpos mx * (2 ^ (ex + 52) * 2 ^ (-52 - u)))
        with (Zpos mx * 2 ^ (ex + 52) * 2 ^ (-52 - u)) by ring.
      replace (Zpos my * (2 ^ (ey + 52) * 2 ^ j * 2 ^ (-52 - u)))
        with (Zpos my * 2 ^ (ey + 52) * 2 ^ j * 2 ^ (-52 - u)) by ring.
      apply Z.mul_le_mono_nonneg_r; lia. }
    replace (Zpos M * Zpos my * 2 ^ (E + ey - u))
      with (Zpos M * T) in H by (subst T; ring).
    assert ((2 ^ (j - E) + 1) * T <= Zpos M * T) as HMT
      by (apply Z.mul_le_mono_nonneg_r; lia).
    lia. }
  split; [|exact HMle].
  destruct (Z.leb_spec 52 (j - E)) as [|G]; [lia|exfalso].
  pose proof (pow2_le (j - E) 51 ltac:(lia)) as H51.
  assert (2 ^ 51 < 2 ^ 52) by (apply pow2_lt; lia). lia.
Qed.

(** With a scale of at most [2^j] the cast is defined up to [2^k] ticks,
    [j + k <= 62]. *)
Lemma scaled_le_pow (ms : positive) (es a j k : Z) :
  0 <= j -> 0 <= k -> j + k <= 62 ->
  es <= j - 52 -> Zpos ms <= 2 ^ (j - es) -> 0 <= a <= 2 ^ k ->
  exists x, scaled (S754_finite false ms es) a = Some x /\ 0 <= x <= two62.
Proof.
  intros Hj Hk Hjk Hes Hms Ha.
  assert (two62 < two63) as H6263 by reflexivity.
  pose proof (pow2_le k 62 ltac:(lia)) as Hk62.
  change (2 ^ 62) with two62 in Hk62.
  rewrite scaled_spec by lia.
  pose proof (scaled_value_mono ms es 0 a ltac:(lia)) as [_ H0].
  assert (scaled_value ms es a <= two62) as Hle.
  { unfold scaled_value, scaled_units.
    assert (unit_exp es = es - 52) as -> by (unfold unit_exp; lia).
    replace (es - (es - 52)) with 52 by lia.
    pose proof (pow2_pos (- (es - 52)) ltac:(lia)) as PU.
    pose proof (pow2_pos (j - es) ltac:(lia)) as PE.
    pose proof (pow2_pos k Hk) as PK.
    pose proof (rn_mono 0 a (2 ^ k) ltac:(lia)) as Hr.
    rewrite rn_0_pow2 in Hr by lia.
    pose proof (rn_nonneg 0 a ltac:(lia)) as Hr0.
    assert (2 ^ k * 2 ^ (j - es) * 2 ^ 52 <= two62 * 2 ^ (- (es - 52)))
      as HB.
    { rewrite <- !Z.pow_add_r by lia.
      replace (k + (j - es) + 52) with (k + j + - (es - 52)) by lia.
      rewrite Z.pow_add_r by lia.
      apply Z.mul_le_mono_nonneg_r; [lia|].
      change two62 with (2 ^ 62). apply pow2_le. lia. }
    assert (0 <= rn 0 a * Zpos ms * 2 ^ 52 <= two62 * 2 ^ (- (es - 52)))
      as Hn.
    { split; [lia|].
      assert (rn 0 a * Zpos ms <= 2 ^ k * 2 ^ (j - es)) as H
        by (apply Z.mul_le_mono_nonneg; lia).
      assert (rn 0 a * Zpos ms * 2 ^ 52 <= 2 ^ k * 2 ^ (j - es) * 2 ^ 52)
        by (apply Z.mul_le_mono_nonneg_r; lia).
      lia. }
    pose proof (rn_mono (es - 52) _ _ Hn) as Hm.
    pose proof (rn_align 0 (es - 52) (Z.to_pos two62) ltac:(lia)) as HA.
    change (Zpos (Z.to_pos two62)) with two62 in HA.
    replace (0 - (es - 52)) with (- (es - 52)) in HA by lia.
    rewrite HA, rn_0_two62 in Hm.
    apply Z.div_le_upper_bound; lia. }
  destruct (Z.ltb_spec (scaled_value ms es a) two63); [|lia].
  eexists. split; [reflexivity|].
  pose proof (scaled_value_mono ms es a a ltac:(lia)). lia.
Qed.

Lemma fmul_opp_r (x y : double) : fmul x (SFopp y) = SFopp (fmul x y).
Proof.
  unfold fmul.
  destruct x as [sx|sx| |sx mx ex], y as [sy|sy| |sy my ey];
    cbn [SFopp SFmul]; try reflexivity;
    try (destruct sx, sy; reflexivity).
  destruct sx, sy; cbn [negb xorb];
    rewrite binary_round_aux_opp; now rewrite ?SFopp_involutive.
Qed.

Lemma scaled_opp_scale (inv : double) (a x : Z) :
  scaled inv a = Some x -> - two63 < x ->
  scaled (SFopp inv) a = Some (- x).
Proof.
  unfold scaled. intros H Hx. rewrite fmul_opp_r.
  now apply to_int64_opp.
Qed.

(** The scale [calibrate] derives over [dt > 0] ticks from a wall clock
    that moved, forward or backward, by at most [2^j] nanoseconds per tick,
    and the product it forms with a base of at most [2^k] ticks. *)
Lemma derived_scale_defined (dn dt a j k : Z) :
  0 < dt < two63 -> is_i64 dn -> Z.abs dn <= 2 ^ j * dt ->
  0 <= j -> 0 <= k -> j + k <= 62 -> 0 <= a <= 2 ^ k ->
  exists x,
    scaled (fdiv (of_int64 dn) (of_int64 dt)) a = Some x /\
    is_finite (fdiv (of_int64 dn) (of_int64 dt)) = true.
Proof.
  intros Ht Hn Hle Hj Hk Hjk Ha. unfold is_i64 in Hn.
  assert (two62 < two63 /\ two63 < two64) as [H6263 H6364]
    by (split; reflexivity).
  pose proof (pow2_le k 62 ltac:(lia)) as Hk62.
  change (2 ^ 62) with two62 in Hk62.
  destruct (Z.compare_spec dn 0) as [->|Hneg|Hpos].
  - (* the wall clock did not move *)
    destruct (of_int64_positive dt ltac:(lia)) as (my & ey & ->).
    change (of_int64 0) with (S754_zero false).
    exists 0. split; [apply scaled_zero; lia|reflexivity].
  - (* the wall clock went back *)
    destruct (ratio_le_pow (- dn) dt j ltac:(lia) ltac:(lia) ltac:(lia)
                ltac:(lia)) as (ms & es & Hr & HM & Hes & Hms).
    destruct (scaled_le_pow ms es a j k Hj Hk Hjk Hes Hms Ha)
      as (x & Hx & Hxr).
    unfold ratio in Hr.
    replace dn with (- - dn) by lia.
    rewrite (of_int64_opp (- dn)) by lia.
    destruct (of_int64_positive (- dn) ltac:(lia)) as (mx & ex & Ex).
    destruct (of_int64_positive dt ltac:(lia)) as (my & ey & Ey).
    rewrite Ex, Ey in *. cbn [SFopp negb].
    rewrite fdiv_finite_signs. cbn [xorb]. rewrite Hr.
    exists (- x). split; [|reflexivity].
    change (S754_finite true ms es) with (SFopp (S754_finite false ms es)).
    apply scaled_opp_scale; [exact Hx|lia].
  - destruct (ratio_le_pow dn dt j ltac:(lia) ltac:(lia) ltac:(lia)
                ltac:(lia)) as (ms & es & Hr & HM & Hes & Hms).
    destruct (scaled_le_pow ms es a j k Hj Hk Hjk Hes Hms Ha)
      as (x & Hx & Hxr).
    unfold ratio in Hr. rewrite Hr.
    exists x. split; [exact Hx|reflexivity].
Qed.

Lemma derived_inv_defined (t : TSCNS) (ptsc pns j k : Z) :
  0 <= base_tsc t < ptsc -> ptsc < two62 ->
  0 <= j -> 0 <= k -> j + k <= 62 ->
  base_tsc t <= 2 ^ k ->
  Z.abs (signed64 (wrap64 (pns - base_ns t))) <= 2 ^ j * (ptsc - base_tsc t) ->
  exists x,
    scaled (derived_inv t ptsc pns) (base_tsc t) = Some x /\
    is_finite (derived_inv t ptsc pns) = true.
Proof.
  intros Hb Hp Hj Hk Hjk Hbk Hle.
  assert (two62 < two63) as H6263 by reflexivity.
  unfold derived_inv.
  rewrite (signed64_diff ptsc (base_tsc t)) by (unfold is_i64; lia).
  apply (derived_scale_defined _ _ _ j k); try assumption; try lia.
  apply signed64_range.
Qed.

(** Equal tick values at the two probes: the divisor is zero and the
    quotient is an infinity or a NaN. *)
Lemma derived_inv_zero_divisor (t : TSCNS) (ptsc pns : Z) :
  ptsc = base_tsc t -> is_finite (derived_inv t ptsc pns) = false.
Proof.
  intros ->. unfold derived_inv. rewrite Z.sub_diag.
  change (of_int64 (signed64 (wrap64 0))) with (S754_zero false).
  destruct (of_int64_finite _
              (signed64_bounds (wrap64 (pns - base_ns t))))
    as [[_ ->]|(s & m & e & ->)]; reflexivity.
Qed.

(** * The claims *)

(** ** C1: conversion *)

(** C1 (as amended): [tsc2ns] returns [ns_offset] plus the double product
    of the tick count, read as a signed 64-bit integer, and [tsc_ghz_inv],
    truncated toward zero (not rounded to nearest), the sum taken modulo
    2^64; this whenever the product is finite and its integer part fits
    [int64_t]. *)
Theorem tsc2ns_truncates (t : TSCNS) (tsc : Z) :
  is_finite (product (tsc_ghz_inv t) tsc) = true ->
  is_i64 (Qtrunc (SF2Q (product (tsc_ghz_inv t) tsc))) ->
  tsc2ns t tsc =
  Some (wrap64 (ns_offset t + Qtrunc (SF2Q (product (tsc_ghz_inv t) tsc)))).
Proof.
  intros Hf Hr. unfold tsc2ns, scaled. fold (product (tsc_ghz_inv t) tsc).
  now rewrite (to_int64_trunc _ _ (trunc_double_Qtrunc _ Hf) Hr).
Qed.

Lemma tsc2ns_truncates_witness :
  tsc2ns {| tsc_ghz_inv := fdiv d_one (of_int64 4); ns_offset := 4749;
            base_tsc := 1005; base_ns := 5000 |} 1003 = Some 4999.
Proof.
  apply (tsc2ns_truncates
           {| tsc_ghz_inv := fdiv d_one (of_int64 4); ns_offset := 4749;
              base_tsc := 1005; base_ns := 5000 |} 1003).
  - reflexivity.
  - crunch.
Defined.

(** C1 fails as stated: after [init(4.0)] one tick is a quarter of a
    nanosecond; three ticks are 0.75 ns, which the cast truncates to 0 where
    rounding to nearest gives 1. *)
Lemma tsc2ns_not_nearest :
  exists t w',
    init (of_int64 4) (linear_world 1000 10 5000 20) fresh = Some (t, w') /\
    tsc2ns t 3 = Some 4749 /\
    convert_nearest t 3 = 4750.
Proof.
  eexists. eexists. split; [vm_compute; reflexivity|].
  split; vm_compute; reflexivity.
Qed.

(** ** C2: the probe *)

(** C2 (as amended): [syncTime] consumes eleven counter readings and ten
    wall-clock readings, selects the first round among 1..10 whose delta
    [tscs[i] - tscs[i-1]] (a [uint64_t], so taken modulo 2^64) is least, and
    returns the wall-clock reading of that round together with the sum of the
    two counter readings around it, reduced modulo 2^64, halved: this is the
    midpoint when the sum is below 2^64 and the midpoint less 2^63
    otherwise. *)
Theorem syncTime_selects_min_delta (w : World) :
  exists best,
    is_best w N best /\
    syncTime w =
      (wrap64 (tsc_at w best + tsc_at w (best - 1)) / 2,
       ns_at w (best - 1), skip w (S N) N) /\
    fst (fst (syncTime w)) =
      (if tsc_at w best + tsc_at w (best - 1) <? two64
       then (tsc_at w best + tsc_at w (best - 1)) / 2
       else (tsc_at w best + tsc_at w (best - 1)) / 2 - two63).
Proof.
  exists (best_round w). split; [apply best_round_is_best|].
  rewrite syncTime_eq, Z.shiftr_div_pow2 by lia.
  change (2 ^ 1) with 2. split; [reflexivity|]. cbn [fst].
  pose proof (tsc_at_range w (best_round w)) as Ha.
  pose proof (tsc_at_range w (best_round w - 1)) as Hb.
  set (a := tsc_at w (best_round w)) in *.
  set (b := tsc_at w (best_round w - 1)) in *.
  unfold is_u64 in *. rewrite two64_eq in *.
  destruct (Z.ltb_spec (a + b) (2 * two63)) as [Hlt|Hge].
  - rewrite wrap64_small; [reflexivity|].
    unfold is_u64. rewrite two64_eq. lia.
  - unfold wrap64. rewrite two64_eq.
    replace ((a + b) mod (2 * two63)) with (a + b - 2 * two63).
    + replace (a + b - 2 * two63) with (a + b + (- two63) * 2) by lia.
      rewrite Z.div_add by lia. lia.
    + apply Z.mod_unique with (q := 1); lia.
Qed.

(** C2 fails as stated: with every counter reading equal to 2^63 the sum of
    two readings is 2^64, which a [uint64_t] holds as 0, so the ticks
    returned are 0 and not the midpoint 2^63. *)
Lemma syncTime_midpoint_wraps :
  ~ sync_midpoint_exact (linear_world two63 0 0 0).
Proof.
  intros (best & Hb & Hm & _).
  assert (best = best_round (linear_world two63 0 0 0)) as ->
    by (eapply is_best_unique; [exact Hb|apply best_round_is_best]).
  vm_compute in Hm. discriminate Hm.
Qed.

(** ** C3, C4: calibration *)

Lemma derived_inv_ratio (w : World) (t : TSCNS) :
  is_i64 (ns_elapsed w t) -> is_i64 (tsc_elapsed w t) ->
  derived_inv t (probe_tsc w) (probe_ns w)
  = ratio (ns_elapsed w t) (tsc_elapsed w t).
Proof.
  intros Hn Ht. unfold derived_inv, ratio.
  rewrite (signed64_diff (probe_ns w) (base_ns t) Hn).
  rewrite (signed64_diff (probe_tsc w) (base_tsc t) Ht).
  reflexivity.
Qed.

(** C3: when both elapsed differences fit [int64_t], [calibrate] sets
    [tsc_ghz_inv] to the double quotient of the elapsed nanoseconds by the
    elapsed ticks and returns one divided by it.  For 1,000,000,000 ns over
    3,000,000,000 ticks the quotient is the double [1.0 / 3.0], within 2^-54
    of 1/3, the value returned is the double 3.0, and the cast in
    [adjustOffset] is defined for every [base_tsc] up to 2^62. *)
Theorem calibrate_derives_scale (w : World) (t : TSCNS) (x : Z) :
  is_i64 (ns_elapsed w t) ->
  is_i64 (tsc_elapsed w t) ->
  scaled (ratio (ns_elapsed w t) (tsc_elapsed w t)) (base_tsc t) = Some x ->
  (exists t',
     calibrate w t
     = Some (fdiv d_one (ratio (ns_elapsed w t) (tsc_elapsed w t)), t',
             after_probe w) /\
     tsc_ghz_inv t' = ratio (ns_elapsed w t) (tsc_elapsed w t)) /\
  ratio 1000000000 3000000000 = d_third /\
  fdiv d_one (ratio 1000000000 3000000000) = d_three /\
  (Qabs (SF2Q d_third - (1 # 3)) < 1 # 18014398509481984)%Q /\
  (forall a, 0 <= a <= two62 ->
             exists y, scaled d_third a = Some y /\ 0 <= y <= two62).
Proof.
  intros Hn Ht Hx. split.
  - rewrite <- derived_inv_ratio in * by assumption.
    eexists. rewrite (calibrate_eq w t x Hx). split; reflexivity.
  - do 3 (split; [crunch|]).
    intros a Ha. change d_third with (S754_finite false 6004799503160661 (-54)).
    apply scaled_le_one; [lia|crunch|assumption].
Qed.

Lemma calibrate_derives_scale_witness :
  exists t',
    calibrate (skip (two_probe_world 1000000000 4000000000 5000 1000005000)
                 11 10)
      {| tsc_ghz_inv := d_one; ns_offset := 0;
         base_tsc := 1000000015; base_ns := 5000 |}
    = Some (d_three, t',
            skip (two_probe_world 1000000000 4000000000 5000 1000005000)
              22 20) /\
    tsc_ghz_inv t' = d_third.
Proof.
  exact (proj1 (calibrate_derives_scale
    (skip (two_probe_world 1000000000 4000000000 5000 1000005000) 11 10)
    {| tsc_ghz_inv := d_one; ns_offset := 0;
       base_tsc := 1000000015; base_ns := 5000 |}
    333333338 ltac:(crunch) ltac:(crunch) ltac:(crunch))).
Defined.

(** C4: [calibrate] keeps the base pair, recomputes [ns_offset] from it as
    [base_ns] less the scaled [base_tsc], and afterwards [tsc2ns] maps
    [base_tsc] back to [base_ns]. *)
Theorem calibrate_recovers_anchor (w : World) (t : TSCNS) (x : Z) :
  wf t ->
  scaled (derived_inv t (probe_tsc w) (probe_ns w)) (base_tsc t) = Some x ->
  exists f t',
    calibrate w t = Some (f, t', after_probe w) /\
    base_tsc t' = base_tsc t /\
    base_ns t' = base_ns t /\
    ns_offset t' = wrap64 (base_ns t - x) /\
    scaled (tsc_ghz_inv t') (base_tsc t) = Some x /\
    tsc2ns t' (base_tsc t) = Some (base_ns t).
Proof.
  intros (_ & _ & Hns) Hx. eexists. eexists.
  rewrite (calibrate_eq w t x Hx).
  split; [reflexivity|]. cbn [base_tsc base_ns ns_offset tsc_ghz_inv].
  repeat split; try assumption.
  unfold tsc2ns. cbn [tsc_ghz_inv ns_offset]. rewrite Hx.
  now rewrite wrap64_sub_add, wrap64_small.
Qed.

Lemma calibrate_recovers_anchor_witness :
  exists f t',
    calibrate (skip (two_probe_world 1000000000 7000000000
                       5000000000 7000000000) 11 10)
      {| tsc_ghz_inv := d_one; ns_offset := 0;
         base_tsc := 1000000015; base_ns := 5000000000 |}
    = Some (f, t',
            after_probe (skip (two_probe_world 1000000000 7000000000
                                 5000000000 7000000000) 11 10)) /\
    base_tsc t' = 1000000015 /\
    base_ns t' = 5000000000 /\
    ns_offset t' = wrap64 (5000000000 - 333333338) /\
    scaled (tsc_ghz_inv t') 1000000015 = Some 333333338 /\
    tsc2ns t' 1000000015 = Some 5000000000.
Proof.
  apply (calibrate_recovers_anchor
    (skip (two_probe_world 1000000000 7000000000 5000000000 7000000000)
       11 10)
    {| tsc_ghz_inv := d_one; ns_offset := 0;
       base_tsc := 1000000015; base_ns := 5000000000 |}
    333333338).
  - unfold wf, is_u64. cbn. repeat split; try lia; reflexivity.
  - crunch.
Defined.

(** ** C5: re-initialisation *)

(** A second [init] with the argument of the first writes the scale the
    first wrote. *)
Lemma init_same_argument (g : double) (w : World) (t : TSCNS) (x : Z) :
  fleb g d_zero = false ->
  tsc_ghz_inv t = fdiv d_one g ->
  scaled (fdiv d_one g) (probe_tsc w) = Some x ->
  exists t',
    init g w t = Some (t', after_probe w) /\
    tsc_ghz_inv t' = tsc_ghz_inv t /\
    ns_offset t' = wrap64 (probe_ns w - x).
Proof.
  intros Hg Hs Hx. eexists. rewrite (init_positive_eq g w t x Hg Hx).
  split; [reflexivity|]. cbn [tsc_ghz_inv ns_offset].
  split; [symmetry; exact Hs|reflexivity].
Qed.

(** C5: whenever [calibrate] has returned and [init] is then called with
    the frequency it returned, the scale after [init] is a finite double
    whose value is the value of the scale before, within a relative
    tolerance of 2^-51: [init] either returns before writing the scale (the
    frequency is not positive) or writes [1.0 / (1.0 / scale)], two
    roundings away.  The base pair becomes the probe of [init]; of the two
    members readers consult only [ns_offset] is recomputed. *)
Theorem reinit_keeps_scale (w w1 w2 w3 : World) (t t1 t2 : TSCNS)
    (f : double) :
  calibrate w t = Some (f, t1, w1) ->
  init f w2 t1 = Some (t2, w3) ->
  scales_close (tsc_ghz_inv t1) (tsc_ghz_inv t2) /\
  base_tsc t2 = probe_tsc w2 /\ base_ns t2 = probe_ns w2.
Proof.
  intros Hcal Hinit.
  destruct (init_base f w2 w3 t1 t2 Hinit) as (Hbt & Hbn & _).
  split; [|split; assumption].
  destruct (calibrate_cases w w1 t t1 f Hcal) as (x & Hx & -> & -> & _).
  cbn [tsc_ghz_inv].
  pose proof (scaled_finite _ _ _ Hx) as Hfin.
  destruct (fleb (fdiv d_one (derived_inv t (probe_tsc w) (probe_ns w)))
              d_zero) eqn:Hg.
  - rewrite (init_nonpositive_eq _ w2 _ Hg) in Hinit.
    apply Some_pair_inj in Hinit as [<- _].
    cbn [set_base tsc_ghz_inv]. apply scales_close_refl. exact Hfin.
  - destruct (init_positive_cases _ w2 w3 _ t2 Hg Hinit)
      as (x2 & _ & -> & _).
    cbn [tsc_ghz_inv].
    destruct (derived_inv_reinit t (probe_tsc w) (probe_ns w) Hfin)
      as [Hc|[_ Hc]]; [rewrite Hc in Hg; discriminate Hg|exact Hc].
Qed.

Lemma reinit_keeps_scale_witness :
  scales_close
    (derived_inv
       {| tsc_ghz_inv := d_one; ns_offset := 0;
          base_tsc := 1000000015; base_ns := 5000000000 |}
       (probe_tsc
          (skip (two_probe_world 1000000000 3400000000 5000000000
                   6000000002) 11 10))
       (probe_ns
          (skip (two_probe_world 1000000000 3400000000 5000000000
                   6000000002) 11 10)))
    (fdiv d_one
       (fdiv d_one
          (derived_inv
             {| tsc_ghz_inv := d_one; ns_offset := 0;
                base_tsc := 1000000015; base_ns := 5000000000 |}
             (probe_tsc
                (skip (two_probe_world 1000000000 3400000000 5000000000
                         6000000002) 11 10))
             (probe_ns
                (skip (two_probe_world 1000000000 3400000000 5000000000
                         6000000002) 11 10))))).
Proof.
  refine (proj1 (reinit_keeps_scale
    (skip (two_probe_world 1000000000 3400000000 5000000000 6000000002)
       11 10)
    (after_probe
       (skip (two_probe_world 1000000000 3400000000 5000000000 6000000002)
          11 10))
    (skip (two_probe_world 1000000000 3400000000 5000000000 6000000002)
       22 20)
    (after_probe
       (skip (two_probe_world 1000000000 3400000000 5000000000 6000000002)
          22 20))
    {| tsc_ghz_inv := d_one; ns_offset := 0;
       base_tsc := 1000000015; base_ns := 5000000000 |}
    {| tsc_ghz_inv :=
         derived_inv
           {| tsc_ghz_inv := d_one; ns_offset := 0;
              base_tsc := 1000000015; base_ns := 5000000000 |}
           (probe_tsc
              (skip (two_probe_world 1000000000 3400000000 5000000000
                       6000000002) 11 10))
           (probe_ns
              (skip (two_probe_world 1000000000 3400000000 5000000000
                       6000000002) 11 10));
       ns_offset := wrap64 (5000000000 - 416666673);
       base_tsc := 1000000015; base_ns := 5000000000 |}
    {| tsc_ghz_inv :=
         fdiv d_one
           (fdiv d_one
              (derived_inv
                 {| tsc_ghz_inv := d_one; ns_offset := 0;
                    base_tsc := 1000000015; base_ns := 5000000000 |}
                 (probe_tsc
                    (skip (two_probe_world 1000000000 3400000000 5000000000
                             6000000002) 11 10))
                 (probe_ns
                    (skip (two_probe_world 1000000000 3400000000 5000000000
                             6000000002) 11 10))));
       ns_offset :=
         wrap64
           (probe_ns
              (skip (two_probe_world 1000000000 3400000000 5000000000
                       6000000002) 22 20)
            - 1416666813);
       base_tsc :=
         probe_tsc
           (skip (two_probe_world 1000000000 3400000000 5000000000
                    6000000002) 22 20);
       base_ns :=
         probe_ns
           (skip (two_probe_world 1000000000 3400000000 5000000000
                    6000000002) 22 20) |}
    (fdiv d_one
       (derived_inv
          {| tsc_ghz_inv := d_one; ns_offset := 0;
             base_tsc := 1000000015; base_ns := 5000000000 |}
          (probe_tsc
             (skip (two_probe_world 1000000000 3400000000 5000000000
                      6000000002) 11 10))
          (probe_ns
             (skip (two_probe_world 1000000000 3400000000 5000000000
                      6000000002) 11 10))))
    _ _)).
  - apply (calibrate_eq
             (skip (two_probe_world 1000000000 3400000000 5000000000
                      6000000002) 11 10)
             {| tsc_ghz_inv := d_one; ns_offset := 0;
                base_tsc := 1000000015; base_ns := 5000000000 |}
             416666673).
    crunch.
  - apply init_positive_eq; crunch.
Defined.

(** The tolerance is not idle.  In this run the object is calibrated over
    2,400,000,000 ticks and 1,000,000,002 ns, then re-initialised with the
    frequency [calibrate] returned: the call writes [1.0 / tsc_ghz], which
    is one unit in the last place above the scale held before. *)
Lemma reinit_changes_scale :
  exists g t1 t2,
    option_map fst
      (calibrate
         (skip (two_probe_world 1000000000 3400000000 5000000000 6000000002)
            11 10)
         {| tsc_ghz_inv := d_one; ns_offset := 0;
            base_tsc := 1000000015; base_ns := 5000000000 |})
    = Some (g, t1) /\
    option_map fst
      (init g
         (skip (two_probe_world 1000000000 3400000000 5000000000 6000000002)
            22 20)
         t1)
    = Some t2 /\
    tsc_ghz_inv t1 = S754_finite false 7505999393962825 (-54) /\
    tsc_ghz_inv t2 = S754_finite false 7505999393962826 (-54).
Proof.
  do 3 eexists. split; [vm_compute; reflexivity|].
  split; [vm_compute; reflexivity|]. split; reflexivity.
Qed.

(** ** C6: monotonicity *)

Lemma rdns_eq (w : World) (t : TSCNS) :
  rdns w t = (tsc2ns t (tsc_at w 0), skip w 1 0).
Proof.
  unfold rdns, rdtsc, tsc_at, skip. rewrite !Nat.add_0_r.
  do 2 f_equal. lia.
Qed.

Lemma rdns_next_eq (w : World) (t : TSCNS) :
  rdns (skip w 1 0) t = (tsc2ns t (tsc_at w 1), skip w 2 0).
Proof.
  rewrite rdns_eq, tsc_at_skip. unfold skip.
  cbn [tsc_src tsc_pos clk_src clk_pos].
  do 2 f_equal; lia.
Qed.

(** C6 (as amended): let the scale be a positive finite double and the
    offset be the one [adjustOffset] computes from the base pair.  If the
    next two counter readings [a <= b] are at or after [base_tsc] and below
    2^63, the cast is defined for [b] and the timestamp of [b] fits 64 bits,
    then [tsc2ns a <= tsc2ns b], both at or after [base_ns], and these are
    what two successive calls of [rdns] return. *)
Theorem rdns_monotone
        (t : TSCNS) (w : World) (ms : positive) (es x0 xb : Z) :
  tsc_ghz_inv t = S754_finite false ms es ->
  is_u64 (base_ns t) ->
  scaled (tsc_ghz_inv t) (base_tsc t) = Some x0 ->
  ns_offset t = wrap64 (base_ns t - x0) ->
  0 <= base_tsc t <= tsc_at w 0 ->
  tsc_at w 0 <= tsc_at w 1 ->
  tsc_at w 1 < two63 ->
  scaled (tsc_ghz_inv t) (tsc_at w 1) = Some xb ->
  base_ns t - x0 + xb < two64 ->
  exists ya yb,
    tsc2ns t (tsc_at w 0) = Some ya /\
    tsc2ns t (tsc_at w 1) = Some yb /\
    base_ns t <= ya <= yb /\
    rdns w t = (Some ya, skip w 1 0) /\
    rdns (skip w 1 0) t = (Some yb, skip w 2 0).
Proof.
  intros Hs Hns H0 Hoff Hbase Hab Hb Hxb Hfit.
  rewrite rdns_eq, rdns_next_eq.
  set (a := tsc_at w 0) in *. set (b := tsc_at w 1) in *.
  rewrite Hs in *.
  destruct (scaled_mono ms es a b xb ltac:(lia) Hb Hxb) as (xa & Hxa & Ha).
  destruct (scaled_mono ms es (base_tsc t) a xa ltac:(lia) ltac:(lia) Hxa)
    as (x0' & Hx0' & H0').
  rewrite H0 in Hx0'. inversion Hx0'; subst x0'; clear Hx0'.
  unfold tsc2ns. rewrite Hs, Hxa, Hxb, Hoff, !wrap64_add_l.
  unfold is_u64 in Hns.
  exists (base_ns t - x0 + xa), (base_ns t - x0 + xb).
  rewrite !wrap64_small by (unfold is_u64; lia).
  repeat split; lia.
Qed.

Lemma rdns_monotone_witness :
  exists ya yb,
    tsc2ns {| tsc_ghz_inv := d_third;
              ns_offset := wrap64 (5000000000 - 333333338);
              base_tsc := 1000000015; base_ns := 5000000000 |}
           (tsc_at (linear_world 2000000000 1000000000 0 0) 0) = Some ya /\
    tsc2ns {| tsc_ghz_inv := d_third;
              ns_offset := wrap64 (5000000000 - 333333338);
              base_tsc := 1000000015; base_ns := 5000000000 |}
           (tsc_at (linear_world 2000000000 1000000000 0 0) 1) = Some yb /\
    5000000000 <= ya <= yb /\
    rdns (linear_world 2000000000 1000000000 0 0)
      {| tsc_ghz_inv := d_third;
         ns_offset := wrap64 (5000000000 - 333333338);
         base_tsc := 1000000015; base_ns := 5000000000 |}
    = (Some ya, skip (linear_world 2000000000 1000000000 0 0) 1 0) /\
    rdns (skip (linear_world 2000000000 1000000000 0 0) 1 0)
      {| tsc_ghz_inv := d_third;
         ns_offset := wrap64 (5000000000 - 333333338);
         base_tsc := 1000000015; base_ns := 5000000000 |}
    = (Some yb, skip (linear_world 2000000000 1000000000 0 0) 2 0).
Proof.
  apply (rdns_monotone
           {| tsc_ghz_inv := d_third;
              ns_offset := wrap64 (5000000000 - 333333338);
              base_tsc := 1000000015; base_ns := 5000000000 |}
           (linear_world 2000000000 1000000000 0 0)
           6004799503160661 (-54) 333333338 1000000000); crunch.
Defined.

(** C6 fails as stated: the wall clock is set back one second between
    [init] and [calibrate], the derived scale is negative, and of two tick
    values read afterwards the later converts to the earlier timestamp. *)
Lemma tsc2ns_decreasing_after_clock_step :
  exists t0 f t ya yb,
    option_map fst
      (init d_zero
         (two_probe_world 1000000000 4000000000 5000000000 4000000000)
         fresh) = Some t0 /\
    option_map fst
      (calibrate
         (skip (two_probe_world 1000000000 4000000000 5000000000 4000000000)
            11 10) t0) = Some (f, t) /\
    tsc2ns t 4000000015 = Some ya /\
    tsc2ns t 7000000015 = Some yb /\
    4000000015 <= 7000000015 /\
    yb < ya.
Proof.
  do 5 eexists. split; [vm_compute; reflexivity|].
  split; [vm_compute; reflexivity|].
  split; [vm_compute; reflexivity|].
  split; [vm_compute; reflexivity|]. crunch.
Qed.

(** ** C7: linearity *)

(** C7 (as amended): with a positive finite scale, for tick values
    [0 <= a <= b] below 2^53 whose scaled count is below 2^53, the
    difference of the two timestamps (a [uint64_t] difference) is within
    2 ns of [(b - a)] times the scale. *)
Theorem tsc2ns_linear (t : TSCNS) (ms : positive) (es a b xb : Z) :
  tsc_ghz_inv t = S754_finite false ms es ->
  0 <= a <= b -> b < two53 ->
  scaled (tsc_ghz_inv t) b = Some xb -> xb < two53 ->
  exists ya yb,
    tsc2ns t a = Some ya /\ tsc2ns t b = Some yb /\
    (Qabs (inject_Z (wrap64 (yb - ya))
           - inject_Z (b - a) * SF2Q (tsc_ghz_inv t)) < 2)%Q.
Proof.
  intros Hs Hab Hb Hxb Hlt. rewrite Hs in *.
  destruct (scaled_linear ms es a b xb Hab Hb Hxb Hlt) as (xa & Hxa & Ha & HQ).
  unfold tsc2ns. rewrite Hs, Hxa, Hxb.
  eexists. eexists. split; [reflexivity|]. split; [reflexivity|].
  assert (wrap64 (wrap64 (ns_offset t + xb) - wrap64 (ns_offset t + xa))
          = xb - xa) as ->; [|exact HQ].
  unfold wrap64. rewrite <- Zminus_mod.
  replace (ns_offset t + xb - (ns_offset t + xa)) with (xb - xa) by lia.
  apply Z.mod_small. unfold two53, two64 in *. lia.
Qed.

Lemma tsc2ns_linear_witness :
  exists ya yb,
    tsc2ns {| tsc_ghz_inv := d_third;
              ns_offset := wrap64 (5000000000 - 333333338);
              base_tsc := 1000000015; base_ns := 5000000000 |}
           2000000000 = Some ya /\
    tsc2ns {| tsc_ghz_inv := d_third;
              ns_offset := wrap64 (5000000000 - 333333338);
              base_tsc := 1000000015; base_ns := 5000000000 |}
           3000000000 = Some yb /\
    (Qabs (inject_Z (wrap64 (yb - ya))
           - inject_Z (3000000000 - 2000000000) * SF2Q d_third) < 2)%Q.
Proof.
  apply (tsc2ns_linear
           {| tsc_ghz_inv := d_third;
              ns_offset := wrap64 (5000000000 - 333333338);
              base_tsc := 1000000015; base_ns := 5000000000 |}
           6004799503160661 (-54) 2000000000 3000000000 1000000000);
    crunch.
Defined.

(** C7 fails as stated: on an uncalibrated object (one tick is one
    nanosecond) the tick values 2^55 and 2^55 + 5 are five ticks apart and
    their timestamps eight nanoseconds apart, the double nearest to
    2^55 + 5 being 2^55 + 8. *)
Lemma tsc2ns_five_ticks_eight_ns :
  exists t ya yb,
    option_map fst (init d_zero (linear_world 1000 10 5000 20) fresh)
    = Some t /\
    tsc2ns t (2 ^ 55) = Some ya /\
    tsc2ns t (2 ^ 55 + 5) = Some yb /\
    yb - ya = 8 /\
    ~ (Qabs (inject_Z (wrap64 (yb - ya))
             - inject_Z (2 ^ 55 + 5 - 2 ^ 55) * SF2Q (tsc_ghz_inv t)) < 1)%Q.
Proof.
  do 3 eexists. split; [vm_compute; reflexivity|].
  split; [vm_compute; reflexivity|].
  split; [vm_compute; reflexivity|]. crunch.
Qed.

(** ** C8: negative offsets *)

(** C8: when [ns_offset] holds the negative value [o] in two's complement
    and the scaled tick count [x] is at least [- o], [tsc2ns] returns the
    integer [o + x] itself: the unsigned addition wraps to the exact sum. *)
Theorem tsc2ns_negative_offset (t : TSCNS) (tsc o x : Z) :
  - two63 <= o < 0 ->
  ns_offset t = wrap64 o ->
  scaled (tsc_ghz_inv t) tsc = Some x ->
  0 <= o + x ->
  tsc2ns t tsc = Some (o + x) /\ 0 <= o + x < two63.
Proof.
  intros Ho Hoff Hx Hpos. pose proof (scaled_range _ _ _ Hx) as Hr.
  unfold is_i64 in Hr. unfold tsc2ns. rewrite Hx, Hoff, wrap64_add_l.
  rewrite wrap64_small; [split; [reflexivity|lia]|].
  unfold is_u64. rewrite two64_eq. lia.
Qed.

Lemma tsc2ns_negative_offset_witness :
  tsc2ns {| tsc_ghz_inv := d_one;
            ns_offset := wrap64 (1000000000 - 1000000000000);
            base_tsc := 1000000000000; base_ns := 1000000000 |}
         2000000000000
  = Some (1000000000 - 1000000000000 + 2000000000000) /\
  0 <= 1000000000 - 1000000000000 + 2000000000000 < two63.
Proof.
  apply (tsc2ns_negative_offset
           {| tsc_ghz_inv := d_one;
              ns_offset := wrap64 (1000000000 - 1000000000000);
              base_tsc := 1000000000000; base_ns := 1000000000 |}
           2000000000000 (1000000000 - 1000000000000) 2000000000000).
  - crunch.
  - reflexivity.
  - crunch.
  - crunch.
Defined.

(** ** C9: uncalibrated initialisation *)

(** C9 (as amended): [init] with a zero or negative scale takes one probe,
    stores it as the base pair and returns; [tsc_ghz_inv] and [ns_offset]
    keep the values they had before the call, which are 1.0 and 0 on an
    object that was never initialised with a positive scale nor
    calibrated. *)
Theorem init_nonpositive_keeps_scale (g : double) (w : World) (t : TSCNS) :
  fleb g d_zero = true ->
  exists t',
    init g w t = Some (t', after_probe w) /\
    tsc_ghz_inv t' = tsc_ghz_inv t /\
    ns_offset t' = ns_offset t /\
    base_tsc t' = probe_tsc w /\
    base_ns t' = probe_ns w /\
    tsc_ghz_inv fresh = d_one /\
    ns_offset fresh = 0.
Proof.
  intros Hg. eexists. rewrite (init_nonpositive_eq g w t Hg).
  repeat split.
Qed.

Lemma init_nonpositive_keeps_scale_witness :
  exists t',
    init d_zero (linear_world 1000 10 5000 20) fresh
    = Some (t', after_probe (linear_world 1000 10 5000 20)) /\
    tsc_ghz_inv t' = tsc_ghz_inv fresh /\
    ns_offset t' = ns_offset fresh /\
    base_tsc t' = probe_tsc (linear_world 1000 10 5000 20) /\
    base_ns t' = probe_ns (linear_world 1000 10 5000 20) /\
    tsc_ghz_inv fresh = d_one /\
    ns_offset fresh = 0.
Proof.
  apply (init_nonpositive_keeps_scale d_zero
           (linear_world 1000 10 5000 20) fresh).
  reflexivity.
Defined.

(** C9 fails as stated: after [init(2.0)] a later [init(0.0)] returns
    before [tsc_ghz_inv] is written, which stays 0.5. *)
Lemma init_zero_after_positive : ~ init_nonpositive_resets.
Proof.
  intros H.
  destruct (init (of_int64 2) (linear_world 1000 10 5000 20) fresh)
    as [[t1 w1]|] eqn:E1; [|vm_compute in E1; discriminate E1].
  destruct (init d_zero w1 t1) as [[t2 w2]|] eqn:E2.
  - specialize (H d_zero w1 w2 t1 t2 eq_refl E2).
    vm_compute in E1. inversion E1; subst t1 w1; clear E1.
    vm_compute in E2. inversion E2; subst t2; clear E2.
    vm_compute in H. discriminate H.
  - rewrite init_nonpositive_eq in E2 by reflexivity. discriminate E2.
Qed.

(** ** C10: the division in calibrate *)

(** C10 (as amended): the divisor of [calibrate] is not guarded.  When the
    counter readings of the two probes are strictly increasing and below
    2^62, the divisor is the positive difference of the two probes and its
    double is finite and not zero.  If moreover the elapsed wall-clock time
    [(int64_t)(delayed_ns - base_ns)] is, forward or backward, at most
    [2^j] nanoseconds per elapsed tick and [base_tsc] is at most [2^k],
    with [j + k <= 62], then [calibrate] returns a result, with a finite
    scale; [j = 0] is a counter of 1 GHz or more, a larger [j] a slower
    one.  When the second probe returns the ticks of the base, the divisor
    is zero and [calibrate] has no defined result. *)
Theorem calibrate_returns (g : double) (w w1 : World) (t t1 : TSCNS) :
  counter_increasing w (2 * S N) ->
  init g w t = Some (t1, w1) ->
  divisor w1 t1 = probe_tsc w1 - base_tsc t1 /\
  0 < divisor w1 t1 < two62 /\
  (exists m e, of_int64 (divisor w1 t1) = S754_finite false m e) /\
  (forall j k : Z,
     0 <= j -> 0 <= k -> j + k <= 62 ->
     base_tsc t1 <= 2 ^ k ->
     Z.abs (signed64 (wrap64 (probe_ns w1 - base_ns t1)))
     <= 2 ^ j * divisor w1 t1 ->
     exists f t2,
       calibrate w1 t1 = Some (f, t2, after_probe w1) /\
       is_finite (tsc_ghz_inv t2) = true) /\
  (forall (w' : World) (t' : TSCNS),
     probe_tsc w' = base_tsc t' ->
     divisor w' t' = 0 /\ calibrate w' t' = None).
Proof.
  intros Hinc Hinit.
  destruct (init_base g w w1 t t1 Hinit) as (Hb & _ & ->).
  pose proof (probes_increasing w Hinc) as Hp.
  assert (two62 < two63 /\ two63 < two64) as [H6263 H6364]
    by (split; reflexivity).
  assert (divisor (after_probe w) t1
          = probe_tsc (after_probe w) - base_tsc t1) as Hd.
  { unfold divisor. apply signed64_diff. unfold is_i64. rewrite Hb. lia. }
  split; [exact Hd|]. split; [rewrite Hd, Hb; lia|]. split.
  { apply of_int64_positive. rewrite Hd, Hb. lia. }
  split.
  - intros j k Hj Hk Hjk Hbk Hle. rewrite Hd in Hle.
    destruct (derived_inv_defined t1 (probe_tsc (after_probe w))
                (probe_ns (after_probe w)) j k
                ltac:(rewrite Hb; lia) ltac:(lia) Hj Hk Hjk Hbk Hle)
      as (x & Hx & Hf).
    eexists. eexists. rewrite (calibrate_eq (after_probe w) t1 x Hx).
    split; [reflexivity|exact Hf].
  - intros w' t' Heq. split.
    + unfold divisor. rewrite Heq, Z.sub_diag. reflexivity.
    + apply calibrate_undefined_eq. apply scaled_not_finite.
      now apply derived_inv_zero_divisor.
Qed.

Lemma calibrate_returns_witness :
  exists f t2,
    calibrate (after_probe (linear_world 1000 10 5000 30))
      (set_base fresh (probe_tsc (linear_world 1000 10 5000 30))
         (probe_ns (linear_world 1000 10 5000 30)))
    = Some (f, t2, after_probe (after_probe (linear_world 1000 10 5000 30)))
    /\ is_finite (tsc_ghz_inv t2) = true.
Proof.
  refine (proj1 (proj2 (proj2 (proj2 (calibrate_returns d_zero
    (linear_world 1000 10 5000 30)
    (after_probe (linear_world 1000 10 5000 30))
    fresh
    (set_base fresh (probe_tsc (linear_world 1000 10 5000 30))
       (probe_ns (linear_world 1000 10 5000 30)))
    _ _)))) 2 60 _ _ _ _ _).
  - intros i j Hij. unfold N in Hij. unfold linear_world, two62.
    cbn [tsc_src tsc_pos]. lia.
  - apply init_nonpositive_eq. reflexivity.
  - lia.
  - lia.
  - lia.
  - crunch.
  - crunch.
Defined.

(** C10 fails as stated: a counter that does not advance between the two
    probes is non-decreasing, the divisor is zero, the quotient is an
    infinity and the cast in [adjustOffset] has no defined result. *)
Lemma calibrate_divides_by_zero :
  exists t,
    option_map fst (init d_zero (linear_world 1000 0 5000 20) fresh)
    = Some t /\
    divisor (skip (linear_world 1000 0 5000 20) 11 10) t = 0 /\
    derived_inv t (probe_tsc (skip (linear_world 1000 0 5000 20) 11 10))
      (probe_ns (skip (linear_world 1000 0 5000 20) 11 10))
    = S754_infinity false /\
    option_map fst (calibrate (skip (linear_world 1000 0 5000 20) 11 10) t)
    = None.
Proof.
  eexists. split; [vm_compute; reflexivity|]. crunch.
Qed.

(** * Further properties of the operations *)

(** ** The probe *)

(** X1: when the eleven counter readings of a probe do not decrease and stay
    below 2^63, every delta [tscs[j] - tscs[j-1]] is the true difference of
    the two readings, and for the round [best] the probe selects the tick
    value returned is [tscs[best-1]] plus half that delta, rounded down: it
    lies between the two readings taken around the wall-clock reading that
    is returned with it. *)
Theorem syncTime_brackets (w : World) :
  (forall j : nat, (1 <= j <= N)%nat ->
     tsc_at w (j - 1) <= tsc_at w j < two63) ->
  exists best : nat,
    is_best w N best /\
    (forall j : nat, (1 <= j <= N)%nat ->
       delta w j = tsc_at w j - tsc_at w (j - 1)) /\
    fst (fst (syncTime w)) = tsc_at w (best - 1) + delta w best / 2 /\
    tsc_at w (best - 1) <= fst (fst (syncTime w)) <= tsc_at w best /\
    snd (fst (syncTime w)) = ns_at w (best - 1).
Proof.
  intros H. assert (two64 = 2 * two63) as E64 by reflexivity.
  assert (forall j : nat, (1 <= j <= N)%nat ->
            delta w j = tsc_at w j - tsc_at w (j - 1)) as Hd.
  { intros j Hj. unfold delta. apply wrap64_small.
    pose proof (H j Hj) as Hj'. pose proof (tsc_at_range w (j - 1)) as R.
    unfold is_u64 in *. lia. }
  pose proof (best_round_is_best w) as Hb.
  exists (best_round w). split; [exact Hb|]. split; [exact Hd|].
  destruct Hb as (Hr & _ & _).
  rewrite syncTime_eq. cbn [fst snd].
  rewrite Z.shiftr_div_pow2 by lia. change (2 ^ 1) with 2.
  rewrite (Hd _ Hr). pose proof (H _ Hr) as Hj.
  pose proof (tsc_at_range w (best_round w - 1)) as R. unfold is_u64 in R.
  set (a := tsc_at w (best_round w)) in *.
  set (b := tsc_at w (best_round w - 1)) in *.
  rewrite wrap64_small by (unfold is_u64; lia).
  replace (a + b) with (b * 2 + (a - b)) by lia.
  rewrite Z.div_add_l by lia.
  pose proof (Z.div_pos (a - b) 2 ltac:(lia) ltac:(lia)).
  assert ((a - b) / 2 <= a - b) by (apply Z.div_le_upper_bound; lia).
  repeat split; lia.
Qed.

Lemma syncTime_brackets_witness :
  exists best : nat,
    is_best (linear_world 1000 10 5000 3) N best /\
    (forall j : nat, (1 <= j <= N)%nat ->
       delta (linear_world 1000 10 5000 3) j
       = tsc_at (linear_world 1000 10 5000 3) j
         - tsc_at (linear_world 1000 10 5000 3) (j - 1)) /\
    fst (fst (syncTime (linear_world 1000 10 5000 3)))
    = tsc_at (linear_world 1000 10 5000 3) (best - 1)
      + delta (linear_world 1000 10 5000 3) best / 2 /\
    tsc_at (linear_world 1000 10 5000 3) (best - 1)
    <= fst (fst (syncTime (linear_world 1000 10 5000 3)))
    <= tsc_at (linear_world 1000 10 5000 3) best /\
    snd (fst (syncTime (linear_world 1000 10 5000 3)))
    = ns_at (linear_world 1000 10 5000 3) (best - 1).
Proof.
  apply syncTime_brackets. intros j Hj. unfold N in Hj.
  unfold tsc_at, linear_world. cbn [tsc_src tsc_pos].
  rewrite !wrap64_small by (unfold is_u64, two64; lia).
  unfold two63. lia.
Defined.

(** ** The wall clock *)

(** X2: for a normalised [timespec] the value [rdsysns] returns is the
    nanosecond count itself: dividing by 10^9 gives back [tv_sec], the
    remainder gives back [tv_nsec], and two readings compare as their
    [timespec]s do, seconds first. *)
Theorem rdsysns_decodes_and_orders (w1 w2 : World) :
  timespec_normal (clk_src w1 (clk_pos w1)) ->
  timespec_normal (clk_src w2 (clk_pos w2)) ->
  fst (rdsysns w1) / 1000000000 = tv_sec (clk_src w1 (clk_pos w1)) /\
  fst (rdsysns w1) mod 1000000000 = tv_nsec (clk_src w1 (clk_pos w1)) /\
  (fst (rdsysns w1) < fst (rdsysns w2) <->
   tv_sec (clk_src w1 (clk_pos w1)) < tv_sec (clk_src w2 (clk_pos w2)) \/
   (tv_sec (clk_src w1 (clk_pos w1)) = tv_sec (clk_src w2 (clk_pos w2)) /\
    tv_nsec (clk_src w1 (clk_pos w1)) < tv_nsec (clk_src w2 (clk_pos w2)))).
Proof.
  unfold timespec_normal, rdsysns. cbn [fst].
  set (s1 := tv_sec (clk_src w1 (clk_pos w1))).
  set (n1 := tv_nsec (clk_src w1 (clk_pos w1))).
  set (s2 := tv_sec (clk_src w2 (clk_pos w2))).
  set (n2 := tv_nsec (clk_src w2 (clk_pos w2))).
  intros (Hs1 & Hn1 & Hb1) (Hs2 & Hn2 & Hb2).
  assert (two63 < two64) as H by reflexivity.
  rewrite !wrap64_small by (unfold is_u64; lia).
  split; [|split].
  - rewrite Z.div_add_l by lia. rewrite Z.div_small by lia. lia.
  - rewrite Z.add_comm, Z.mod_add by lia. apply Z.mod_small. lia.
  - lia.
Qed.

Lemma rdsysns_decodes_and_orders_witness :
  fst (rdsysns (linear_world 0 1 999999999 1)) / 1000000000 = 0 /\
  fst (rdsysns (linear_world 0 1 999999999 1)) mod 1000000000 = 999999999.
Proof.
  refine (let H := rdsysns_decodes_and_orders
                     (linear_world 0 1 999999999 1)
                     (linear_world 0 1 5 1) _ _ in
          conj (proj1 H) (proj1 (proj2 H))); crunch.
Defined.

(** ** init *)

(** X3: whatever its argument, [init] takes eleven counter readings and ten
    wall-clock readings and stores a base tick value below 2^63, so the cast
    [(int64_t)base_tsc] of [adjustOffset] never yields a negative number; the
    integer members stay within 64 bits. *)
Theorem init_stores_nonnegative_base (g : double) (w w' : World)
    (t t' : TSCNS) :
  init g w t = Some (t', w') ->
  w' = skip w (S N) N /\
  0 <= base_tsc t' < two63 /\
  signed64 (base_tsc t') = base_tsc t' /\
  is_u64 (base_ns t') /\
  (wf t -> wf t').
Proof.
  intros H. destruct (init_base g w w' t t' H) as (Hb & Hn & Hw).
  pose proof (probe_tsc_range w) as Hp. rewrite <- Hb in Hp.
  split; [now rewrite Hw, after_probe_eq|]. split; [exact Hp|].
  split; [now apply signed64_small|].
  assert (is_u64 (base_ns t')) as Hbn by (rewrite Hn; apply probe_ns_range).
  split; [exact Hbn|]. intros (Ho & _ & _). unfold wf.
  split; [|split; [unfold is_u64; rewrite two64_eq; lia|exact Hbn]].
  destruct (fleb g d_zero) eqn:Hg.
  - rewrite (init_nonpositive_eq g w t Hg) in H.
    apply Some_pair_inj in H as [<- _]. exact Ho.
  - destruct (init_positive_cases g w w' t t' Hg H) as (x & _ & -> & _).
    apply wrap64_range.
Qed.

Lemma init_stores_nonnegative_base_witness :
  signed64 (base_tsc (set_base fresh
                        (probe_tsc (linear_world (two64 - 5) 10 5000 3))
                        (probe_ns (linear_world (two64 - 5) 10 5000 3))))
  = base_tsc (set_base fresh
                (probe_tsc (linear_world (two64 - 5) 10 5000 3))
                (probe_ns (linear_world (two64 - 5) 10 5000 3))).
Proof.
  refine (proj1 (proj2 (proj2 (init_stores_nonnegative_base d_zero
    (linear_world (two64 - 5) 10 5000 3)
    (after_probe (linear_world (two64 - 5) 10 5000 3)) fresh _ _)))).
  apply init_nonpositive_eq. reflexivity.
Defined.

(** X4: when [init] is given a positive frequency and returns, the scale is
    the reciprocal of the argument, the base tick value converts to the base
    wall-clock value exactly, and nothing of the object's previous contents
    survives: every object initialised with that argument in that world
    ends up the same. *)
Theorem init_positive_anchors (g : double) (w w' : World) (t t' : TSCNS) :
  fleb g d_zero = false ->
  init g w t = Some (t', w') ->
  tsc_ghz_inv t' = fdiv d_one g /\
  tsc2ns t' (base_tsc t') = Some (base_ns t') /\
  forall t0 : TSCNS, init g w t0 = Some (t', w').
Proof.
  intros Hg H.
  destruct (init_positive_cases g w w' t t' Hg H) as (x & Hx & -> & ->).
  split; [reflexivity|]. split.
  - unfold tsc2ns. cbn [tsc_ghz_inv base_tsc ns_offset base_ns].
    rewrite Hx, wrap64_sub_add.
    now rewrite (wrap64_small _ (probe_ns_range w)).
  - intros t0. now apply init_positive_eq.
Qed.

Lemma init_positive_anchors_witness :
  tsc2ns
    {| tsc_ghz_inv := fdiv d_one d_one;
       ns_offset := wrap64 (probe_ns (linear_world 1000 10 5000 3) - 1005);
       base_tsc := probe_tsc (linear_world 1000 10 5000 3);
       base_ns := probe_ns (linear_world 1000 10 5000 3) |}
    (probe_tsc (linear_world 1000 10 5000 3))
  = Some (probe_ns (linear_world 1000 10 5000 3)).
Proof.
  refine (proj1 (proj2 (init_positive_anchors d_one
    (linear_world 1000 10 5000 3)
    (after_probe (linear_world 1000 10 5000 3)) fresh _ _ _))).
  - reflexivity.
  - apply init_positive_eq; [reflexivity|crunch].
Defined.

(** X5: an argument that passes the test [tsc_ghz <= 0.0] but whose
    reciprocal is not a finite double leaves [init] without a defined result:
    the cast in [adjustOffset] is applied to an infinity or a NaN.  A NaN
    argument is such a value (the comparison is false for it), and so is a
    positive argument so small that [1.0 / tsc_ghz] overflows. *)
Theorem init_undefined_for_unusable_frequency (g : double) (w : World)
    (t : TSCNS) :
  fleb g d_zero = false ->
  is_finite (fdiv d_one g) = false ->
  init g w t = None.
Proof.
  intros Hg Hf. apply init_undefined_eq; [exact Hg|].
  now apply scaled_not_finite.
Qed.

Lemma init_undefined_for_unusable_frequency_witness :
  init S754_nan (linear_world 1000 10 5000 3) fresh = None /\
  init (S754_finite false 1 (-1074)) (linear_world 1000 10 5000 3) fresh
  = None.
Proof.
  split; apply init_undefined_for_unusable_frequency; reflexivity.
Defined.

(** X6: on an object whose scale is still 1.0, [init] with an argument that
    is zero or negative returns, and afterwards a tick value below 2^53
    converts to itself plus the offset the object held: a default-constructed
    clock reports raw ticks. *)
Theorem unit_scale_counts_ticks (g : double) (w : World) (t : TSCNS)
    (a : Z) :
  fleb g d_zero = true ->
  tsc_ghz_inv t = d_one ->
  0 <= a < two53 ->
  exists t' : TSCNS,
    init g w t = Some (t', after_probe w) /\
    tsc2ns t' a = Some (wrap64 (ns_offset t + a)).
Proof.
  intros Hg Hinv Ha. eexists. split; [now apply init_nonpositive_eq|].
  unfold tsc2ns. cbn [set_base tsc_ghz_inv ns_offset].
  now rewrite Hinv, scaled_one.
Qed.

Lemma unit_scale_counts_ticks_witness :
  exists t' : TSCNS,
    init d_zero (linear_world 1000 10 5000 3) fresh
    = Some (t', after_probe (linear_world 1000 10 5000 3)) /\
    tsc2ns t' 123456789 = Some (wrap64 (ns_offset fresh + 123456789)).
Proof.
  apply unit_scale_counts_ticks; [reflexivity|reflexivity|crunch].
Defined.

(** X7: re-initialising with the frequency whose reciprocal the object
    already holds keeps every conversion defined and moves every timestamp
    by the same amount, the change of [rdoffset], modulo 2^64. *)
Theorem resync_shifts_every_timestamp (g : double) (w w' : World)
    (t t' : TSCNS) (tsc y : Z) :
  fleb g d_zero = false ->
  tsc_ghz_inv t = fdiv d_one g ->
  init g w t = Some (t', w') ->
  tsc2ns t tsc = Some y ->
  exists y' : Z,
    tsc2ns t' tsc = Some y' /\
    wrap64 (y' - y) = wrap64 (rdoffset t' - rdoffset t).
Proof.
  intros Hg Hinv Hinit Hy.
  destruct (init_positive_cases g w w' t t' Hg Hinit) as (x0 & _ & -> & _).
  unfold tsc2ns, rdoffset in *. cbn [tsc_ghz_inv ns_offset].
  rewrite Hinv in Hy.
  destruct (scaled (fdiv d_one g) tsc) as [x|]; [|discriminate].
  injection Hy as <-. eexists. split; [reflexivity|].
  unfold wrap64.
  rewrite Zminus_mod_idemp_l, Zminus_mod_idemp_r. f_equal. lia.
Qed.

Lemma resync_shifts_every_timestamp_witness :
  exists y' : Z,
    tsc2ns
      {| tsc_ghz_inv := fdiv d_one d_three;
         ns_offset := wrap64 (probe_ns (linear_world 3000 30 5000 3) - 1005);
         base_tsc := probe_tsc (linear_world 3000 30 5000 3);
         base_ns := probe_ns (linear_world 3000 30 5000 3) |} 6000
    = Some y' /\
    wrap64 (y' - 2000)
    = wrap64 (rdoffset
                {| tsc_ghz_inv := fdiv d_one d_three;
                   ns_offset :=
                     wrap64 (probe_ns (linear_world 3000 30 5000 3) - 1005);
                   base_tsc := probe_tsc (linear_world 3000 30 5000 3);
                   base_ns := probe_ns (linear_world 3000 30 5000 3) |}
              - rdoffset (set_inv fresh (fdiv d_one d_three))).
Proof.
  apply (resync_shifts_every_timestamp d_three
           (linear_world 3000 30 5000 3)
           (after_probe (linear_world 3000 30 5000 3))
           (set_inv fresh (fdiv d_one d_three))).
  - reflexivity.
  - reflexivity.
  - apply init_positive_eq; [reflexivity|crunch].
  - crunch.
Defined.

(** ** calibrate *)

(** X8: [calibrate] takes one probe, leaves the base pair as it was and
    reads nothing else of the object: the scale and the offset it finds are
    overwritten, so a calibration that follows an earlier one gives what it
    would have given without it. *)
Theorem calibrate_reads_base_only (w w2 : World) (t t1 : TSCNS)
    (f : double) (w1 : World) :
  calibrate w t = Some (f, t1, w1) ->
  w1 = skip w (S N) N /\
  base_tsc t1 = base_tsc t /\ base_ns t1 = base_ns t /\
  is_u64 (ns_offset t1) /\
  calibrate w2 t1 = calibrate w2 t.
Proof.
  unfold calibrate at 1. rewrite syncTime_probe. unfold adjustOffset.
  cbn [set_inv tsc_ghz_inv base_tsc base_ns].
  destruct (scaled _ _) as [x|]; [|discriminate].
  intros H. apply Some_pair_inj in H as [H <-].
  apply (f_equal snd) in H. cbn [snd] in H. subst t1.
  cbn [base_tsc base_ns ns_offset].
  split; [apply after_probe_eq|]. split; [reflexivity|].
  split; [reflexivity|]. split; [apply wrap64_range|].
  unfold calibrate. rewrite syncTime_probe. unfold adjustOffset, derived_inv.
  cbn [set_inv tsc_ghz_inv base_tsc base_ns]. reflexivity.
Qed.

Lemma calibrate_reads_base_only_witness :
  calibrate (linear_world 9000 30 7000 3)
    {| tsc_ghz_inv :=
         derived_inv (set_base fresh 15 4000)
           (probe_tsc (linear_world 3000 30 5000 3))
           (probe_ns (linear_world 3000 30 5000 3));
       ns_offset := wrap64 (base_ns (set_base fresh 15 4000) - 5);
       base_tsc := base_tsc (set_base fresh 15 4000);
       base_ns := base_ns (set_base fresh 15 4000) |}
  = calibrate (linear_world 9000 30 7000 3) (set_base fresh 15 4000).
Proof.
  refine (proj2 (proj2 (proj2 (proj2 (calibrate_reads_base_only
    (linear_world 3000 30 5000 3) (linear_world 9000 30 7000 3)
    (set_base fresh 15 4000) _ _ _ _))))).
  apply (calibrate_eq (linear_world 3000 30 5000 3)
           (set_base fresh 15 4000) 5).
  crunch.
Defined.

(** X9: when the wall-clock value of the second probe equals [base_ns] while
    the tick value moved, [calibrate] stores a zero scale and returns an
    infinity as the frequency; from then on every tick value converts to
    [base_ns]: the clock stands still. *)
Theorem calibrate_stalled_wall_clock (w : World) (t : TSCNS) :
  wf t ->
  probe_ns w = base_ns t ->
  probe_tsc w <> base_tsc t ->
  exists (s : bool) (t' : TSCNS),
    calibrate w t = Some (S754_infinity s, t', after_probe w) /\
    tsc_ghz_inv t' = S754_zero s /\
    ns_offset t' = base_ns t /\
    forall tsc : Z, tsc2ns t' tsc = Some (base_ns t).
Proof.
  intros (_ & Hbt & Hbn) Hns Htsc.
  assert (is_u64 (probe_tsc w)) as Hpt.
  { pose proof (probe_tsc_range w). unfold is_u64. rewrite two64_eq. lia. }
  pose proof (divisor_nonzero _ _ Hpt Hbt Htsc) as Hd.
  assert (exists s, derived_inv t (probe_tsc w) (probe_ns w) = S754_zero s)
    as [s Hs].
  { unfold derived_inv. rewrite Hns, Z.sub_diag.
    change (of_int64 (signed64 (wrap64 0))) with (S754_zero false).
    destruct (of_int64_finite _
                (signed64_bounds (wrap64 (probe_tsc w - base_tsc t))))
      as [[E _]|(s & m & e & ->)]; [contradiction|].
    exists s. reflexivity. }
  exists s. eexists.
  rewrite (calibrate_eq w t 0) by (rewrite Hs; apply scaled_zero_scale).
  rewrite Hs. split; [reflexivity|].
  cbn [tsc_ghz_inv ns_offset]. rewrite Z.sub_0_r, (wrap64_small _ Hbn).
  split; [reflexivity|]. split; [reflexivity|].
  intros tsc. unfold tsc2ns. cbn [tsc_ghz_inv ns_offset].
  now rewrite scaled_zero_scale, Z.add_0_r, (wrap64_small _ Hbn).
Qed.

Lemma calibrate_stalled_wall_clock_witness :
  exists (s : bool) (t' : TSCNS),
    calibrate (linear_world 2000 10 5000 0)
      {| tsc_ghz_inv := d_one; ns_offset := 0;
         base_tsc := 1005; base_ns := 5000 |}
    = Some (S754_infinity s, t', after_probe (linear_world 2000 10 5000 0)) /\
    tsc_ghz_inv t' = S754_zero s /\
    ns_offset t' = 5000 /\
    forall tsc : Z, tsc2ns t' tsc = Some 5000.
Proof.
  apply (calibrate_stalled_wall_clock (linear_world 2000 10 5000 0)
           {| tsc_ghz_inv := d_one; ns_offset := 0;
              base_tsc := 1005; base_ns := 5000 |}); crunch.
Defined.

(** X10: when the second probe is exactly as many nanoseconds after the
    base as it is ticks after it, [calibrate] returns the frequency 1.0 and
    stores the scale 1.0, with no rounding; afterwards a tick value [a]
    below 2^53 converts to [base_ns + (a - base_tsc)] modulo 2^64. *)
Theorem calibrate_unit_rate (w : World) (t : TSCNS) :
  0 <= base_tsc t < two53 ->
  is_u64 (base_ns t) ->
  base_tsc t < probe_tsc w ->
  wrap64 (probe_ns w - base_ns t) = probe_tsc w - base_tsc t ->
  exists t' : TSCNS,
    calibrate w t = Some (d_one, t', after_probe w) /\
    tsc_ghz_inv t' = d_one /\
    forall a : Z, 0 <= a < two53 ->
      tsc2ns t' a = Some (wrap64 (base_ns t + (a - base_tsc t))).
Proof.
  intros Hbt Hbn Hlt Hns.
  pose proof (probe_tsc_range w) as Hp.
  pose proof (derived_inv_unit t (probe_tsc w) (probe_ns w)
                ltac:(lia) ltac:(lia) Hns) as Hinv.
  assert (fdiv d_one d_one = d_one) as Hone by (vm_compute; reflexivity).
  exists {| tsc_ghz_inv := d_one;
            ns_offset := wrap64 (base_ns t - base_tsc t);
            base_tsc := base_tsc t; base_ns := base_ns t |}.
  rewrite (calibrate_eq w t (base_tsc t))
    by (rewrite Hinv; now apply scaled_one).
  rewrite Hinv, Hone. split; [reflexivity|].
  cbn [tsc_ghz_inv]. split; [reflexivity|].
  intros a Ha. unfold tsc2ns. cbn [tsc_ghz_inv ns_offset].
  rewrite scaled_one by exact Ha. rewrite wrap64_add_l.
  do 2 f_equal. lia.
Qed.

Lemma calibrate_unit_rate_witness :
  exists t' : TSCNS,
    calibrate (linear_world 3000 30 5000 3) (set_base fresh 15 2000)
    = Some (d_one, t', after_probe (linear_world 3000 30 5000 3)) /\
    tsc_ghz_inv t' = d_one /\
    forall a : Z, 0 <= a < two53 ->
      tsc2ns t' a
      = Some (wrap64 (base_ns (set_base fresh 15 2000)
                      + (a - base_tsc (set_base fresh 15 2000)))).
Proof.
  apply calibrate_unit_rate; crunch.
Defined.

(** ** Conversion *)

(** X11: with a scale that is an infinity or a NaN no tick value has a
    defined conversion: [tsc2ns], [rdns] and [adjustOffset] all cast a
    double that is not finite. *)
Theorem non_finite_scale_converts_nothing (w : World) (t : TSCNS) (tsc : Z) :
  is_finite (tsc_ghz_inv t) = false ->
  tsc2ns t tsc = None /\ fst (rdns w t) = None /\ adjustOffset t = None.
Proof.
  intros Hf. unfold rdns, rdtsc, tsc2ns, adjustOffset. cbn [fst].
  now rewrite !scaled_not_finite.
Qed.

Lemma non_finite_scale_converts_nothing_witness :
  tsc2ns (set_inv fresh (S754_infinity false)) 1000 = None /\
  fst (rdns (linear_world 1000 10 5000 3)
         (set_inv fresh (S754_infinity false))) = None /\
  adjustOffset (set_inv fresh (S754_infinity false)) = None.
Proof.
  apply non_finite_scale_converts_nothing. reflexivity.
Defined.

(** X12: a tick value at or above 2^63 is read as a negative number by the
    cast [(int64_t)tsc]: if [a] ticks scale to [x] nanoseconds, the tick
    value [2^64 - a] converts to the offset less [x]. *)
Theorem high_ticks_convert_as_negative (t : TSCNS) (a x : Z) :
  0 < a < two63 ->
  scaled (tsc_ghz_inv t) a = Some x ->
  - two63 < x ->
  tsc2ns t (two64 - a) = Some (wrap64 (ns_offset t - x)).
Proof.
  intros Ha Hx Hlo. assert (two64 = 2 * two63) as E64 by reflexivity.
  unfold tsc2ns, scaled in *.
  rewrite signed64_small in Hx by lia.
  assert (signed64 (two64 - a) = - a) as ->.
  { unfold signed64. rewrite wrap64_small by (unfold is_u64; lia).
    destruct (Z.ltb_spec (two64 - a) two63); lia. }
  rewrite of_int64_opp by lia. rewrite fmul_opp_l.
  rewrite (to_int64_opp _ x Hx Hlo). reflexivity.
Qed.

Lemma high_ticks_convert_as_negative_witness :
  tsc2ns (set_inv fresh d_third) (two64 - 3000)
  = Some (wrap64 (ns_offset (set_inv fresh d_third) - 1000)).
Proof.
  apply high_ticks_convert_as_negative; crunch.
Defined.

(** X13: with a positive scale of at most one nanosecond per tick, the
    conversion is defined for every tick value up to 2^62, and adds to the
    offset a number of nanoseconds between 0 and 2^62; for a tick value
    below 2^53 that number does not exceed the tick value. *)
Theorem tsc2ns_defined_below_one_ns_per_tick (t : TSCNS) (m : positive)
    (e a : Z) :
  tsc_ghz_inv t = S754_finite false m e ->
  e <= 0 -> Zpos m <= 2 ^ (- e) ->
  0 <= a <= two62 ->
  exists x : Z,
    tsc2ns t a = Some (wrap64 (ns_offset t + x)) /\
    0 <= x <= two62 /\ (a < two53 -> x <= a).
Proof.
  intros Hs He Hm Ha.
  destruct (scaled_le_one m e a He Hm Ha) as (x & Hx & Hr).
  exists x. unfold tsc2ns. rewrite Hs, Hx.
  split; [reflexivity|]. split; [exact Hr|]. intros Hlt.
  destruct (scaled_le_ticks m e a He Hm ltac:(lia)) as [Hv Hb].
  rewrite Hx in Hv. injection Hv as ->. lia.
Qed.

Lemma tsc2ns_defined_below_one_ns_per_tick_witness :
  exists x : Z,
    tsc2ns (set_inv fresh d_third) 3000000
    = Some (wrap64 (ns_offset (set_inv fresh d_third) + x)) /\
    0 <= x <= two62 /\ (3000000 < two53 -> x <= 3000000).
Proof.
  apply (tsc2ns_defined_below_one_ns_per_tick (set_inv fresh d_third)
           6004799503160661 (-54)); crunch.
Defined.

(** ** Accuracy of a calibrated clock *)

(** X14: when the second probe lies [dt] ticks and [dn] nanoseconds after
    the base pair, with [0 < dn <= dt] and tick values below 2^53, the scale
    [calibrate] stores is a positive finite double [ms * 2^es] of at most
    one, and it is the exact quotient [dn / dt] rounded to nearest: it
    differs from it by no more than half a unit [2^es], with
    [es <= -52]. *)
Theorem calibrate_scale_is_nearest (w : World) (t : TSCNS) :
  0 <= base_tsc t ->
  probe_tsc w < two53 ->
  0 < probe_ns w - base_ns t <= probe_tsc w - base_tsc t ->
  exists (f : double) (t' : TSCNS) (ms : positive) (es : Z),
    calibrate w t = Some (f, t', after_probe w) /\
    tsc_ghz_inv t' = S754_finite false ms es /\
    es <= -52 /\ Zpos ms <= 2 ^ (- es) /\
    2 * Z.abs (Zpos ms * (probe_tsc w - base_tsc t)
               - (probe_ns w - base_ns t) * 2 ^ (- es))
    <= probe_tsc w - base_tsc t.
Proof.
  intros Hb Hp Hd.
  destruct (derived_inv_near t (probe_tsc w) (probe_ns w) Hb Hp Hd)
    as (ms & es & Hinv & Hes & Hms & Hnear & Hall).
  destruct (Hall (base_tsc t) ltac:(lia)) as [Hxa _].
  exists (fdiv d_one (derived_inv t (probe_tsc w) (probe_ns w))).
  exists {| tsc_ghz_inv := derived_inv t (probe_tsc w) (probe_ns w);
            ns_offset :=
              wrap64 (base_ns t - scaled_value ms es (base_tsc t));
            base_tsc := base_tsc t; base_ns := base_ns t |}.
  exists ms, es.
  split; [apply calibrate_eq; rewrite Hinv; exact Hxa|].
  split; [exact Hinv|]. split; [exact Hes|]. split; [exact Hms|].
  exact Hnear.
Qed.

Lemma calibrate_scale_is_nearest_witness :
  exists (f : double) (t' : TSCNS) (ms : positive) (es : Z),
    calibrate (linear_world 3000 30 5000 3) (set_base fresh 15 4000)
    = Some (f, t', after_probe (linear_world 3000 30 5000 3)) /\
    tsc_ghz_inv t' = S754_finite false ms es /\
    es <= -52 /\ Zpos ms <= 2 ^ (- es) /\
    2 * Z.abs (Zpos ms * (probe_tsc (linear_world 3000 30 5000 3)
                          - base_tsc (set_base fresh 15 4000))
               - (probe_ns (linear_world 3000 30 5000 3)
                  - base_ns (set_base fresh 15 4000)) * 2 ^ (- es))
    <= probe_tsc (linear_world 3000 30 5000 3)
       - base_tsc (set_base fresh 15 4000).
Proof.
  apply calibrate_scale_is_nearest; crunch.
Defined.

(** X15: under the same conditions the calibrated clock agrees with the
    wall clock at the second probe as well as at the base: the tick value of
    the second probe converts to its wall-clock value, within two
    nanoseconds. *)
Theorem calibrate_tracks_second_probe (w : World) (t : TSCNS) :
  0 <= base_tsc t ->
  probe_tsc w < two53 ->
  0 < probe_ns w - base_ns t <= probe_tsc w - base_tsc t ->
  exists (f : double) (t' : TSCNS) (d : Z),
    calibrate w t = Some (f, t', after_probe w) /\
    -2 <= d <= 2 /\
    tsc2ns t' (probe_tsc w) = Some (wrap64 (probe_ns w + d)).
Proof.
  intros Hb Hp Hd.
  destruct (derived_inv_second_anchor t (probe_tsc w) (probe_ns w) Hb Hp Hd)
    as (ms & es & xa & xb & Hinv & Hxa & Hxb & Hbound).
  exists (fdiv d_one (derived_inv t (probe_tsc w) (probe_ns w))).
  exists {| tsc_ghz_inv := derived_inv t (probe_tsc w) (probe_ns w);
            ns_offset := wrap64 (base_ns t - xa);
            base_tsc := base_tsc t; base_ns := base_ns t |}.
  exists (xb - xa - (probe_ns w - base_ns t)).
  split; [apply calibrate_eq; rewrite Hinv; exact Hxa|].
  split; [exact Hbound|].
  unfold tsc2ns. cbn [tsc_ghz_inv ns_offset].
  rewrite Hinv, Hxb, wrap64_add_l. do 2 f_equal. lia.
Qed.

Lemma calibrate_tracks_second_probe_witness :
  exists (f : double) (t' : TSCNS) (d : Z),
    calibrate (linear_world 3000 30 5000 3) (set_base fresh 15 4000)
    = Some (f, t', after_probe (linear_world 3000 30 5000 3)) /\
    -2 <= d <= 2 /\
    tsc2ns t' (probe_tsc (linear_world 3000 30 5000 3))
    = Some (wrap64 (probe_ns (linear_world 3000 30 5000 3) + d)).
Proof.
  apply calibrate_tracks_second_probe; crunch.
Defined.

(** X16: under the same conditions every tick value [c] below 2^53, before,
    between or after the two probes, converts to [base_ns + k] where [k] is
    within three nanoseconds of [(c - base_tsc) * dn / dt]: the calibrated
    clock follows the straight line through the base pair and the second
    probe. *)
Theorem calibrate_interpolates (w : World) (t : TSCNS) (c : Z) :
  0 <= base_tsc t ->
  probe_tsc w < two53 ->
  0 < probe_ns w - base_ns t <= probe_tsc w - base_tsc t ->
  0 <= c < two53 ->
  exists (f : double) (t' : TSCNS) (k : Z),
    calibrate w t = Some (f, t', after_probe w) /\
    tsc2ns t' c = Some (wrap64 (base_ns t + k)) /\
    Z.abs (k * (probe_tsc w - base_tsc t)
           - (c - base_tsc t) * (probe_ns w - base_ns t))
    < 3 * (probe_tsc w - base_tsc t).
Proof.
  intros Hb Hp Hd Hc.
  destruct (derived_inv_line t (probe_tsc w) (probe_ns w) c Hb Hp Hd Hc)
    as (ms & es & xa & xc & Hinv & Hxa & Hxc & Hbound).
  exists (fdiv d_one (derived_inv t (probe_tsc w) (probe_ns w))).
  exists {| tsc_ghz_inv := derived_inv t (probe_tsc w) (probe_ns w);
            ns_offset := wrap64 (base_ns t - xa);
            base_tsc := base_tsc t; base_ns := base_ns t |}.
  exists (xc - xa).
  split; [apply calibrate_eq; rewrite Hinv; exact Hxa|].
  split; [|exact Hbound].
  unfold tsc2ns. cbn [tsc_ghz_inv ns_offset].
  rewrite Hinv, Hxc, wrap64_add_l. do 2 f_equal. lia.
Qed.

Lemma calibrate_interpolates_witness :
  exists (f : double) (t' : TSCNS) (k : Z),
    calibrate (linear_world 3000 30 5000 3) (set_base fresh 15 4000)
    = Some (f, t', after_probe (linear_world 3000 30 5000 3)) /\
    tsc2ns t' 9000000000
    = Some (wrap64 (base_ns (set_base fresh 15 4000) + k)) /\
    Z.abs (k * (probe_tsc (linear_world 3000 30 5000 3)
                - base_tsc (set_base fresh 15 4000))
           - (9000000000 - base_tsc (set_base fresh 15 4000))
             * (probe_ns (linear_world 3000 30 5000 3)
                - base_ns (set_base fresh 15 4000)))
    < 3 * (probe_tsc (linear_world 3000 30 5000 3)
           - base_tsc (set_base fresh 15 4000)).
Proof.
  apply calibrate_interpolates; crunch.
Defined.

(** X17: [init] with a frequency [g = mg * 2^eg] of at least 1.0 (GHz)
    returns, when the tick value of its probe is below 2^53, and afterwards
    every tick value [c] below 2^53 converts to the wall-clock value of the
    probe plus [k], where [k] is within three nanoseconds of
    [(c - base_tsc) / g]. *)
Theorem init_tracks_frequency (mg : positive) (eg : Z) (w : World)
    (t : TSCNS) (c : Z) :
  eg <= 0 -> 2 ^ (- eg) <= Zpos mg ->
  probe_tsc w < two53 ->
  0 <= c < two53 ->
  exists (t' : TSCNS) (k : Z),
    init (S754_finite false mg eg) w t = Some (t', after_probe w) /\
    tsc2ns t' c = Some (wrap64 (probe_ns w + k)) /\
    Z.abs (k * Zpos mg - (c - probe_tsc w) * 2 ^ (- eg)) < 3 * Zpos mg.
Proof.
  intros Heg Hg Hp Hc. pose proof (probe_tsc_range w) as Hr.
  destruct (recip_line mg eg (probe_tsc w) c Heg Hg ltac:(lia) Hc)
    as (xa & xc & Hxa & Hxc & Hbound).
  exists {| tsc_ghz_inv := fdiv d_one (S754_finite false mg eg);
            ns_offset := wrap64 (probe_ns w - xa);
            base_tsc := probe_tsc w; base_ns := probe_ns w |}.
  exists (xc - xa).
  split; [apply init_positive_eq; [reflexivity|exact Hxa]|].
  split; [|exact Hbound].
  unfold tsc2ns. cbn [tsc_ghz_inv ns_offset].
  rewrite Hxc, wrap64_add_l. do 2 f_equal. lia.
Qed.

Lemma init_tracks_frequency_witness :
  exists (t' : TSCNS) (k : Z),
    init (S754_finite false 6755399441055744 (-51))
      (linear_world 3000 30 5000 3) fresh
    = Some (t', after_probe (linear_world 3000 30 5000 3)) /\
    tsc2ns t' 9000000000
    = Some (wrap64 (probe_ns (linear_world 3000 30 5000 3) + k)) /\
    Z.abs (k * Zpos 6755399441055744
           - (9000000000 - probe_tsc (linear_world 3000 30 5000 3))
             * 2 ^ (- -51))
    < 3 * Zpos 6755399441055744.
Proof.
  apply init_tracks_frequency; crunch.
Defined.
